(** * stockMarket.cpp: the order books, [addOrder] and [matchOrder]

    A shallow embedding of [src/stockMarket.cpp].  The global state of the
    program (the array [orderBooks] and the counter [globalOrderId]) is an
    explicit record that every operation takes and returns.  [int] is a
    32-bit two's complement integer carried in [Z], [double] is the kernel's
    binary64 [float], a C array is a [list] read and written by index, and
    an access outside an array is undefined behaviour, modelled as [None]. *)

From stdpp Require Import base option list.
From Stdlib Require Import ZArith Lia Floats Sorted.

Open Scope Z_scope.

(** ** Machine integers *)

Definition INT_MIN : Z := - 2 ^ 31.
Definition INT_MAX : Z := 2 ^ 31 - 1.

(** [std::atomic<int>::fetch_add] and [fetch_sub] wrap around in two's
    complement. *)
Definition wrap_int (z : Z) : Z := (z + 2 ^ 31) mod 2 ^ 32 - 2 ^ 31.

Definition is_int (z : Z) : Prop := INT_MIN ≤ z ≤ INT_MAX.

(** ** Arrays *)

(** [load a i] is [a[i]]; [store a i v] is [a[i] = v].  Both are undefined
    outside the array. *)
Definition load {A} (a : list A) (i : Z) : option A :=
  if decide (0 ≤ i) then a !! Z.to_nat i else None.

Definition store {A} (a : list A) (i : Z) (v : A) : option (list A) :=
  if decide (0 ≤ i < Z.of_nat (length a)) then Some (<[Z.to_nat i := v]> a) else None.

(** ** The data model *)

Definition NUM_TICKERS : Z := 1024.
Definition MAX_ORDERS_PER_SIDE : Z := 1000.

Inductive OrderType := BUY | SELL.

#[export] Instance OrderType_eq_dec : EqDecision OrderType.
Proof. solve_decision. Defined.

Record OrderSide := mkOrderSide {
  orderId : list Z;
  quantity : list Z;
  price : list float;
  active : list bool;
  count : Z
}.

Record OrderBook := mkOrderBook {
  buy : OrderSide;
  sell : OrderSide
}.

(** The globals of the program. *)
Record Market := mkMarket {
  orderBooks : list OrderBook;
  globalOrderId : Z
}.

Definition set_orderId (s : OrderSide) (a : list Z) : OrderSide :=
  mkOrderSide a (quantity s) (price s) (active s) (count s).
Definition set_quantity (s : OrderSide) (a : list Z) : OrderSide :=
  mkOrderSide (orderId s) a (price s) (active s) (count s).
Definition set_price (s : OrderSide) (a : list float) : OrderSide :=
  mkOrderSide (orderId s) (quantity s) a (active s) (count s).
Definition set_active (s : OrderSide) (a : list bool) : OrderSide :=
  mkOrderSide (orderId s) (quantity s) (price s) a (count s).
Definition set_count (s : OrderSide) (c : Z) : OrderSide :=
  mkOrderSide (orderId s) (quantity s) (price s) (active s) c.

(** [OrderSide()] on zero-initialised static storage. *)
Definition new_OrderSide : OrderSide :=
  let n := Z.to_nat MAX_ORDERS_PER_SIDE in
  mkOrderSide (replicate n 0) (replicate n 0) (replicate n 0%float) (replicate n false) 0.

Definition new_OrderBook : OrderBook := mkOrderBook new_OrderSide new_OrderSide.

Definition initial : Market :=
  mkMarket (replicate (Z.to_nat NUM_TICKERS) new_OrderBook) 0.

(** ** [addOrder] *)

(** The C++ memory orders; [x.store(v)] and [x.load()] without an argument
    are [seq_cst]. *)
Inductive memory_order := relaxed | consume | acquire | release | acq_rel | seq_cst.

Definition at_least_release (o : memory_order) : bool :=
  match o with
  | release | acq_rel | seq_cst => true
  | relaxed | consume | acquire => false
  end.

(** One store of [addOrder] into a slot of a side: a plain assignment to
    [orderId] or [price], or an atomic store to [quantity] or [active]. *)
Inductive Store :=
  | StOrderId (idx : Z) (v : Z)
  | StQuantity (idx : Z) (v : Z) (o : memory_order)
  | StPrice (idx : Z) (v : float)
  | StActive (idx : Z) (v : bool) (o : memory_order).

Definition do_store (s : OrderSide) (st : Store) : option OrderSide :=
  match st with
  | StOrderId idx v => set_orderId s <$> store (orderId s) idx v
  | StQuantity idx v _ => set_quantity s <$> store (quantity s) idx v
  | StPrice idx v => set_price s <$> store (price s) idx v
  | StActive idx v _ => set_active s <$> store (active s) idx v
  end.

Fixpoint do_stores (s : OrderSide) (sts : list Store) : option OrderSide :=
  match sts with
  | [] => Some s
  | st :: sts' => s' ← do_store s st; do_stores s' sts'
  end.

(** Lines 48-51 (and 58-61): the four stores that publish an order, in
    program order. *)
Definition publish (idx oid qty : Z) (px : float) : list Store :=
  [ StOrderId idx oid; StQuantity idx qty seq_cst; StPrice idx px;
    StActive idx true seq_cst ].

(** What [addOrder] reports: nothing when the order is stored at [idx], the
    "order book full" line otherwise. *)
Inductive AddResult := Stored (idx : Z) | BookFull.

(** The body of either branch of [addOrder], on the side it names. *)
Definition add_to_side (s : OrderSide) (oid qty : Z) (px : float)
  : option (OrderSide * AddResult) :=
  let idx := count s in
  let s1 := set_count s (wrap_int (idx + 1)) in
  if decide (idx < MAX_ORDERS_PER_SIDE) then
    s2 ← do_stores s1 (publish idx oid qty px);
    Some (s2, Stored idx)
  else Some (s1, BookFull).

Definition addOrder (type : OrderType) (ticker qty : Z) (px : float) (m : Market)
  : option (Market * AddResult) :=
  let oid := globalOrderId m in
  let gid := wrap_int (oid + 1) in
  ob ← load (orderBooks m) ticker;
  match type with
  | BUY =>
      '(s, r) ← add_to_side (buy ob) oid qty px;
      obs ← store (orderBooks m) ticker (mkOrderBook s (sell ob));
      Some (mkMarket obs gid, r)
  | SELL =>
      '(s, r) ← add_to_side (sell ob) oid qty px;
      obs ← store (orderBooks m) ticker (mkOrderBook (buy ob) s);
      Some (mkMarket obs gid, r)
  end.

(** ** [matchOrder] *)

(** The line [matchOrder] prints for a trade. *)
Record Trade := mkTrade {
  trade_ticker : Z;
  trade_quantity : Z;
  trade_price : float;
  trade_buyId : Z;
  trade_sellId : Z
}.

(** The test of one iteration of a scan loop: [better p best] is
    [p > bestBuyPrice] on the buy side and [p < bestSellPrice] on the sell
    side. *)
Definition buy_better (p best : float) : bool := PrimFloat.ltb best p.
Definition sell_better (p best : float) : bool := PrimFloat.ltb p best.

(** One iteration, with the short-circuit order of [&&]. *)
Definition scan_step (better : float → float → bool) (s : OrderSide) (i : Z)
    (best : Z * float) : option (Z * float) :=
  a ← load (active s) i;
  if a : bool then
    q ← load (quantity s) i;
    if decide (0 < q) then
      p ← load (price s) i;
      if better p best.2 then Some (i, p) else Some best
    else Some best
  else Some best.

(** [n] iterations from index [i]. *)
Fixpoint scan (better : float → float → bool) (s : OrderSide) (n : nat) (i : Z)
    (best : Z * float) : option (Z * float) :=
  match n with
  | O => Some best
  | S n' => best' ← scan_step better s i best; scan better s n' (i + 1) best'
  end.

(** [for (int i = 0; i < cnt; i++)] from the initial best. *)
Definition scan_side (better : float → float → bool) (s : OrderSide) (cnt : Z)
    (sentinel : float) : option (Z * float) :=
  scan better s (Z.to_nat cnt) 0 (-1, sentinel).

Definition fetch_sub (s : OrderSide) (i d : Z) : option OrderSide :=
  q ← load (quantity s) i;
  set_quantity s <$> store (quantity s) i (wrap_int (q - d)).

Definition deactivate_if_zero (s : OrderSide) (i : Z) : option OrderSide :=
  q ← load (quantity s) i;
  if decide (q = 0) then set_active s <$> store (active s) i false else Some s.

(** Lines 93-104. *)
Definition execute (ticker : Z) (ob : OrderBook) (bestBuyIndex bestSellIndex : Z)
    (bestSellPrice : float) : option (OrderBook * Trade) :=
  qb ← load (quantity (buy ob)) bestBuyIndex;
  qs ← load (quantity (sell ob)) bestSellIndex;
  let tradeQuantity := Z.min qb qs in
  b1 ← fetch_sub (buy ob) bestBuyIndex tradeQuantity;
  s1 ← fetch_sub (sell ob) bestSellIndex tradeQuantity;
  b2 ← deactivate_if_zero b1 bestBuyIndex;
  s2 ← deactivate_if_zero s1 bestSellIndex;
  bid ← load (orderId b2) bestBuyIndex;
  sid ← load (orderId s2) bestSellIndex;
  Some (mkOrderBook b2 s2, mkTrade ticker tradeQuantity bestSellPrice bid sid).

(** Lines 71-90: the two scans, each over the count read at the start. *)
Definition select (ob : OrderBook) : option ((Z * float) * (Z * float)) :=
  let buyCount := count (buy ob) in
  let sellCount := count (sell ob) in
  b ← scan_side buy_better (buy ob) buyCount (-1)%float;
  s ← scan_side sell_better (sell ob) sellCount 1e9%float;
  Some (b, s).

(** Line 92. *)
Definition crossing (b s : Z * float) : Prop :=
  b.1 ≠ -1 ∧ s.1 ≠ -1 ∧ PrimFloat.leb s.2 b.2 = true.

Definition matchOrder (ticker : Z) (m : Market) : option (Market * option Trade) :=
  ob ← load (orderBooks m) ticker;
  '(b, s) ← select ob;
  if decide (crossing b s) then
    '(ob', t) ← execute ticker ob b.1 s.1 s.2;
    obs ← store (orderBooks m) ticker ob';
    Some (mkMarket obs (globalOrderId m), Some t)
  else Some (m, None).

(** ** Runs *)

Inductive Op :=
  | Add (type : OrderType) (ticker qty : Z) (px : float)
  | Match (ticker : Z).

Inductive Outcome :=
  | Added (r : AddResult)
  | Matched (t : option Trade).

Definition step (o : Op) (m : Market) : option (Market * Outcome) :=
  match o with
  | Add type ticker qty px => prod_map id Added <$> addOrder type ticker qty px m
  | Match ticker => prod_map id Matched <$> matchOrder ticker m
  end.

(** The operations in order, each with what it reported. *)
Fixpoint run (ops : list Op) (m : Market) : option (Market * list (Op * Outcome)) :=
  match ops with
  | [] => Some (m, [])
  | o :: ops' =>
      '(m1, r) ← step o m;
      '(m2, log) ← run ops' m1;
      Some (m2, (o, r) :: log)
  end.

(** The view of one slot. *)
Definition slot (s : OrderSide) (i : Z) : option (Z * Z * float * bool) :=
  oid ← load (orderId s) i;
  q ← load (quantity s) i;
  p ← load (price s) i;
  a ← load (active s) i;
  Some (oid, q, p, a).

Definition side_of (type : OrderType) (ob : OrderBook) : OrderSide :=
  match type with BUY => buy ob | SELL => sell ob end.

(** Scenarios of the specification, section 8. *)
Definition book0 (r : option (Market * list (Op * Outcome))) : option (OrderBook * list Outcome) :=
  '(m, log) ← r; ob ← load (orderBooks m) 0; Some (ob, log.*2).

(** ** Tactics *)

Ltac fold_cmp :=
  repeat match goal with
  | |- context [Pos.compare_cont Eq ?a ?b] =>
      change (Pos.compare_cont Eq a b) with (Pos.compare a b)
  | H : context [Pos.compare_cont Eq ?a ?b] |- _ =>
      change (Pos.compare_cont Eq a b) with (Pos.compare a b) in H
  end.


(** Linear arithmetic with the constants of the program. *)
Ltac zlia := unfold is_int, MAX_ORDERS_PER_SIDE, NUM_TICKERS, INT_MIN, INT_MAX in *; lia.


(** * Well-formed states *)

(** What the C++ types give: every array of a side has
    [MAX_ORDERS_PER_SIDE] elements, [orderBooks] has [NUM_TICKERS], and
    every [int] is in range. *)
Record wf_side (s : OrderSide) : Prop := {
  wf_orderId : Z.of_nat (length (orderId s)) = MAX_ORDERS_PER_SIDE;
  wf_quantity : Z.of_nat (length (quantity s)) = MAX_ORDERS_PER_SIDE;
  wf_price : Z.of_nat (length (price s)) = MAX_ORDERS_PER_SIDE;
  wf_active : Z.of_nat (length (active s)) = MAX_ORDERS_PER_SIDE;
  wf_orderId_int : Forall is_int (orderId s);
  wf_quantity_int : Forall is_int (quantity s);
  wf_count_int : is_int (count s)
}.

Record wf_book (ob : OrderBook) : Prop := {
  wf_buy : wf_side (buy ob);
  wf_sell : wf_side (sell ob)
}.

Record wf_market (m : Market) : Prop := {
  wf_orderBooks : Z.of_nat (length (orderBooks m)) = NUM_TICKERS;
  wf_books : Forall wf_book (orderBooks m);
  wf_globalOrderId : is_int (globalOrderId m)
}.


(** Goals on sample runs, by evaluation. *)
Ltac evaluated := vm_compute; repeat apply conj; reflexivity.

(** ** The orders a scan considers *)

(** Slot [i] of [s] holds an active order of positive quantity, at price
    [p]: the orders a scan considers. *)
Definition eligible (s : OrderSide) (i : Z) (p : float) : Prop :=
  load (active s) i = Some true ∧
  (∃ q, load (quantity s) i = Some q ∧ 0 < q) ∧
  load (price s) i = Some p.


(** The laws of a scan's comparison that the selection relies on. *)
Class Priority (better : float → float → bool) : Prop := {
  better_irrefl x : better x x = false;
  better_trans x y z : better x y = true → better y z = true → better x z = true;
  better_eqb_l x y z : PrimFloat.eqb x y = true → better x z = better y z;
  better_eqb_r x y z : PrimFloat.eqb x y = true → better z x = better z y
}.


(** ** The effect of a trade on a side *)

(** The effect of a trade of [tq] on slot [i] of a side whose quantity was
    [q]: [fetch_sub], then the store to [active] when the quantity reached
    zero. *)
Definition filled (s : OrderSide) (i tq q : Z) (s' : OrderSide) : Prop :=
  load (quantity s) i = Some q ∧
  store (quantity s) i (wrap_int (q - tq)) = Some (quantity s') ∧
  (if decide (wrap_int (q - tq) = 0)
   then store (active s) i false = Some (active s')
   else active s' = active s) ∧
  orderId s' = orderId s ∧ price s' = price s ∧ count s' = count s.


(** ** What [addOrder] stores *)

(** The four stores of a successful [addOrder] at slot [idx], and the
    incremented counter. *)
Definition published (s : OrderSide) (idx oid qty : Z) (px : float) (s' : OrderSide) : Prop :=
  store (orderId s) idx oid = Some (orderId s') ∧
  store (quantity s) idx qty = Some (quantity s') ∧
  store (price s) idx px = Some (price s') ∧
  store (active s) idx true = Some (active s') ∧
  count s' = wrap_int (count s + 1).

Definition set_side (type : OrderType) (ob : OrderBook) (s : OrderSide) : OrderBook :=
  match type with
  | BUY => mkOrderBook s (sell ob)
  | SELL => mkOrderBook (buy ob) s
  end.

(** The arguments of an operation are [int]s. *)
Definition int_args (o : Op) : Prop :=
  match o with
  | Add _ ticker qty _ => is_int ticker ∧ is_int qty
  | Match ticker => is_int ticker
  end.

(** The market after [ops] from the initial one (the initial one itself
    when the run is undefined). *)
Definition after (ops : list Op) : Market :=
  from_option fst initial (run ops initial).

(** The book of [ticker] (a new one when [ticker] is outside the array). *)
Definition book (m : Market) (ticker : Z) : OrderBook :=
  default new_OrderBook (load (orderBooks m) ticker).

(** ** Sample runs *)

(** A bid of 30 at 100 against an ask of 50 at 90, on ticker 0. *)
Definition crossing_orders : list Op :=
  [Add BUY 0 30 100%float; Add SELL 0 50 90%float].

(** Two bids at 100 and two asks at 90 on ticker 0. *)
Definition tied_orders : list Op :=
  [Add BUY 0 5 100%float; Add BUY 0 7 100%float;
   Add SELL 0 5 90%float; Add SELL 0 7 90%float].

(** Two asks at 2e9 on ticker 0. *)
Definition asks_above_sentinel : list Op :=
  [Add SELL 0 1 2e9%float; Add SELL 0 1 2e9%float].

(** A bid at 2e9 against an ask at 1.5e9, on ticker 0. *)
Definition crossing_above_sentinel : list Op :=
  [Add BUY 0 1 2e9%float; Add SELL 0 1 1.5e9%float].

(** Slot [i] of a sample side is an active order of quantity [q]. *)
Ltac eligible_with q :=
  split; [evaluated | split; [exists q; evaluated | evaluated]].

(** The arguments of a sample run are [int]s. *)
Ltac int_ops :=
  repeat (constructor; [cbn [int_args]; zlia|]); constructor.

(** An order of quantity 0 at price -5 on ticker 0. *)
Definition invalid_order : list Op := [Add BUY 0 0 (-5)%float].

(** [n] bids of 1 at 1 on ticker 0. *)
Definition bids (n : nat) : list Op := replicate n (Add BUY 0 1 1%float).

(** [m] with the counter of the buy side of ticker 0 and the order id
    counter at [n]. *)
Definition with_count (m : Market) (n : Z) : Market :=
  mkMarket
    (<[0%nat := mkOrderBook (set_count (buy (book m 0)) n) (sell (book m 0))]>
       (orderBooks m))
    n.

(** The market after [n] bids on ticker 0, for [n] from the capacity on. *)
Definition full_bids (n : Z) : Market := with_count (after (bids 1000)) n.

(** ** The life of a slot *)

(** Slot [i] holds in [s'] no more than it holds in [s], and is not active
    in [s'] when it is not in [s]. *)
Definition slot_le (i : Z) (s s' : OrderSide) : Prop :=
  ∀ q a, load (quantity s) i = Some q → load (active s) i = Some a →
    ∃ q' a', load (quantity s') i = Some q' ∧ load (active s') i = Some a' ∧
             q' ≤ q ∧ (a = false → a' = false).

(** Slot [i] has been handed out by the counter of [s]; a counter that has
    wrapped around below zero hands out no further slot. *)
Definition handed_out (s : OrderSide) (i : Z) : Prop :=
  0 ≤ i < count s ∨ count s < 0.

(** ** The accounts of a run *)

Definition sumZ (l : list Z) : Z := foldr Z.add 0 l.

(** The quantity open on a side: the sum of the quantities of its active
    slots. *)
Definition open_side (s : OrderSide) : Z :=
  sumZ (zip_with (λ (a : bool) (q : Z), if a then q else 0) (active s) (quantity s)).

Definition open_book (ob : OrderBook) : Z := open_side (buy ob) + open_side (sell ob).

(** What one entry of a log adds, for [ticker], to the quantity submitted,
    to the quantity turned away by a full book, and to the quantity
    traded. *)
Definition submitted_of (ticker : Z) (e : Op * Outcome) : Z :=
  match e with
  | (Add _ t qty _, _) => if decide (t = ticker) then qty else 0
  | _ => 0
  end.

Definition rejected_of (ticker : Z) (e : Op * Outcome) : Z :=
  match e with
  | (Add _ t qty _, Added BookFull) => if decide (t = ticker) then qty else 0
  | _ => 0
  end.

Definition traded_of (ticker : Z) (e : Op * Outcome) : Z :=
  match e with
  | (Match t, Matched (Some tr)) => if decide (t = ticker) then trade_quantity tr else 0
  | _ => 0
  end.

Definition submitted (ticker : Z) (log : list (Op * Outcome)) : Z :=
  sumZ (submitted_of ticker <$> log).
Definition rejected (ticker : Z) (log : list (Op * Outcome)) : Z :=
  sumZ (rejected_of ticker <$> log).
Definition traded (ticker : Z) (log : list (Op * Outcome)) : Z :=
  sumZ (traded_of ticker <$> log).

(** No submitted quantity is negative. *)
Definition nonneg_qty (o : Op) : Prop :=
  match o with
  | Add _ _ qty _ => 0 ≤ qty
  | Match _ => True
  end.

(** The slots that the counter of a side has not handed out yet are not
    active. *)
Definition fresh_side (s : OrderSide) : Prop :=
  ∀ i, 0 ≤ count s ≤ i → load (active s) i ≠ Some true.

Definition fresh (m : Market) : Prop :=
  ∀ ticker ob type, load (orderBooks m) ticker = Some ob → fresh_side (side_of type ob).

(** A bid of 50 at 100 and an ask of 50 at 90 on ticker 0, matched. *)
Definition full_fill : list Op :=
  [Add BUY 0 50 100%float; Add SELL 0 50 90%float; Match 0].

(** One store of a publication, rewritten by its result [H]. *)
Ltac stored H :=
  cbn [orderId quantity price active count set_orderId set_quantity set_price set_active];
  rewrite H;
  cbn [fmap option_fmap option_map mbind option_bind orderId quantity price active
       count set_orderId set_quantity set_price set_active].

(** ** [matchOrdersContinuously] *)

(** The [for] loop of one cycle: [matchOrder] on [n] tickers in ascending
    order from [ticker]; the trades printed, in order. *)
Fixpoint sweep_from (n : nat) (ticker : Z) (m : Market) : option (Market * list Trade) :=
  match n with
  | O => Some (m, [])
  | S n' =>
      '(m1, o) ← matchOrder ticker m;
      '(m2, ts) ← sweep_from n' (ticker + 1) m1;
      Some (m2, option_list o ++ ts)
  end.

(** [for (int ticker = 0; ticker < NUM_TICKERS; ticker++)]. *)
Definition sweep (m : Market) : option (Market * list Trade) :=
  sweep_from (Z.to_nat NUM_TICKERS) 0 m.

(** [while (true)] never returns; these are its first [cycles] iterations,
    with the trades of each. *)
Fixpoint matchOrdersContinuously (cycles : nat) (m : Market)
  : option (Market * list (list Trade)) :=
  match cycles with
  | O => Some (m, [])
  | S cycles' =>
      '(m1, ts) ← sweep m;
      '(m2, tss) ← matchOrdersContinuously cycles' m1;
      Some (m2, ts :: tss)
  end.

(** ** [addOrdersRandomly] *)

(** What one iteration draws from the four distributions, in the order of
    the source: ticker, quantity, price, order type. *)
Record Draw := mkDraw {
  draw_ticker : Z;
  draw_quantity : Z;
  draw_price : float;
  draw_type : Z
}.

(** The values the four distributions return: [tickerDist(0, NUM_TICKERS - 1)],
    [quantityDist(1, 100)], [priceDist(10.0, 1000.0)], [orderTypeDist(0, 1)].
    The integer distributions are on closed intervals; the real one is on
    [10.0, 1000.0), and the upper bound is kept here, for an
    implementation that rounds up to it. *)
Definition drawn (d : Draw) : Prop :=
  0 ≤ draw_ticker d ≤ NUM_TICKERS - 1 ∧
  1 ≤ draw_quantity d ≤ 100 ∧
  PrimFloat.leb 10 (draw_price d) = true ∧ PrimFloat.leb (draw_price d) 1000 = true ∧
  0 ≤ draw_type d ≤ 1.

(** [(orderTypeDist(generator) == 0) ? BUY : SELL]. *)
Definition order_type (b : Z) : OrderType := if decide (b = 0) then BUY else SELL.

(** The loop of [addOrdersRandomly], one iteration per draw. *)
Fixpoint addOrdersRandomly (draws : list Draw) (m : Market)
  : option (Market * list AddResult) :=
  match draws with
  | [] => Some (m, [])
  | d :: draws' =>
      '(m1, r) ← addOrder (order_type (draw_type d)) (draw_ticker d)
                   (draw_quantity d) (draw_price d) m;
      '(m2, rs) ← addOrdersRandomly draws' m1;
      Some (m2, r :: rs)
  end.

(** The submission of a draw, as an operation of a run. *)
Definition submit (d : Draw) : Op :=
  Add (order_type (draw_type d)) (draw_ticker d) (draw_quantity d) (draw_price d).

(** ** The work of [matchOrder] on one book *)

(** Lines 71-105 on the book of the ticker. *)
Definition match_book (ticker : Z) (ob : OrderBook) : option (OrderBook * option Trade) :=
  '(b, s) ← select ob;
  if decide (crossing b s) then
    '(ob', t) ← execute ticker ob b.1 s.1 s.2; Some (ob', Some t)
  else Some (ob, None).

(** The quantity that can still trade on a side: the sum of the positive
    quantities of its active slots. *)
Definition live_side (s : OrderSide) : Z :=
  sumZ (zip_with (λ (a : bool) (q : Z), if a then Z.max q 0 else 0) (active s) (quantity s)).

(** The trades of a log. *)
Definition trades_of (log : list (Op * Outcome)) : list Trade :=
  omap (λ e, match e.2 with Matched (Some t) => Some t | _ => None end) log.

(** 1001 bids on ticker 0: the last one is turned away. *)
Definition one_bid_too_many : list Op := bids 1001.

(** The quantity of the trades of [ticker] among [ts], and the quantity
    that can still trade on the buy sides of the whole market. *)
Definition volume (ticker : Z) (ts : list Trade) : Z :=
  sumZ (trade_quantity <$> filter (λ tr, trade_ticker tr = ticker) ts).

Definition live (m : Market) : Z :=
  sumZ ((λ ob, live_side (buy ob)) <$> orderBooks m).

(** Two calls of [matchOrder], and a submission with a call of
    [matchOrder], in both orders. *)
Definition match_then_match (t1 t2 : Z) (m : Market)
  : option (Market * option Trade * option Trade) :=
  '(m1, o1) ← matchOrder t1 m; '(m2, o2) ← matchOrder t2 m1; Some (m2, o1, o2).

Definition add_then_match (type : OrderType) (t1 qty : Z) (px : float) (t2 : Z) (m : Market)
  : option (Market * AddResult * option Trade) :=
  '(m1, r) ← addOrder type t1 qty px m; '(m2, o) ← matchOrder t2 m1; Some (m2, r, o).

Definition match_then_add (type : OrderType) (t1 qty : Z) (px : float) (t2 : Z) (m : Market)
  : option (Market * AddResult * option Trade) :=
  '(m1, o) ← matchOrder t2 m; '(m2, r) ← addOrder type t1 qty px m1; Some (m2, r, o).

(** ** The prices of successive trades *)

(** [o] submits no ask for [ticker]. *)
Definition no_ask (ticker : Z) (o : Op) : Prop :=
  match o with
  | Add SELL t _ _ => t ≠ ticker
  | _ => True
  end.

(** No ask that a scan of [s] considers is priced below [lb]. *)
Definition asks_from (lb : float) (s : OrderSide) : Prop :=
  ∀ j p, 0 ≤ j < count s → eligible s j p → PrimFloat.ltb p lb = false.

(** The prices of the trades of [ticker] in a log, in order. *)
Definition prices_at (ticker : Z) (log : list (Op * Outcome)) : list float :=
  trade_price <$> filter (λ tr, trade_ticker tr = ticker) (trades_of log).

(** A bid of 10 at 100 against asks of 5 at 95 and of 5 at 90, on
    ticker 0. *)
Definition ladder : list Op :=
  [Add BUY 0 10 100%float; Add SELL 0 5 95%float; Add SELL 0 5 90%float].

(** ** Order ids *)

(** The order id in slot [i] of a side of the book of [ticker], when the
    counter of the side has handed the slot out. *)
Definition id_of (m : Market) (ticker : Z) (type : OrderType) (i : Z) : option Z :=
  let s := side_of type (book m ticker) in
  if decide (0 ≤ i < count s ∧ i < MAX_ORDERS_PER_SIDE) then load (orderId s) i else None.

(** The number of submissions among [ops]. *)
Definition adds (ops : list Op) : Z :=
  sumZ ((λ o, match o with Add _ _ _ _ => 1 | Match _ => 0 end) <$> ops).

(** The counters of the sides are between zero and the order id counter;
    the order ids of the slots handed out are below the order id counter,
    and no two of them are equal. *)
Record ids_ok (m : Market) : Prop := {
  ids_counts t type : 0 ≤ count (side_of type (book m t)) ≤ globalOrderId m;
  ids_bounded t type i id : id_of m t type i = Some id → 0 ≤ id < globalOrderId m;
  ids_distinct t type i t' type' i' id :
    id_of m t type i = Some id → id_of m t' type' i' = Some id →
    t = t' ∧ type = type' ∧ i = i'
}.

(** ** The operations of the threads of [main] *)

(** A submission of values that [addOrdersRandomly] draws, or a call of
    [matchOrder] from the loop of [matchOrdersContinuously]. *)
Definition generated (o : Op) : Prop :=
  match o with
  | Add _ ticker qty px =>
      0 ≤ ticker ≤ NUM_TICKERS - 1 ∧ 1 ≤ qty ≤ 100 ∧
      PrimFloat.leb 10 px = true ∧ PrimFloat.leb px 1000 = true
  | Match ticker => 0 ≤ ticker < NUM_TICKERS
  end.

(** Every order that a scan considers is priced from 10.0 to 1000.0. *)
Definition priced (m : Market) : Prop :=
  ∀ t type i p,
    0 ≤ i < count (side_of type (book m t)) → eligible (side_of type (book m t)) i p →
    PrimFloat.leb 10 p = true ∧ PrimFloat.leb p 1000 = true.

(** The number of submissions to one side of one ticker among [ops]. *)
Definition adds_to (ticker : Z) (type : OrderType) (ops : list Op) : Z :=
  sumZ ((λ o, match o with
              | Add ty t _ _ => if decide (t = ticker ∧ ty = type) then 1 else 0
              | Match _ => 0
              end) <$> ops).

(** No submission of a log was turned away. *)
Definition all_stored (log : list (Op * Outcome)) : Prop :=
  Forall (λ e, match e.2 with Added BookFull => False | _ => True end) log.

(** Four draws for a sample run of [addOrdersRandomly]. *)
Definition sample_draws : list Draw :=
  [mkDraw 3 10 50%float 0; mkDraw 3 4 45%float 1; mkDraw 7 100 10%float 1;
   mkDraw 1023 1 1000%float 0].

(** ** The order in which stores become visible *)

(** The memory order of a store; a plain assignment has none. *)
Definition order_of (st : Store) : option memory_order :=
  match st with
  | StQuantity _ _ o | StActive _ _ o => Some o
  | StOrderId _ _ | StPrice _ _ => None
  end.

(** A store of at least release order. *)
Definition releases (st : Store) : bool :=
  match order_of st with Some o => at_least_release o | None => false end.

(** Two stores to one location: the same array and the same index. *)
Definition same_location (st st' : Store) : bool :=
  match st, st' with
  | StOrderId i _, StOrderId j _ => bool_decide (i = j)
  | StQuantity i _ _, StQuantity j _ _ => bool_decide (i = j)
  | StPrice i _, StPrice j _ => bool_decide (i = j)
  | StActive i _ _, StActive j _ _ => bool_decide (i = j)
  | _, _ => false
  end.

(** Another thread need not see the stores of a thread in program order:
    only a store of at least release order is seen after every store
    sequenced before it, and the stores to one location are seen in
    program order.  [next_visible pre sts] lists the stores of [sts] that
    may be the next one seen, with [pre] the earlier stores not yet seen,
    each with the stores then left. *)
Fixpoint next_visible (pre sts : list Store) : list (Store * list Store) :=
  match sts with
  | [] => []
  | st :: post =>
      let later := next_visible (pre ++ [st]) post in
      if (negb (releases st) || match pre with [] => true | _ => false end)
         && forallb (λ st', negb (same_location st' st)) pre
      then (st, pre ++ post) :: later
      else later
  end.

Fixpoint visible_from (n : nat) (sts : list Store) : list (list Store) :=
  match n with
  | O => [[]]
  | S n' => '(st, rest) ← next_visible [] sts; (st ::.) <$> visible_from n' rest
  end.

(** The orders in which another thread may see the stores [sts] of one
    thread, [sts] being in program order. *)
Definition visibility_orders (sts : list Store) : list (list Store) :=
  visible_from (length sts) sts.
(** * The order of [double] *)

(** [<], [<=] and [==] on binary64, from their specification on
    [spec_float]: a strict weak order on the numbers, with every comparison
    against NaN false. *)
Module FloatOrder.

Lemma SFcompare_antisym x y : SFcompare y x = CompOpp <$> SFcompare x y.
Proof.
  destruct x as [[]|[]| |[] m1 e1], y as [[]|[]| |[] m2 e2];
    simpl; try reflexivity; fold_cmp;
    rewrite (Z.compare_antisym e1 e2), (Pos.compare_antisym m1 m2);
    destruct (e1 ?= e2); simpl; try reflexivity;
    destruct (m1 ?= m2)%positive; reflexivity.
Qed.

Lemma SFcompare_trans x y z :
  SFcompare x y = Some Lt → SFcompare y z = Some Lt → SFcompare x z = Some Lt.
Proof.
  destruct x as [[]|[]| |[] m1 e1], y as [[]|[]| |[] m2 e2], z as [[]|[]| |[] m3 e3];
    simpl; try congruence; fold_cmp;
    destruct (Z.compare_spec e1 e2), (Z.compare_spec e2 e3), (Z.compare_spec e1 e3);
    simpl; try congruence; try lia;
    destruct (Pos.compare_spec m1 m2), (Pos.compare_spec m2 m3), (Pos.compare_spec m1 m3);
    simpl; try congruence; try lia.
Qed.

Lemma SFcompare_eq_l x y z : SFcompare x y = Some Eq → SFcompare x z = SFcompare y z.
Proof.
  destruct x as [[]|[]| |[] m1 e1], y as [[]|[]| |[] m2 e2]; simpl; try congruence;
    destruct z as [[]|[]| |[] m3 e3]; simpl; try congruence; fold_cmp;
    destruct (Z.compare_spec e1 e2); simpl; try congruence;
    destruct (Pos.compare_spec m1 m2); simpl; try congruence; subst; reflexivity.
Qed.

Lemma SFcompare_eq_r x y z : SFcompare x y = Some Eq → SFcompare z x = SFcompare z y.
Proof.
  intros H. rewrite (SFcompare_antisym x z), (SFcompare_antisym y z).
  by rewrite (SFcompare_eq_l x y z H).
Qed.

Lemma ltb_compare x y : PrimFloat.ltb x y = true ↔ SFcompare (Prim2SF x) (Prim2SF y) = Some Lt.
Proof.
  rewrite ltb_spec. unfold SFltb.
  destruct (SFcompare (Prim2SF x) (Prim2SF y)) as [[]|]; split; congruence.
Qed.

Lemma eqb_compare x y : PrimFloat.eqb x y = true ↔ SFcompare (Prim2SF x) (Prim2SF y) = Some Eq.
Proof.
  rewrite eqb_spec. unfold SFeqb.
  destruct (SFcompare (Prim2SF x) (Prim2SF y)) as [[]|]; split; congruence.
Qed.

Lemma leb_compare x y :
  PrimFloat.leb x y = true ↔
  SFcompare (Prim2SF x) (Prim2SF y) = Some Lt ∨ SFcompare (Prim2SF x) (Prim2SF y) = Some Eq.
Proof.
  rewrite leb_spec. unfold SFleb.
  destruct (SFcompare (Prim2SF x) (Prim2SF y)) as [[]|]; split;
    first [ congruence | intros [?|?]; congruence | auto ].
Qed.

Lemma ltb_trans x y z :
  PrimFloat.ltb x y = true → PrimFloat.ltb y z = true → PrimFloat.ltb x z = true.
Proof. rewrite !ltb_compare. apply SFcompare_trans. Qed.

Lemma ltb_asym x y : PrimFloat.ltb x y = true → PrimFloat.ltb y x = false.
Proof.
  intros H. apply not_true_is_false. revert H. rewrite !ltb_compare.
  rewrite (SFcompare_antisym (Prim2SF x) (Prim2SF y)).
  intros ->. discriminate.
Qed.

Lemma ltb_irrefl x : PrimFloat.ltb x x = false.
Proof.
  destruct (PrimFloat.ltb x x) eqn:H; [|done].
  by rewrite (ltb_asym _ _ H) in H.
Qed.

Lemma eqb_ltb_l x y z : PrimFloat.eqb x y = true → PrimFloat.ltb x z = PrimFloat.ltb y z.
Proof.
  rewrite eqb_compare. intros H. rewrite !ltb_spec. unfold SFltb.
  by rewrite (SFcompare_eq_l _ _ (Prim2SF z) H).
Qed.

Lemma eqb_ltb_r x y z : PrimFloat.eqb x y = true → PrimFloat.ltb z x = PrimFloat.ltb z y.
Proof.
  rewrite eqb_compare. intros H. rewrite !ltb_spec. unfold SFltb.
  by rewrite (SFcompare_eq_r _ _ (Prim2SF z) H).
Qed.

Lemma leb_not_ltb x y : PrimFloat.leb x y = true → PrimFloat.ltb y x = false.
Proof.
  rewrite leb_compare. intros H. apply not_true_is_false. rewrite ltb_compare.
  rewrite (SFcompare_antisym (Prim2SF x) (Prim2SF y)).
  destruct H as [-> | ->]; discriminate.
Qed.

Lemma ltb_leb x y : PrimFloat.ltb x y = true → PrimFloat.leb x y = true.
Proof. rewrite ltb_compare, leb_compare. auto. Qed.

Lemma eqb_sym x y : PrimFloat.eqb x y = true → PrimFloat.eqb y x = true.
Proof.
  rewrite !eqb_compare. rewrite (SFcompare_antisym (Prim2SF x) (Prim2SF y)).
  by intros ->.
Qed.

Lemma SFcompare_Some x y : x ≠ S754_nan → y ≠ S754_nan → is_Some (SFcompare x y).
Proof. destruct x as [[]|[]| |[] m1 e1], y as [[]|[]| |[] m2 e2]; simpl; by eauto. Qed.

Lemma SFcompare_Some_inv x y c : SFcompare x y = Some c → x ≠ S754_nan ∧ y ≠ S754_nan.
Proof. destruct x as [[]|[]| |[] m1 e1], y as [[]|[]| |[] m2 e2]; simpl; by eauto. Qed.

(** A [double] that is not NaN. *)
Lemma ltb_number x y :
  PrimFloat.ltb x y = true → Prim2SF x ≠ S754_nan ∧ Prim2SF y ≠ S754_nan.
Proof. rewrite ltb_compare. apply SFcompare_Some_inv. Qed.

Lemma leb_number x y :
  PrimFloat.leb x y = true → Prim2SF x ≠ S754_nan ∧ Prim2SF y ≠ S754_nan.
Proof. rewrite leb_compare. intros [H|H]; by apply SFcompare_Some_inv in H. Qed.

Lemma not_ltb_leb x y :
  Prim2SF x ≠ S754_nan → Prim2SF y ≠ S754_nan →
  PrimFloat.ltb x y = false → PrimFloat.leb y x = true.
Proof.
  intros Hx Hy H. apply leb_compare. rewrite (SFcompare_antisym (Prim2SF x) (Prim2SF y)).
  destruct (SFcompare_Some _ _ Hx Hy) as [c Hc]. rewrite Hc. simpl.
  destruct c; [by right | | by left].
  apply ltb_compare in Hc. congruence.
Qed.

Lemma leb_trans x y z :
  PrimFloat.leb x y = true → PrimFloat.leb y z = true → PrimFloat.leb x z = true.
Proof.
  rewrite !leb_compare. intros [H1|H1] [H2|H2].
  - left. by eapply SFcompare_trans.
  - left. by rewrite <- (SFcompare_eq_r _ _ _ H2).
  - left. by rewrite (SFcompare_eq_l _ _ _ H1).
  - right. by rewrite (SFcompare_eq_l _ _ _ H1).
Qed.

End FloatOrder.

#[export] Instance buy_priority : Priority buy_better.
Proof.
  split; unfold buy_better.
  - apply FloatOrder.ltb_irrefl.
  - intros x y z H1 H2. by apply (FloatOrder.ltb_trans z y x).
  - intros x y z. apply FloatOrder.eqb_ltb_r.
  - intros x y z. apply FloatOrder.eqb_ltb_l.
Qed.

#[export] Instance sell_priority : Priority sell_better.
Proof.
  split; unfold sell_better.
  - apply FloatOrder.ltb_irrefl.
  - intros x y z. apply FloatOrder.ltb_trans.
  - intros x y z. apply FloatOrder.eqb_ltb_l.
  - intros x y z. apply FloatOrder.eqb_ltb_r.
Qed.

(** * Arrays: a read after a write *)

Section Arrays.
  Context {A : Type}.
  Implicit Types (a : list A) (i j : Z) (v : A).

Lemma load_Some_range a i v : load a i = Some v → 0 ≤ i < Z.of_nat (length a).
  Proof.
    unfold load. case_decide; [|done]. intros Hl%lookup_lt_Some. lia.
  Qed.

Lemma load_in_range a i : 0 ≤ i < Z.of_nat (length a) → is_Some (load a i).
  Proof.
    intros H. unfold load. rewrite decide_True by lia.
    apply lookup_lt_is_Some. lia.
  Qed.

Lemma load_out_of_range a i : ¬ (0 ≤ i < Z.of_nat (length a)) → load a i = None.
  Proof.
    intros Hr. unfold load. case_decide; [|done]. apply lookup_ge_None. lia.
  Qed.

Lemma store_Some a i v a' :
    store a i v = Some a' ↔ 0 ≤ i < Z.of_nat (length a) ∧ a' = <[Z.to_nat i := v]> a.
  Proof.
    unfold store. case_decide; split.
    - by intros [= <-].
    - by intros [_ ->].
    - done.
    - by intros [? _].
  Qed.

Lemma store_in_range a i v :
    0 ≤ i < Z.of_nat (length a) → store a i v = Some (<[Z.to_nat i := v]> a).
  Proof. intros. by apply store_Some. Qed.

Lemma store_out_of_range a i v : ¬ (0 ≤ i < Z.of_nat (length a)) → store a i v = None.
Proof. intros Hr. unfold store. by rewrite decide_False. Qed.

Lemma store_length a i v a' : store a i v = Some a' → length a' = length a.
  Proof. intros [_ ->]%store_Some. apply length_insert. Qed.

Lemma load_store_eq a i v a' : store a i v = Some a' → load a' i = Some v.
  Proof.
    intros [Hi ->]%store_Some. unfold load. rewrite decide_True by lia.
    apply list_lookup_insert_eq. lia.
  Qed.

Lemma load_store_ne a i j v a' : store a i v = Some a' → i ≠ j → load a' j = load a j.
  Proof.
    intros [Hi ->]%store_Some Hne. unfold load. case_decide; [|done].
    apply list_lookup_insert_ne. lia.
  Qed.

Lemma load_store a i j v a' :
    store a i v = Some a' → load a' j = if decide (i = j) then Some v else load a j.
  Proof.
    intros H. case_decide; subst; eauto using load_store_eq, load_store_ne.
  Qed.

Lemma store_same a i v : load a i = Some v → store a i v = Some a.
  Proof.
    intros H. pose proof (load_Some_range _ _ _ H). apply store_Some. split; [done|].
    symmetry. apply list_insert_id. revert H. unfold load. by rewrite decide_True by lia.
  Qed.

Lemma Forall_store (P : A → Prop) a i v a' :
    Forall P a → P v → store a i v = Some a' → Forall P a'.
  Proof. intros Ha Hv [_ ->]%store_Some. by apply Forall_insert. Qed.

Lemma Forall_load (P : A → Prop) a i v : Forall P a → load a i = Some v → P v.
  Proof.
    unfold load. case_decide; [|done]. intros Ha Hl.
    by eapply Forall_lookup_1.
  Qed.
End Arrays.

Lemma wrap_int_is_int z : is_int (wrap_int z).
Proof.
  unfold is_int, wrap_int, INT_MIN, INT_MAX.
  pose proof (Z.mod_pos_bound (z + 2 ^ 31) (2 ^ 32)). lia.
Qed.

Lemma wrap_int_id z : is_int z → wrap_int z = z.
Proof.
  unfold is_int, wrap_int, INT_MIN, INT_MAX. intros H.
  rewrite Z.mod_small; lia.
Qed.

(** * Well-formed states *)

Lemma wf_new_OrderSide : wf_side new_OrderSide.
Proof.
  unfold new_OrderSide.
  split; cbn [orderId quantity price active count];
    rewrite ?length_replicate, ?Z2Nat.id; try done;
    try apply Forall_replicate; by vm_compute.
Qed.

Lemma wf_initial : wf_market initial.
Proof.
  unfold initial. split; cbn [orderBooks globalOrderId].
  - by rewrite length_replicate, Z2Nat.id.
  - apply Forall_replicate. split; apply wf_new_OrderSide.
  - by vm_compute.
Qed.

Lemma wf_market_book m ticker ob :
  wf_market m → load (orderBooks m) ticker = Some ob → wf_book ob.
Proof. intros [_ H _] Hl. by eapply Forall_load. Qed.

Lemma wf_market_ticker m ticker :
  wf_market m → 0 ≤ ticker < NUM_TICKERS → is_Some (load (orderBooks m) ticker).
Proof. intros [H _ _] Ht. apply load_in_range. lia. Qed.

(** * The scan of one side *)

Lemma eligible_price s i p p' : eligible s i p → eligible s i p' → p = p'.
Proof. intros (_ & _ & H) (_ & _ & H'). congruence. Qed.

Section Scan.
  Context (better : float → float → bool) `{!Priority better}.
  Context (s : OrderSide).

Lemma better_asym x y : better x y = true → better y x = false.
  Proof.
    intros H. destruct (better y x) eqn:H'; [|done].
    pose proof (better_trans _ _ _ H H') as Hxx. by rewrite better_irrefl in Hxx.
  Qed.

Lemma scan_step_cases i best best' :
    scan_step better s i best = Some best' →
    (∃ p, best' = (i, p) ∧ eligible s i p ∧ better p best.2 = true) ∨
    (best' = best ∧ ∀ p, eligible s i p → better p best.2 = false).
  Proof.
    unfold scan_step, eligible.
    destruct (load (active s) i) as [[|]|] eqn:Ha; simpl; [| |done].
    - destruct (load (quantity s) i) as [q|] eqn:Hq; simpl; [|done].
      case_decide as Hpos.
      + destruct (load (price s) i) as [p|] eqn:Hp; simpl; [|done].
        destruct (better p best.2) eqn:Hb; intros [= <-].
        * left. exists p. eauto 10.
        * right. split; [done|]. by intros p' (_ & _ & [= <-]).
      + intros [= <-]. right. split; [done|].
        intros p' (_ & (q' & [= <-] & ?) & _). lia.
    - intros [= <-]. right. split; [done|]. by intros p' ([=] & _).
  Qed.

  (** The result of [n] iterations from [i]: it is the running best or a
      considered slot that beats it; no considered slot of the range beats
      the result; and every considered slot before the result has another
      price. *)
Lemma scan_spec n : ∀ i best r,
    scan better s n i best = Some r → best.1 < i →
    (r = best ∨ (i ≤ r.1 < i + Z.of_nat n ∧ eligible s r.1 r.2 ∧ better r.2 best.2 = true)) ∧
    (∀ j p, i ≤ j < i + Z.of_nat n → eligible s j p → better p r.2 = false) ∧
    (∀ j p, i ≤ j < r.1 → eligible s j p → PrimFloat.eqb p r.2 = false).
  Proof.
    induction n as [|n IH]; intros i best r; cbn [scan].
    - intros [= <-] Hlt. split; [by left|]. split; intros; lia.
    - destruct (scan_step better s i best) as [best'|] eqn:Hstep; simpl; [|done].
      intros Hscan Hlt.
      apply scan_step_cases in Hstep as [(p & -> & Hel & Hb) | (-> & Hnb)].
      + destruct (IH (i + 1) (i, p) r Hscan) as (HA & HB & HC); [simpl; lia|].
        simpl in HA.
        assert (r = (i, p) ∨ better r.2 p = true) as Hr by (destruct HA as [?|(?&?&?)]; auto).
        split; [|split].
        * right. destruct HA as [-> | (Hrange & Hel' & Hb')].
          -- simpl. split; [lia|]. auto.
          -- split; [lia|]. split; [done|]. by eapply better_trans.
        * intros j p' Hj Hel'. destruct (decide (j = i)) as [->|].
          -- rewrite <- (eligible_price _ _ _ _ Hel Hel').
             destruct Hr as [-> | Hr]; [apply better_irrefl | by apply better_asym].
          -- apply (HB j); [lia | done].
        * intros j p' Hj Hel'. destruct (decide (j = i)) as [->|].
          -- rewrite <- (eligible_price _ _ _ _ Hel Hel').
             destruct Hr as [-> | Hr]; [simpl in Hj; lia|].
             destruct (PrimFloat.eqb p r.2) eqn:He; [|done].
             by rewrite (better_eqb_r _ _ r.2 He), better_irrefl in Hr.
          -- apply (HC j); [lia | done].
      + destruct (IH (i + 1) best r Hscan) as (HA & HB & HC); [lia|].
        split; [|split].
        * destruct HA as [-> | (Hrange & Hel' & Hb')]; [by left|].
          right. split; [lia | done].
        * intros j p' Hj Hel'. destruct (decide (j = i)) as [->|].
          -- specialize (Hnb _ Hel').
             destruct HA as [-> | (_ & _ & Hb')]; [done|].
             destruct (better p' r.2) eqn:Hp'; [|done].
             by rewrite (better_trans _ _ _ Hp' Hb') in Hnb.
          -- apply (HB j); [lia | done].
        * intros j p' Hj Hel'. destruct (decide (j = i)) as [->|].
          -- specialize (Hnb _ Hel').
             destruct HA as [-> | (_ & _ & Hb')]; [lia|].
             destruct (PrimFloat.eqb p' r.2) eqn:He; [|done].
             by rewrite (better_eqb_l _ _ best.2 He), Hb' in Hnb.
          -- apply (HC j); [lia | done].
  Qed.

  (** A scan only fails by reading outside the arrays. *)
Lemma scan_step_in_range i best :
    wf_side s → 0 ≤ i < MAX_ORDERS_PER_SIDE → is_Some (scan_step better s i best).
  Proof.
    intros Hwf Hi. unfold scan_step.
    destruct (load_in_range (active s) i) as [a ->]; [by rewrite (wf_active _ Hwf)|].
    destruct (load_in_range (quantity s) i) as [q ->]; [by rewrite (wf_quantity _ Hwf)|].
    destruct (load_in_range (price s) i) as [p ->]; [by rewrite (wf_price _ Hwf)|].
    simpl. destruct a; [|done]. case_decide; [|done]. by destruct (better p best.2).
  Qed.

Lemma scan_in_range n : ∀ i best,
    wf_side s → 0 ≤ i → i + Z.of_nat n ≤ MAX_ORDERS_PER_SIDE →
    is_Some (scan better s n i best).
  Proof.
    induction n as [|n IH]; intros i best Hwf Hi Hn; cbn [scan]; [done|].
    destruct (scan_step_in_range i best Hwf) as [best' ->]; [lia|].
    simpl. apply IH; [done | lia | lia].
  Qed.

Lemma scan_out_of_range n : ∀ i best,
    wf_side s → 0 ≤ i ≤ MAX_ORDERS_PER_SIDE → MAX_ORDERS_PER_SIDE < i + Z.of_nat n →
    scan better s n i best = None.
  Proof.
    induction n as [|n IH]; intros i best Hwf Hi Hn; cbn [scan]; [lia|].
    destruct (decide (i = MAX_ORDERS_PER_SIDE)) as [->|].
    - unfold scan_step. rewrite (load_out_of_range (active s)); [done|].
      rewrite (wf_active _ Hwf). lia.
    - destruct (scan_step better s i best) as [best'|]; [|done].
      simpl. apply IH; [done | lia | lia].
  Qed.

  (** The whole loop. *)
Lemma scan_side_spec cnt sentinel bi bp :
    scan_side better s cnt sentinel = Some (bi, bp) →
    ((bi = -1 ∧ bp = sentinel) ∨
     (0 ≤ bi < cnt ∧ eligible s bi bp ∧ better bp sentinel = true)) ∧
    (∀ j p, 0 ≤ j < cnt → eligible s j p → better p bp = false) ∧
    (∀ j p, 0 ≤ j < bi → eligible s j p → PrimFloat.eqb p bp = false).
  Proof.
    unfold scan_side. intros H.
    destruct (scan_spec _ _ _ _ H) as (HA & HB & HC); [simpl; lia|].
    simpl in *. split; [|split].
    - destruct HA as [[= -> ->] | (? & ? & ?)]; [by left|].
      right. split; [lia | done].
    - intros j p Hj. apply (HB j). lia.
    - done.
  Qed.

Lemma scan_side_in_range cnt sentinel :
    wf_side s → cnt ≤ MAX_ORDERS_PER_SIDE → is_Some (scan_side better s cnt sentinel).
  Proof. intros Hwf Hc. apply scan_in_range; [done | lia | zlia]. Qed.

Lemma scan_side_out_of_range cnt sentinel :
    wf_side s → MAX_ORDERS_PER_SIDE < cnt → scan_side better s cnt sentinel = None.
  Proof.
    intros Hwf Hc. apply scan_out_of_range; [done | zlia | zlia].
  Qed.
End Scan.

(** * What [matchOrder] does *)

Lemma fetch_sub_deactivate s i tq s1 s2 :
  fetch_sub s i tq = Some s1 → deactivate_if_zero s1 i = Some s2 →
  ∃ q, filled s i tq q s2.
Proof.
  unfold fetch_sub, deactivate_if_zero, filled.
  destruct (load (quantity s) i) as [q|] eqn:Hq; simpl; [|done].
  destruct (store (quantity s) i (wrap_int (q - tq))) as [qs|] eqn:Hst; simpl; [|done].
  intros [= <-]. cbn [quantity set_quantity active].
  rewrite (load_store_eq _ _ _ _ Hst). simpl.
  intros H. exists q. split; [done|]. case_decide as Hz.
  - destruct (store (active s) i false) as [a|] eqn:Ha; simpl in H; [|done].
    by injection H as <-.
  - by injection H as <-.
Qed.

Lemma execute_spec ticker ob bi si sp ob' tr :
  execute ticker ob bi si sp = Some (ob', tr) →
  ∃ qb qs bid sid,
    filled (buy ob) bi (Z.min qb qs) qb (buy ob') ∧
    filled (sell ob) si (Z.min qb qs) qs (sell ob') ∧
    load (orderId (buy ob)) bi = Some bid ∧
    load (orderId (sell ob)) si = Some sid ∧
    tr = mkTrade ticker (Z.min qb qs) sp bid sid.
Proof.
  unfold execute.
  destruct (load (quantity (buy ob)) bi) as [qb|] eqn:Hqb; simpl; [|done].
  destruct (load (quantity (sell ob)) si) as [qs|] eqn:Hqs; simpl; [|done].
  destruct (fetch_sub (buy ob) bi (Z.min qb qs)) as [b1|] eqn:Hb1; simpl; [|done].
  destruct (fetch_sub (sell ob) si (Z.min qb qs)) as [s1|] eqn:Hs1; simpl; [|done].
  destruct (deactivate_if_zero b1 bi) as [b2|] eqn:Hb2; simpl; [|done].
  destruct (deactivate_if_zero s1 si) as [s2|] eqn:Hs2; simpl; [|done].
  destruct (load (orderId b2) bi) as [bid|] eqn:Hbid; simpl; [|done].
  destruct (load (orderId s2) si) as [sid|] eqn:Hsid; simpl; [|done].
  intros [= <- <-]. cbn [buy sell].
  destruct (fetch_sub_deactivate _ _ _ _ _ Hb1 Hb2) as (qb' & Hfb).
  destruct (fetch_sub_deactivate _ _ _ _ _ Hs1 Hs2) as (qs' & Hfs).
  assert (qb' = qb) as -> by (destruct Hfb as (? & _); congruence).
  assert (qs' = qs) as -> by (destruct Hfs as (? & _); congruence).
  exists qb, qs, bid, sid.
  pose proof Hfb as (_ & _ & _ & Hib & _). pose proof Hfs as (_ & _ & _ & His & _).
  rewrite <- Hib, <- His. done.
Qed.

(** [matchOrder] either trades on the selected pair or changes nothing. *)
Lemma matchOrder_spec ticker m m' o :
  matchOrder ticker m = Some (m', o) →
  ∃ ob b s,
    load (orderBooks m) ticker = Some ob ∧ select ob = Some (b, s) ∧
    ((crossing b s ∧ ∃ ob' tr,
        execute ticker ob b.1 s.1 s.2 = Some (ob', tr) ∧
        store (orderBooks m) ticker ob' = Some (orderBooks m') ∧
        globalOrderId m' = globalOrderId m ∧ o = Some tr)
     ∨ (¬ crossing b s ∧ m' = m ∧ o = None)).
Proof.
  unfold matchOrder.
  destruct (load (orderBooks m) ticker) as [ob|] eqn:Hob; simpl; [|done].
  destruct (select ob) as [[b s]|] eqn:Hsel; simpl; [|done].
  case_decide as Hc.
  - destruct (execute ticker ob b.1 s.1 s.2) as [[ob' tr]|] eqn:Hex; simpl; [|done].
    destruct (store (orderBooks m) ticker ob') as [obs|] eqn:Hst; simpl; [|done].
    intros [= <- <-]. exists ob, b, s. split; [done|]. split; [done|].
    left. split; [done|]. by exists ob', tr.
  - intros [= <- <-]. exists ob, b, s. split; [done|]. split; [done|].
    right. done.
Qed.

(** The two sides of a selection. *)
Lemma select_spec ob b s :
  select ob = Some (b, s) →
  scan_side buy_better (buy ob) (count (buy ob)) (-1)%float = Some b ∧
  scan_side sell_better (sell ob) (count (sell ob)) 1e9%float = Some s.
Proof.
  unfold select.
  destruct (scan_side buy_better _ _ _) as [b'|]; simpl; [|done].
  destruct (scan_side sell_better _ _ _) as [s'|]; simpl; [|done].
  by intros [= <- <-].
Qed.

Lemma filled_quantity s i tq q s' j :
  filled s i tq q s' →
  load (quantity s') j = if decide (i = j) then Some (wrap_int (q - tq)) else load (quantity s) j.
Proof. intros (_ & Hst & _). by apply load_store. Qed.

Lemma filled_active s i tq q s' j :
  filled s i tq q s' →
  load (active s') j =
    if decide (i = j ∧ wrap_int (q - tq) = 0) then Some false else load (active s) j.
Proof.
  intros (_ & _ & Ha & _). destruct (decide (wrap_int (q - tq) = 0)) as [Hz|Hz].
  - rewrite (load_store _ _ j _ _ Ha).
    destruct (decide (i = j)); [by rewrite decide_True | rewrite decide_False; tauto].
  - rewrite Ha. rewrite decide_False; tauto.
Qed.

Lemma filled_wf s i tq q s' : wf_side s → filled s i tq q s' → wf_side s'.
Proof.
  intros [] (Hq & Hst & Ha & Hid & Hp & Hc). split.
  - by rewrite Hid.
  - by rewrite (store_length _ _ _ _ Hst).
  - by rewrite Hp.
  - case_decide; [by rewrite (store_length _ _ _ _ Ha) | by rewrite Ha].
  - by rewrite Hid.
  - eapply Forall_store; [done | apply wrap_int_is_int | done].
  - by rewrite Hc.
Qed.

(** On a well-formed book, a trade on slots inside the arrays is defined. *)
Lemma fetch_sub_in_range s i d :
  wf_side s → 0 ≤ i < MAX_ORDERS_PER_SIDE → is_Some (fetch_sub s i d).
Proof.
  intros Hwf Hi. unfold fetch_sub.
  destruct (load_in_range (quantity s) i) as [q ->]; [by rewrite (wf_quantity _ Hwf)|].
  simpl. rewrite store_in_range by (by rewrite (wf_quantity _ Hwf)). done.
Qed.

Lemma fetch_sub_wf s i d s' : wf_side s → fetch_sub s i d = Some s' → wf_side s'.
Proof.
  intros [] H. unfold fetch_sub in H.
  destruct (load (quantity s) i) as [q|]; simpl in H; [|done].
  destruct (store (quantity s) i (wrap_int (q - d))) as [qs|] eqn:Hst; simpl in H; [|done].
  injection H as <-. split; cbn [orderId quantity price active count set_quantity]; try done.
  - by rewrite (store_length _ _ _ _ Hst).
  - eapply Forall_store; [done | apply wrap_int_is_int | done].
Qed.

Lemma deactivate_if_zero_in_range s i :
  wf_side s → 0 ≤ i < MAX_ORDERS_PER_SIDE → is_Some (deactivate_if_zero s i).
Proof.
  intros Hwf Hi. unfold deactivate_if_zero.
  destruct (load_in_range (quantity s) i) as [q ->]; [by rewrite (wf_quantity _ Hwf)|].
  simpl. case_decide; [|done].
  rewrite store_in_range by (by rewrite (wf_active _ Hwf)). done.
Qed.

Lemma deactivate_if_zero_wf s i s' :
  wf_side s → deactivate_if_zero s i = Some s' → wf_side s'.
Proof.
  intros [] H. unfold deactivate_if_zero in H.
  destruct (load (quantity s) i) as [q|]; simpl in H; [|done].
  case_decide; [|by injection H as <-].
  destruct (store (active s) i false) as [a|] eqn:Hst; simpl in H; [|done].
  injection H as <-. split; cbn [orderId quantity price active count set_active]; try done.
  by rewrite (store_length _ _ _ _ Hst).
Qed.

Lemma execute_in_range ticker ob bi si sp :
  wf_book ob → 0 ≤ bi < MAX_ORDERS_PER_SIDE → 0 ≤ si < MAX_ORDERS_PER_SIDE →
  is_Some (execute ticker ob bi si sp).
Proof.
  intros [Hb Hs] Hbi Hsi. unfold execute.
  destruct (load_in_range (quantity (buy ob)) bi) as [qb ->];
    [by rewrite (wf_quantity _ Hb)|].
  destruct (load_in_range (quantity (sell ob)) si) as [qs ->];
    [by rewrite (wf_quantity _ Hs)|].
  simpl.
  destruct (fetch_sub_in_range (buy ob) bi (Z.min qb qs) Hb Hbi) as [b1 Hb1].
  destruct (fetch_sub_in_range (sell ob) si (Z.min qb qs) Hs Hsi) as [s1 Hs1].
  rewrite Hb1, Hs1. simpl.
  pose proof (fetch_sub_wf _ _ _ _ Hb Hb1) as Hwb1.
  pose proof (fetch_sub_wf _ _ _ _ Hs Hs1) as Hws1.
  destruct (deactivate_if_zero_in_range b1 bi Hwb1 Hbi) as [b2 Hb2].
  destruct (deactivate_if_zero_in_range s1 si Hws1 Hsi) as [s2 Hs2].
  rewrite Hb2, Hs2. simpl.
  pose proof (deactivate_if_zero_wf _ _ _ Hwb1 Hb2) as Hwb2.
  pose proof (deactivate_if_zero_wf _ _ _ Hws1 Hs2) as Hws2.
  destruct (load_in_range (orderId b2) bi) as [bid ->];
    [by rewrite (wf_orderId _ Hwb2)|].
  destruct (load_in_range (orderId s2) si) as [sid ->];
    [by rewrite (wf_orderId _ Hws2)|].
  done.
Qed.

Lemma select_in_range ob :
  wf_book ob → count (buy ob) ≤ MAX_ORDERS_PER_SIDE → count (sell ob) ≤ MAX_ORDERS_PER_SIDE →
  is_Some (select ob).
Proof.
  intros [Hb Hs] Hcb Hcs. unfold select.
  destruct (scan_side_in_range buy_better (buy ob) (count (buy ob)) (-1)%float Hb Hcb)
    as [b ->].
  destruct (scan_side_in_range sell_better (sell ob) (count (sell ob)) 1e9%float Hs Hcs)
    as [s ->].
  done.
Qed.

(** A scan of more slots than the arrays hold reads outside them. *)
Lemma select_out_of_range ob :
  wf_book ob →
  MAX_ORDERS_PER_SIDE < count (buy ob) ∨ MAX_ORDERS_PER_SIDE < count (sell ob) →
  select ob = None.
Proof.
  intros [Hb Hs] [Hc|Hc]; unfold select.
  - by rewrite (scan_side_out_of_range buy_better _ _ _ Hb Hc).
  - rewrite (scan_side_out_of_range sell_better _ _ _ Hs Hc).
    by destruct (scan_side buy_better _ _ _).
Qed.

(** The selected slots are inside their arrays. *)
Lemma select_indices ob b s :
  select ob = Some (b, s) →
  (b.1 ≠ -1 → 0 ≤ b.1 < count (buy ob) ∧ eligible (buy ob) b.1 b.2) ∧
  (s.1 ≠ -1 → 0 ≤ s.1 < count (sell ob) ∧ eligible (sell ob) s.1 s.2).
Proof.
  intros [Hb Hs]%select_spec. destruct b as [bi bp], s as [si sp].
  destruct (scan_side_spec buy_better _ _ _ _ _ Hb) as ([[? ?] | (? & ? & _)] & _);
    destruct (scan_side_spec sell_better _ _ _ _ _ Hs) as ([[? ?] | (? & ? & _)] & _);
    simpl; split; intros; done.
Qed.

Lemma matchOrder_in_range ticker m ob :
  wf_market m → load (orderBooks m) ticker = Some ob →
  count (buy ob) ≤ MAX_ORDERS_PER_SIDE → count (sell ob) ≤ MAX_ORDERS_PER_SIDE →
  is_Some (matchOrder ticker m).
Proof.
  intros Hm Hob Hcb Hcs. pose proof (wf_market_book _ _ _ Hm Hob) as Hwf.
  unfold matchOrder. rewrite Hob. simpl.
  destruct (select_in_range ob Hwf Hcb Hcs) as [[b s] Hsel]. rewrite Hsel. simpl.
  case_decide as Hc; [|done].
  destruct Hc as (Hb & Hs & _).
  apply select_indices in Hsel as [Hbi Hsi].
  destruct (Hbi Hb) as [? _]. destruct (Hsi Hs) as [? _].
  destruct (execute_in_range ticker ob b.1 s.1 s.2 Hwf) as [[ob' tr] ->]; [lia | lia |].
  simpl. rewrite store_in_range; [done|].
  by eapply load_Some_range.
Qed.


(** * What [addOrder] does *)

Lemma do_stores_publish s idx oid qty px s' :
  do_stores s (publish idx oid qty px) = Some s' →
  store (orderId s) idx oid = Some (orderId s') ∧
  store (quantity s) idx qty = Some (quantity s') ∧
  store (price s) idx px = Some (price s') ∧
  store (active s) idx true = Some (active s') ∧
  count s' = count s.
Proof.
  unfold publish. cbn [do_stores do_store].
  destruct (store (orderId s) idx oid) as [a1|]; simpl; [|done].
  destruct (store (quantity s) idx qty) as [a2|]; simpl; [|done].
  destruct (store (price s) idx px) as [a3|]; simpl; [|done].
  destruct (store (active s) idx true) as [a4|]; simpl; [|done].
  by intros [= <-].
Qed.

Lemma do_stores_publish_in_range s idx oid qty px :
  wf_side s → 0 ≤ idx < MAX_ORDERS_PER_SIDE →
  is_Some (do_stores s (publish idx oid qty px)).
Proof.
  intros Hwf Hi. unfold publish. cbn [do_stores do_store].
  rewrite (store_in_range (orderId s)) by (by rewrite (wf_orderId _ Hwf)). simpl.
  rewrite (store_in_range (quantity s)) by (by rewrite (wf_quantity _ Hwf)). simpl.
  rewrite (store_in_range (price s)) by (by rewrite (wf_price _ Hwf)). simpl.
  rewrite (store_in_range (active s)) by (by rewrite (wf_active _ Hwf)). done.
Qed.

Lemma add_to_side_spec s oid qty px s' r :
  add_to_side s oid qty px = Some (s', r) →
  (count s < MAX_ORDERS_PER_SIDE ∧ r = Stored (count s) ∧
   published s (count s) oid qty px s')
  ∨ (MAX_ORDERS_PER_SIDE ≤ count s ∧ r = BookFull ∧
     s' = set_count s (wrap_int (count s + 1))).
Proof.
  unfold add_to_side. case_decide as Hc.
  - destruct (do_stores _ _) as [s2|] eqn:Hst; simpl; [|done].
    intros [= <- <-]. left. split; [done|]. split; [done|].
    apply do_stores_publish in Hst. apply Hst.
  - intros [= <- <-]. right. split; [lia | done].
Qed.

Lemma set_count_wf s c : wf_side s → wf_side (set_count s (wrap_int c)).
Proof. intros []. split; try done. apply wrap_int_is_int. Qed.

Lemma add_to_side_in_range s oid qty px :
  wf_side s → 0 ≤ count s → is_Some (add_to_side s oid qty px).
Proof.
  intros Hwf Hc. unfold add_to_side. case_decide; [|done].
  destruct (do_stores_publish_in_range (set_count s (wrap_int (count s + 1)))
              (count s) oid qty px) as [s2 ->]; [by apply set_count_wf | lia | done].
Qed.

(** Below zero the stores go outside the arrays. *)
Lemma add_to_side_out_of_range s oid qty px :
  count s < 0 → add_to_side s oid qty px = None.
Proof.
  intros Hc. unfold add_to_side. rewrite decide_True by zlia.
  unfold publish. cbn [do_stores do_store].
  rewrite (store_out_of_range (orderId _)); [done | lia].
Qed.

Lemma published_wf s idx oid qty px s' :
  wf_side s → is_int oid → is_int qty → published s idx oid qty px s' → wf_side s'.
Proof.
  intros Hwf Hoid Hqty (H1 & H2 & H3 & H4 & H5). split.
  - rewrite (store_length _ _ _ _ H1). apply Hwf.
  - rewrite (store_length _ _ _ _ H2). apply Hwf.
  - rewrite (store_length _ _ _ _ H3). apply Hwf.
  - rewrite (store_length _ _ _ _ H4). apply Hwf.
  - exact (Forall_store _ _ _ _ _ (wf_orderId_int _ Hwf) Hoid H1).
  - exact (Forall_store _ _ _ _ _ (wf_quantity_int _ Hwf) Hqty H2).
  - rewrite H5. apply wrap_int_is_int.
Qed.

Lemma add_to_side_wf s oid qty px s' r :
  wf_side s → is_int oid → is_int qty →
  add_to_side s oid qty px = Some (s', r) → wf_side s'.
Proof.
  intros Hwf Hoid Hqty [(_ & _ & Hp) | (_ & _ & ->)]%add_to_side_spec.
  - exact (published_wf _ _ _ _ _ _ Hwf Hoid Hqty Hp).
  - by apply set_count_wf.
Qed.

Lemma addOrder_spec type ticker qty px m m' r :
  addOrder type ticker qty px m = Some (m', r) →
  ∃ ob s',
    load (orderBooks m) ticker = Some ob ∧
    add_to_side (side_of type ob) (globalOrderId m) qty px = Some (s', r) ∧
    store (orderBooks m) ticker (set_side type ob s') = Some (orderBooks m') ∧
    globalOrderId m' = wrap_int (globalOrderId m + 1).
Proof.
  unfold addOrder.
  destruct (load (orderBooks m) ticker) as [ob|] eqn:Hob; simpl; [|done].
  destruct type; cbn [side_of set_side];
    (destruct (add_to_side _ _ _ _) as [[s r']|] eqn:Hadd; simpl; [|done]);
    (destruct (store (orderBooks m) ticker _) as [obs|] eqn:Hst; simpl; [|done]);
    intros [= <- <-]; by exists ob, s.
Qed.

Lemma addOrder_in_range type ticker qty px m ob :
  wf_market m → load (orderBooks m) ticker = Some ob →
  0 ≤ count (side_of type ob) → is_Some (addOrder type ticker qty px m).
Proof.
  intros Hm Hob Hc. destruct (wf_market_book _ _ _ Hm Hob) as [Hb Hs].
  pose proof (load_Some_range _ _ _ Hob) as Hr.
  unfold addOrder. rewrite Hob. simpl.
  destruct type; cbn [side_of] in Hc.
  - destruct (add_to_side_in_range (buy ob) (globalOrderId m) qty px Hb Hc) as [[s r] ->].
    simpl. by rewrite store_in_range.
  - destruct (add_to_side_in_range (sell ob) (globalOrderId m) qty px Hs Hc) as [[s r] ->].
    simpl. by rewrite store_in_range.
Qed.

(** * Well-formedness is kept *)

Lemma wf_market_store m ticker ob obs g :
  wf_market m → wf_book ob → is_int g →
  store (orderBooks m) ticker ob = Some obs → wf_market (mkMarket obs g).
Proof.
  intros [Hl Hb _] Hob Hg Hst. split; cbn [orderBooks globalOrderId].
  - by rewrite (store_length _ _ _ _ Hst).
  - by eapply Forall_store.
  - done.
Qed.

Lemma addOrder_wf type ticker qty px m m' r :
  wf_market m → is_int qty → addOrder type ticker qty px m = Some (m', r) → wf_market m'.
Proof.
  intros Hm Hq (ob & s' & Hob & Hadd & Hst & Hg)%addOrder_spec.
  destruct (wf_market_book _ _ _ Hm Hob) as [Hb Hs].
  destruct m' as [obs g]. cbn [orderBooks globalOrderId] in *. subst g.
  eapply wf_market_store; [done | | apply wrap_int_is_int | done].
  pose proof (wf_globalOrderId _ Hm) as Hg.
  destruct type; cbn [side_of set_side] in *; split; cbn [buy sell];
    eauto using add_to_side_wf.
Qed.

Lemma execute_wf ticker ob bi si sp ob' tr :
  wf_book ob → execute ticker ob bi si sp = Some (ob', tr) → wf_book ob'.
Proof.
  intros [Hb Hs] (qb & qs & bid & sid & Hfb & Hfs & _)%execute_spec.
  split; eauto using filled_wf.
Qed.

Lemma matchOrder_wf ticker m m' o :
  wf_market m → matchOrder ticker m = Some (m', o) → wf_market m'.
Proof.
  intros Hm (ob & b & s & Hob & _ & [(_ & ob' & tr & Hex & Hst & Hg & _) | (_ & -> & _)])
    %matchOrder_spec; [|done].
  destruct m' as [obs g]. cbn [orderBooks globalOrderId] in *. subst g.
  eapply wf_market_store; [done | | apply Hm | done].
  eapply execute_wf; [|done]. by eapply wf_market_book.
Qed.

Lemma step_wf o m m' r :
  wf_market m → int_args o → step o m = Some (m', r) → wf_market m'.
Proof.
  intros Hm Ho. destruct o as [type ticker qty px | ticker]; cbn [step].
  - destruct (addOrder type ticker qty px m) as [[m1 r1]|] eqn:Hadd; simpl; [|done].
    intros [= <- <-]. eapply addOrder_wf; [done | apply Ho | done].
  - destruct (matchOrder ticker m) as [[m1 r1]|] eqn:Hm1; simpl; [|done].
    intros [= <- <-]. by eapply matchOrder_wf.
Qed.

Lemma run_wf ops : ∀ m m' log,
  wf_market m → Forall int_args ops → run ops m = Some (m', log) → wf_market m'.
Proof.
  induction ops as [|o ops IH]; intros m m' log Hm Hops; cbn [run].
  - by intros [= <- <-].
  - destruct (step o m) as [[m1 r]|] eqn:Hstep; simpl; [|done].
    destruct (run ops m1) as [[m2 log']|] eqn:Hrun; simpl; [|done].
    intros [= <- <-]. apply Forall_cons in Hops as [Ho Hops].
    eapply IH; [|done..]. by eapply step_wf.
Qed.

Lemma wf_after ops : Forall int_args ops → wf_market (after ops).
Proof.
  intros Hops. unfold after.
  destruct (run ops initial) as [[m log]|] eqn:Hrun; simpl.
  - by eapply run_wf; [apply wf_initial | |].
  - apply wf_initial.
Qed.

(** * The trade of [matchOrder] *)

Lemma ltb_not_eqb x y : PrimFloat.ltb x y = true → PrimFloat.eqb x y = false.
Proof.
  intros H. destruct (PrimFloat.eqb x y) eqn:He; [|done].
  by rewrite (FloatOrder.eqb_ltb_l _ _ y He), FloatOrder.ltb_irrefl in H.
Qed.

(** A trade is on the pair that the scans select; both orders are active
    orders of positive quantity. *)
Lemma matchOrder_trade ticker m m' tr :
  matchOrder ticker m = Some (m', Some tr) →
  ∃ ob ob' bi bp si sp,
    load (orderBooks m) ticker = Some ob ∧
    load (orderBooks m') ticker = Some ob' ∧
    select ob = Some ((bi, bp), (si, sp)) ∧
    crossing (bi, bp) (si, sp) ∧
    (0 ≤ bi < count (buy ob) ∧ eligible (buy ob) bi bp) ∧
    (0 ≤ si < count (sell ob) ∧ eligible (sell ob) si sp) ∧
    execute ticker ob bi si sp = Some (ob', tr) ∧
    store (orderBooks m) ticker ob' = Some (orderBooks m') ∧
    globalOrderId m' = globalOrderId m.
Proof.
  intros (ob & [bi bp] & [si sp] & Hob & Hsel &
          [(Hc & ob' & tr' & Hex & Hst & Hg & [= <-]) | (_ & _ & [=])])%matchOrder_spec.
  exists ob, ob', bi, bp, si, sp. cbn [fst snd] in *.
  destruct (select_indices _ _ _ Hsel) as [Hb Hs]. destruct Hc as (Hbi & Hsi & Hle).
  repeat split; try done; try (by apply Hb); try (by apply Hs).
  by eapply load_store_eq.
Qed.

(** C1. Whenever [matchOrder] executes a trade, the price of the trade is
    the price stored in the selected sell slot, which is the lowest price
    among the active sell orders of positive quantity; when the selected
    bid is strictly higher, the price of the trade is not the bid. *)
Theorem matchOrder_price_is_best_ask ticker m m' tr :
  matchOrder ticker m = Some (m', Some tr) →
  ∃ ob bi bp si sp,
    load (orderBooks m) ticker = Some ob ∧
    select ob = Some ((bi, bp), (si, sp)) ∧
    eligible (buy ob) bi bp ∧
    eligible (sell ob) si sp ∧
    (∀ j p, 0 ≤ j < count (sell ob) → eligible (sell ob) j p → PrimFloat.ltb p sp = false) ∧
    load (orderId (buy ob)) bi = Some (trade_buyId tr) ∧
    load (orderId (sell ob)) si = Some (trade_sellId tr) ∧
    load (price (sell ob)) si = Some (trade_price tr) ∧
    (PrimFloat.ltb sp bp = true → PrimFloat.eqb (trade_price tr) bp = false).
Proof.
  intros (ob & ob' & bi & bp & si & sp & Hob & _ & Hsel & _ & [_ Hb] & [_ Hs] & Hex & _)
    %matchOrder_trade.
  apply execute_spec in Hex as (qb & qs & bid & sid & _ & _ & Hbid & Hsid & ->).
  exists ob, bi, bp, si, sp. cbn [trade_buyId trade_sellId trade_price].
  pose proof (select_spec _ _ _ Hsel) as [_ Hss].
  destruct (scan_side_spec sell_better _ _ _ _ _ Hss) as (_ & Hmin & _).
  repeat split; try done; try apply Hb; try apply Hs.
  apply ltb_not_eqb.
Qed.

(** The bid of 30 at 100 and the ask of 50 at 90 trade at 90. *)
Lemma matchOrder_price_is_best_ask_witness :
  ∃ m' tr,
    matchOrder 0 (after crossing_orders) = Some (m', Some tr) ∧
    trade_price tr = 90%float ∧
    ∃ ob bi bp si sp,
      load (orderBooks (after crossing_orders)) 0 = Some ob ∧
      select ob = Some ((bi, bp), (si, sp)) ∧
      eligible (buy ob) bi bp ∧
      eligible (sell ob) si sp ∧
      (∀ j p, 0 ≤ j < count (sell ob) → eligible (sell ob) j p →
              PrimFloat.ltb p sp = false) ∧
      load (orderId (buy ob)) bi = Some (trade_buyId tr) ∧
      load (orderId (sell ob)) si = Some (trade_sellId tr) ∧
      load (price (sell ob)) si = Some (trade_price tr) ∧
      (PrimFloat.ltb sp bp = true → PrimFloat.eqb (trade_price tr) bp = false).
Proof.
  assert (trade_price <$> (matchOrder 0 (after crossing_orders) ≫= snd) = Some 90%float)
    as Hrun by evaluated.
  destruct (matchOrder 0 (after crossing_orders)) as [[m' [tr|]]|] eqn:Hm;
    [|discriminate Hrun..].
  exists m', tr. split; [reflexivity|]. split; [by injection Hrun|].
  exact (matchOrder_price_is_best_ask 0 _ m' tr Hm).
Defined.

(** A fill of [tq] on an active slot of quantity [q], on a well-formed
    side. *)
Lemma filled_eligible s i tq q s' p :
  wf_side s → eligible s i p → filled s i tq q s' → 0 < tq ≤ q →
  load (quantity s') i = Some (q - tq) ∧
  load (active s') i = Some (bool_decide (0 < q - tq)).
Proof.
  intros Hwf (Ha & _ & _) Hf Htq.
  assert (is_int q) as Hq.
  { destruct Hf as (Hl & _). exact (Forall_load _ _ _ _ (wf_quantity_int _ Hwf) Hl). }
  assert (wrap_int (q - tq) = q - tq) as Hw by (apply wrap_int_id; zlia).
  rewrite (filled_quantity _ _ _ _ _ i Hf), (filled_active _ _ _ _ _ i Hf), Hw, Ha.
  rewrite decide_True by done. split; [done|].
  destruct (decide (q - tq = 0)) as [Hz|Hz].
  - rewrite decide_True by done. rewrite bool_decide_eq_false_2; [done | lia].
  - rewrite decide_False by tauto. rewrite bool_decide_eq_true_2; [done | lia].
Qed.

(** C3. Whenever [matchOrder] executes a trade, the traded quantity is the
    minimum of the quantities of the two selected orders, both quantities
    go down by exactly that amount, and each of the two orders stays active
    exactly when its quantity is still positive. *)
Theorem matchOrder_fills_minimum ticker m m' tr :
  wf_market m → matchOrder ticker m = Some (m', Some tr) →
  ∃ ob ob' bi bp si sp qb qs,
    load (orderBooks m) ticker = Some ob ∧
    load (orderBooks m') ticker = Some ob' ∧
    select ob = Some ((bi, bp), (si, sp)) ∧
    load (quantity (buy ob)) bi = Some qb ∧
    load (quantity (sell ob)) si = Some qs ∧
    trade_quantity tr = Z.min qb qs ∧ 0 < trade_quantity tr ∧
    load (quantity (buy ob')) bi = Some (qb - trade_quantity tr) ∧
    load (quantity (sell ob')) si = Some (qs - trade_quantity tr) ∧
    load (active (buy ob')) bi = Some (bool_decide (0 < qb - trade_quantity tr)) ∧
    load (active (sell ob')) si = Some (bool_decide (0 < qs - trade_quantity tr)).
Proof.
  intros Hm (ob & ob' & bi & bp & si & sp & Hob & Hob' & Hsel & _ & [_ Hb] & [_ Hs] & Hex & _)
    %matchOrder_trade.
  destruct (wf_market_book _ _ _ Hm Hob) as [Hwb Hws].
  apply execute_spec in Hex as (qb & qs & bid & sid & Hfb & Hfs & _ & _ & ->).
  cbn [trade_quantity].
  assert (0 < qb) as Hqb.
  { destruct Hb as (_ & (q & Hq & ?) & _), Hfb as (Hq' & _). congruence. }
  assert (0 < qs) as Hqs.
  { destruct Hs as (_ & (q & Hq & ?) & _), Hfs as (Hq' & _). congruence. }
  destruct (filled_eligible _ _ _ _ _ _ Hwb Hb Hfb) as [Hq1 Ha1]; [lia|].
  destruct (filled_eligible _ _ _ _ _ _ Hws Hs Hfs) as [Hq2 Ha2]; [lia|].
  exists ob, ob', bi, bp, si, sp, qb, qs.
  repeat split; try done; try apply Hfb; try apply Hfs; lia.
Qed.

(** The bid of 30 at 100 is filled and deactivated, the ask of 50 at 90
    keeps 20. *)
Lemma matchOrder_fills_minimum_witness :
  wf_market (after crossing_orders) ∧
  ∃ m' tr,
    matchOrder 0 (after crossing_orders) = Some (m', Some tr) ∧
    trade_quantity tr = 30 ∧
    ∃ ob ob' bi bp si sp qb qs,
      load (orderBooks (after crossing_orders)) 0 = Some ob ∧
      load (orderBooks m') 0 = Some ob' ∧
      select ob = Some ((bi, bp), (si, sp)) ∧
      load (quantity (buy ob)) bi = Some qb ∧
      load (quantity (sell ob)) si = Some qs ∧
      trade_quantity tr = Z.min qb qs ∧ 0 < trade_quantity tr ∧
      load (quantity (buy ob')) bi = Some (qb - trade_quantity tr) ∧
      load (quantity (sell ob')) si = Some (qs - trade_quantity tr) ∧
      load (active (buy ob')) bi = Some (bool_decide (0 < qb - trade_quantity tr)) ∧
      load (active (sell ob')) si = Some (bool_decide (0 < qs - trade_quantity tr)).
Proof.
  assert (wf_market (after crossing_orders)) as Hwf.
  { apply wf_after. int_ops. }
  split; [exact Hwf|].
  assert (trade_quantity <$> (matchOrder 0 (after crossing_orders) ≫= snd) = Some 30)
    as Hrun by evaluated.
  destruct (matchOrder 0 (after crossing_orders)) as [[m' [tr|]]|] eqn:Hm;
    [|discriminate Hrun..].
  exists m', tr. split; [reflexivity|]. split; [by injection Hrun|].
  exact (matchOrder_fills_minimum 0 _ m' tr Hwf Hm).
Defined.

(** * The selection of [matchOrder] *)

Lemma scan_side_first_best better `{!Priority better} s sentinel bi bp :
  scan_side better s (count s) sentinel = Some (bi, bp) →
  (bi ≠ -1 ↔ ∃ j p, 0 ≤ j < count s ∧ eligible s j p ∧ better p sentinel = true) ∧
  (bi ≠ -1 →
     0 ≤ bi < count s ∧ eligible s bi bp ∧
     ∀ j p, 0 ≤ j < count s → eligible s j p →
       better p bp = false ∧ (PrimFloat.eqb p bp = true → bi ≤ j)).
Proof.
  intros H. destruct (scan_side_spec better _ _ _ _ _ H) as (HA & HB & HC).
  split.
  - split.
    + intros Hbi. destruct HA as [[? _] | (? & ? & ?)]; [done|]. by exists bi, bp.
    + intros (j & p & Hj & Hel & Hb) ->.
      destruct HA as [[_ ->] | (? & _)]; [|lia].
      by rewrite (HB j p Hj Hel) in Hb.
  - intros Hbi. destruct HA as [[? _] | (Hr & Hel & _)]; [done|].
    split; [done|]. split; [done|]. intros j p Hj Hp. split; [by apply (HB j)|].
    intros He. destruct (decide (bi ≤ j)) as [|Hlt]; [done|].
    rewrite (HC j p) in He; [done | lia | done].
Qed.

Lemma load_book m ticker :
  wf_market m → 0 ≤ ticker < NUM_TICKERS →
  load (orderBooks m) ticker = Some (book m ticker).
Proof.
  intros Hm Ht. unfold book.
  by destruct (wf_market_ticker m ticker Hm Ht) as [ob ->].
Qed.

(** X22. Inside the sentinels the scans select as the comment above
    [matchOrder] says.  On a well-formed book with both counters within
    the capacity the two scans are defined; on either side, when some
    active order of positive quantity is priced above -1.0 (buy side) or
    below 1e9 (sell side), the scan selects a slot, the selected order is
    an active order of positive quantity at the best price of the side (no
    such order is priced higher on the buy side, lower on the sell side),
    and every such order at an equal price is in a slot of the same or a
    higher index. *)
Theorem select_earliest_within_sentinels ob :
  wf_book ob →
  count (buy ob) ≤ MAX_ORDERS_PER_SIDE → count (sell ob) ≤ MAX_ORDERS_PER_SIDE →
  ∃ bi bp si sp,
    select ob = Some ((bi, bp), (si, sp)) ∧
    ((∃ j p, 0 ≤ j < count (buy ob) ∧ eligible (buy ob) j p ∧
             PrimFloat.ltb (-1) p = true) →
     0 ≤ bi < count (buy ob) ∧ eligible (buy ob) bi bp ∧
     ∀ j p, 0 ≤ j < count (buy ob) → eligible (buy ob) j p →
       PrimFloat.ltb bp p = false ∧ (PrimFloat.eqb p bp = true → bi ≤ j)) ∧
    ((∃ j p, 0 ≤ j < count (sell ob) ∧ eligible (sell ob) j p ∧
             PrimFloat.ltb p 1e9 = true) →
     0 ≤ si < count (sell ob) ∧ eligible (sell ob) si sp ∧
     ∀ j p, 0 ≤ j < count (sell ob) → eligible (sell ob) j p →
       PrimFloat.ltb p sp = false ∧ (PrimFloat.eqb p sp = true → si ≤ j)).
Proof.
  intros Hwf Hcb Hcs.
  destruct (select_in_range ob Hwf Hcb Hcs) as [[[bi bp] [si sp]] Hsel].
  exists bi, bp, si, sp. split; [done|].
  apply select_spec in Hsel as [Hb Hs].
  destruct (scan_side_first_best buy_better _ _ _ _ Hb) as [Hb1 Hb2].
  destruct (scan_side_first_best sell_better _ _ _ _ Hs) as [Hs1 Hs2].
  split.
  - intros Hex. apply Hb2, Hb1, Hex.
  - intros Hex. apply Hs2, Hs1, Hex.
Qed.

(** Slots 0 and 1 of either side of ticker 0 hold orders at one price; slot
    0 is selected on both sides. *)
Lemma select_earliest_within_sentinels_witness :
  let ob := book (after tied_orders) 0 in
  wf_book ob ∧
  count (buy ob) ≤ MAX_ORDERS_PER_SIDE ∧ count (sell ob) ≤ MAX_ORDERS_PER_SIDE ∧
  select ob = Some ((0, 100%float), (0, 90%float)) ∧
  eligible (buy ob) 0 100%float ∧ eligible (buy ob) 1 100%float ∧
  eligible (sell ob) 0 90%float ∧ eligible (sell ob) 1 90%float ∧
  ∃ bi bp si sp,
    select ob = Some ((bi, bp), (si, sp)) ∧
    ((∃ j p, 0 ≤ j < count (buy ob) ∧ eligible (buy ob) j p ∧
             PrimFloat.ltb (-1) p = true) →
     0 ≤ bi < count (buy ob) ∧ eligible (buy ob) bi bp ∧
     ∀ j p, 0 ≤ j < count (buy ob) → eligible (buy ob) j p →
       PrimFloat.ltb bp p = false ∧ (PrimFloat.eqb p bp = true → bi ≤ j)) ∧
    ((∃ j p, 0 ≤ j < count (sell ob) ∧ eligible (sell ob) j p ∧
             PrimFloat.ltb p 1e9 = true) →
     0 ≤ si < count (sell ob) ∧ eligible (sell ob) si sp ∧
     ∀ j p, 0 ≤ j < count (sell ob) → eligible (sell ob) j p →
       PrimFloat.ltb p sp = false ∧ (PrimFloat.eqb p sp = true → si ≤ j)).
Proof.
  intros ob.
  assert (wf_market (after tied_orders)) as Hm by (apply wf_after; int_ops).
  assert (load (orderBooks (after tied_orders)) 0 = Some ob) as Hob
    by (apply load_book; [exact Hm | zlia]).
  pose proof (wf_market_book (after tied_orders) 0 ob Hm Hob) as Hwf.
  assert (count (buy ob) = 2) as Hcb by evaluated.
  assert (count (sell ob) = 2) as Hcs by evaluated.
  assert (count (buy ob) ≤ MAX_ORDERS_PER_SIDE) as Hb by (rewrite Hcb; zlia).
  assert (count (sell ob) ≤ MAX_ORDERS_PER_SIDE) as Hs by (rewrite Hcs; zlia).
  split; [exact Hwf|]. split; [exact Hb|]. split; [exact Hs|].
  split; [evaluated|].
  split; [eligible_with 5|]. split; [eligible_with 7|].
  split; [eligible_with 5|]. split; [eligible_with 7|].
  exact (select_earliest_within_sentinels ob Hwf Hb Hs).
Defined.

(** C4, on two asks at 2e9 on ticker 0: both are active orders of positive
    quantity at the best (the only) ask price, within the counter of the
    side, and the sell scan selects neither of them, not the one at the
    lowest slot index either: it ends with index -1 and its start price
    1e9. *)
Lemma tie_above_sentinel_not_selected :
  let ob := book (after asks_above_sentinel) 0 in
  count (sell ob) = 2 ∧
  eligible (sell ob) 0 2e9%float ∧ eligible (sell ob) 1 2e9%float ∧
  select ob = Some ((-1, (-1)%float), (-1, 1e9%float)).
Proof.
  intros ob. split; [evaluated|].
  split; [eligible_with 1|].
  split; [eligible_with 1|].
  evaluated.
Qed.

(** When no considered ask is below 1e9, the sell scan selects nothing. *)
Lemma sell_scan_at_sentinel ob s :
  (∀ j p, 0 ≤ j < count (sell ob) → eligible (sell ob) j p →
          PrimFloat.leb 1e9 p = true) →
  scan_side sell_better (sell ob) (count (sell ob)) 1e9%float = Some s →
  s = (-1, 1e9%float).
Proof.
  intros Hall Hs. destruct s as [si sp].
  destruct (scan_side_spec sell_better _ _ _ _ _ Hs) as ([[-> ->] | (Hr & Hel & Hb)] & _);
    [done|].
  unfold sell_better in Hb. pose proof (Hall si sp Hr Hel) as Hle.
  by rewrite (FloatOrder.leb_not_ltb _ _ Hle) in Hb.
Qed.

(** C10. When every active sell order of positive quantity is priced at
    1e9 or above, the sell scan selects no slot and [matchOrder] leaves the
    market as it is and executes no trade, whatever the buy side holds;
    with both counters within the capacity [matchOrder] is defined and does
    exactly that. *)
Theorem asks_at_sentinel_never_match ticker m ob :
  wf_market m → load (orderBooks m) ticker = Some ob →
  (∀ j p, 0 ≤ j < count (sell ob) → eligible (sell ob) j p →
          PrimFloat.leb 1e9 p = true) →
  (∀ b s, select ob = Some (b, s) → s = (-1, 1e9%float)) ∧
  (∀ m' o, matchOrder ticker m = Some (m', o) → m' = m ∧ o = None) ∧
  (count (buy ob) ≤ MAX_ORDERS_PER_SIDE → count (sell ob) ≤ MAX_ORDERS_PER_SIDE →
   matchOrder ticker m = Some (m, None)).
Proof.
  intros Hm Hob Hall.
  assert (∀ b s, select ob = Some (b, s) → s = (-1, 1e9%float)) as Hsel.
  { intros b s [_ Hs]%select_spec. by apply (sell_scan_at_sentinel ob). }
  assert (∀ m' o, matchOrder ticker m = Some (m', o) → m' = m ∧ o = None) as Hno.
  { intros m' o (ob1 & b & s & Hob1 & Hs & [((_ & Hsi & _) & _) | (_ & -> & ->)])
      %matchOrder_spec; [|done].
    assert (ob1 = ob) as -> by congruence.
    by rewrite (Hsel b s Hs) in Hsi. }
  split; [done|]. split; [done|]. intros Hcb Hcs.
  destruct (matchOrder_in_range ticker m ob Hm Hob Hcb Hcs) as [[m' o] Hrun].
  by destruct (Hno m' o Hrun) as [-> ->].
Qed.

(** An ask at 1.5e9 is stored and active, and does not trade against a bid
    at 2e9. *)
Lemma asks_at_sentinel_never_match_witness :
  let m := after crossing_above_sentinel in
  let ob := book m 0 in
  eligible (buy ob) 0 2e9%float ∧ eligible (sell ob) 0 1.5e9%float ∧
  PrimFloat.leb 1.5e9 2e9 = true ∧
  (∀ b s, select ob = Some (b, s) → s = (-1, 1e9%float)) ∧
  (∀ m' o, matchOrder 0 m = Some (m', o) → m' = m ∧ o = None) ∧
  (count (buy ob) ≤ MAX_ORDERS_PER_SIDE → count (sell ob) ≤ MAX_ORDERS_PER_SIDE →
   matchOrder 0 m = Some (m, None)).
Proof.
  intros m ob.
  assert (wf_market m) as Hm.
  { apply wf_after. int_ops. }
  split; [eligible_with 1|].
  split; [eligible_with 1|].
  split; [evaluated|].
  apply (asks_at_sentinel_never_match 0 m ob Hm).
  - apply load_book; [exact Hm | zlia].
  - intros j p Hj (_ & _ & Hp).
    assert (count (sell ob) = 1) as Hc by evaluated.
    assert (j = 0) as -> by lia.
    assert (load (price (sell ob)) 0 = Some 1.5e9%float) as Hp' by evaluated.
    rewrite Hp' in Hp. injection Hp as <-. evaluated.
Defined.

Lemma scan_side_selected_beats better `{!Priority better} s cnt sentinel bi bp :
  scan_side better s cnt sentinel = Some (bi, bp) → bi ≠ -1 →
  better bp sentinel = true.
Proof.
  intros H Hbi.
  by destruct (scan_side_spec better _ _ _ _ _ H) as ([[? _] | (_ & _ & ?)] & _).
Qed.

(** X21. When [matchOrder] trades. On a well-formed market, with both counters
    of the book within the capacity, [matchOrder] is defined, and it
    executes a trade if and only if some active buy order of positive quantity
    priced above -1.0 and some active sell order of positive quantity
    priced below 1e9 cross (the buy price is greater than or equal to the
    sell price); when it executes no trade it leaves the market as it is. *)
Theorem matchOrder_trades_iff_crossing ticker m ob :
  wf_market m → load (orderBooks m) ticker = Some ob →
  count (buy ob) ≤ MAX_ORDERS_PER_SIDE → count (sell ob) ≤ MAX_ORDERS_PER_SIDE →
  ∃ m' o,
    matchOrder ticker m = Some (m', o) ∧
    (is_Some o ↔
       ∃ jb pb js ps,
         (0 ≤ jb < count (buy ob) ∧ eligible (buy ob) jb pb ∧
          PrimFloat.ltb (-1) pb = true) ∧
         (0 ≤ js < count (sell ob) ∧ eligible (sell ob) js ps ∧
          PrimFloat.ltb ps 1e9 = true) ∧
         PrimFloat.leb ps pb = true) ∧
    (o = None → m' = m).
Proof.
  intros Hm Hob Hcb Hcs.
  destruct (matchOrder_in_range ticker m ob Hm Hob Hcb Hcs) as [[m' o] Hrun].
  exists m', o. split; [done|].
  apply matchOrder_spec in Hrun as (ob1 & [bi bp] & [si sp] & Hob1 & Hsel & Hcase).
  assert (ob1 = ob) as -> by congruence.
  pose proof (select_spec _ _ _ Hsel) as [Hsb Hss].
  destruct (scan_side_first_best buy_better _ _ _ _ Hsb) as [Hb1 Hb2].
  destruct (scan_side_first_best sell_better _ _ _ _ Hss) as [Hs1 Hs2].
  destruct Hcase as [((Hbi & Hsi & Hle) & ob' & tr & _ & _ & _ & ->) | (Hnc & -> & ->)];
    cbn [fst snd] in *.
  - split; [|done]. split; [|by eauto]. intros _.
    destruct (Hb2 Hbi) as (? & ? & _). destruct (Hs2 Hsi) as (? & ? & _).
    exists bi, bp, si, sp.
    pose proof (scan_side_selected_beats buy_better _ _ _ _ _ Hsb Hbi).
    pose proof (scan_side_selected_beats sell_better _ _ _ _ _ Hss Hsi).
    done.
  - split; [|done]. split; [by intros [? [=]]|].
    intros (jb & pb & js & ps & (Hjb & Hpb & Hbb) & (Hjs & Hps & Hsb') & Hle).
    exfalso. apply Hnc.
    assert (bi ≠ -1) as Hbi by (apply Hb1; by exists jb, pb).
    assert (si ≠ -1) as Hsi by (apply Hs1; by exists js, ps).
    split; [done|]. split; [done|]. cbn [fst snd].
    destruct (Hb2 Hbi) as (_ & _ & Hbest). destruct (Hs2 Hsi) as (_ & _ & Hsbest).
    destruct (Hbest jb pb Hjb Hpb) as [Hb3 _]. destruct (Hsbest js ps Hjs Hps) as [Hs3 _].
    pose proof (scan_side_selected_beats buy_better _ _ _ _ _ Hsb Hbi) as Hb4.
    pose proof (scan_side_selected_beats sell_better _ _ _ _ _ Hss Hsi) as Hs4.
    unfold buy_better, sell_better in *.
    apply (FloatOrder.leb_trans sp ps); [|apply (FloatOrder.leb_trans ps pb); [done|]].
    + apply FloatOrder.not_ltb_leb; [| |done].
      * by apply FloatOrder.ltb_number in Hsb' as [? _].
      * by apply FloatOrder.ltb_number in Hs4 as [? _].
    + apply FloatOrder.not_ltb_leb; [| |done].
      * by apply FloatOrder.ltb_number in Hb4 as [_ ?].
      * by apply FloatOrder.ltb_number in Hbb as [_ ?].
Qed.

(** The bid of 30 at 100 and the ask of 50 at 90 cross and trade. *)
Lemma matchOrder_trades_iff_crossing_witness :
  let m := after crossing_orders in
  let ob := book m 0 in
  wf_market m ∧ load (orderBooks m) 0 = Some ob ∧
  count (buy ob) = 1 ∧ count (sell ob) = 1 ∧
  snd <$> matchOrder 0 m = Some (Some (mkTrade 0 30 90%float 0 1)) ∧
  ∃ m' o,
    matchOrder 0 m = Some (m', o) ∧
    (is_Some o ↔
       ∃ jb pb js ps,
         (0 ≤ jb < count (buy ob) ∧ eligible (buy ob) jb pb ∧
          PrimFloat.ltb (-1) pb = true) ∧
         (0 ≤ js < count (sell ob) ∧ eligible (sell ob) js ps ∧
          PrimFloat.ltb ps 1e9 = true) ∧
         PrimFloat.leb ps pb = true) ∧
    (o = None → m' = m).
Proof.
  intros m ob.
  assert (wf_market m) as Hm.
  { apply wf_after. int_ops. }
  assert (load (orderBooks m) 0 = Some ob) as Hob
    by (apply load_book; [exact Hm | zlia]).
  assert (count (buy ob) = 1) as Hcb by evaluated.
  assert (count (sell ob) = 1) as Hcs by evaluated.
  split; [exact Hm|]. split; [exact Hob|]. split; [exact Hcb|]. split; [exact Hcs|].
  split; [evaluated|].
  apply (matchOrder_trades_iff_crossing 0 m ob Hm Hob).
  - rewrite Hcb. zlia.
  - rewrite Hcs. zlia.
Defined.

(** C2, on a bid at 2e9 against an ask at 1.5e9: each side holds one
    active order of positive quantity, the highest bid is above the lowest
    ask, and [matchOrder] executes no trade. *)
Lemma crossing_above_sentinel_no_trade :
  let m := after crossing_above_sentinel in
  let ob := book m 0 in
  count (buy ob) = 1 ∧ count (sell ob) = 1 ∧
  eligible (buy ob) 0 2e9%float ∧ eligible (sell ob) 0 1.5e9%float ∧
  PrimFloat.leb 1.5e9 2e9 = true ∧
  snd <$> matchOrder 0 m = Some None.
Proof.
  intros m ob. split; [evaluated|]. split; [evaluated|].
  split; [eligible_with 1|].
  split; [eligible_with 1|].
  split; evaluated.
Qed.

(** * Submissions *)

(** [addOrder] touches the side it names, in the book of its ticker, and
    the order id counter. *)
Lemma addOrder_book type ticker qty px m m' r ob :
  addOrder type ticker qty px m = Some (m', r) →
  load (orderBooks m) ticker = Some ob →
  ∃ s',
    add_to_side (side_of type ob) (globalOrderId m) qty px = Some (s', r) ∧
    load (orderBooks m') ticker = Some (set_side type ob s') ∧
    (∀ t, t ≠ ticker → load (orderBooks m') t = load (orderBooks m) t) ∧
    globalOrderId m' = wrap_int (globalOrderId m + 1).
Proof.
  intros (ob1 & s' & Hob1 & Hadd & Hst & Hg)%addOrder_spec Hob.
  assert (ob1 = ob) as -> by congruence.
  exists s'. split; [done|]. split; [by eapply load_store_eq|].
  split; [|done]. intros t Ht. by eapply load_store_ne.
Qed.

Lemma side_of_set_side type ob s : side_of type (set_side type ob s) = s.
Proof. by destruct type. Qed.

Lemma published_slot s idx oid qty px s' :
  published s idx oid qty px s' → slot s' idx = Some (oid, qty, px, true).
Proof.
  intros (H1 & H2 & H3 & H4 & _). unfold slot.
  rewrite (load_store_eq _ _ _ _ H1), (load_store_eq _ _ _ _ H2),
    (load_store_eq _ _ _ _ H3), (load_store_eq _ _ _ _ H4). done.
Qed.

(** C8, as the code has it. [addOrder] checks neither the quantity nor the
    price: on a well-formed market, for a ticker inside [orderBooks] and a
    side that is not full, every submission, whatever its quantity and
    price, takes the next order id, increments the counter of the side and
    is stored in the next slot as an active order. *)
Theorem addOrder_stores_any_order type ticker qty px m ob :
  wf_market m → load (orderBooks m) ticker = Some ob →
  0 ≤ count (side_of type ob) < MAX_ORDERS_PER_SIDE →
  ∃ m' ob',
    addOrder type ticker qty px m = Some (m', Stored (count (side_of type ob))) ∧
    load (orderBooks m') ticker = Some ob' ∧
    slot (side_of type ob') (count (side_of type ob))
      = Some (globalOrderId m, qty, px, true) ∧
    count (side_of type ob') = count (side_of type ob) + 1 ∧
    globalOrderId m' = wrap_int (globalOrderId m + 1).
Proof.
  intros Hm Hob Hc.
  destruct (addOrder_in_range type ticker qty px m ob Hm Hob) as [[m' r] Hadd]; [lia|].
  destruct (addOrder_book _ _ _ _ _ _ _ _ Hadd Hob) as (s' & Hside & Hob' & _ & Hg).
  destruct (add_to_side_spec _ _ _ _ _ _ Hside) as [(_ & -> & Hp) | (? & _)]; [|lia].
  exists m', (set_side type ob s'). rewrite side_of_set_side.
  split; [done|]. split; [done|]. split; [by eapply published_slot|]. split; [|done].
  destruct Hp as (_ & _ & _ & _ & ->).
  destruct (wf_market_book _ _ _ Hm Hob) as [Hb Hs].
  apply wrap_int_id. zlia.
Qed.

(** An order of quantity 0 at price -5 is stored in slot 0 of the initial
    market. *)
Lemma addOrder_stores_any_order_witness :
  wf_market initial ∧ load (orderBooks initial) 0 = Some new_OrderBook ∧
  0 ≤ count (side_of BUY new_OrderBook) < MAX_ORDERS_PER_SIDE ∧
  ∃ m' ob',
    addOrder BUY 0 0 (-5)%float initial
      = Some (m', Stored (count (side_of BUY new_OrderBook))) ∧
    load (orderBooks m') 0 = Some ob' ∧
    slot (side_of BUY ob') (count (side_of BUY new_OrderBook))
      = Some (globalOrderId initial, 0, (-5)%float, true) ∧
    count (side_of BUY ob') = count (side_of BUY new_OrderBook) + 1 ∧
    globalOrderId m' = wrap_int (globalOrderId initial + 1).
Proof.
  assert (load (orderBooks initial) 0 = Some new_OrderBook) as Hob by evaluated.
  assert (0 ≤ count (side_of BUY new_OrderBook) < MAX_ORDERS_PER_SIDE) as Hc
    by (cbn [side_of new_OrderBook buy new_OrderSide count]; zlia).
  split; [exact wf_initial|]. split; [exact Hob|]. split; [exact Hc|].
  exact (addOrder_stores_any_order BUY 0 0 (-5)%float initial new_OrderBook
           wf_initial Hob Hc).
Defined.

(** C8, as the claim states it, fails on an order of quantity 0 at price
    -5: it is not rejected; it is stored in slot 0 as an active order, the
    counter of the side goes to 1 and order id 0 is used up. *)
Lemma invalid_order_is_stored :
  snd <$> run invalid_order initial
    = Some [(Add BUY 0 0 (-5)%float, Added (Stored 0))] ∧
  slot (buy (book (after invalid_order) 0)) 0 = Some (0, 0, (-5)%float, true) ∧
  count (buy (book (after invalid_order) 0)) = 1 ∧
  globalOrderId (after invalid_order) = 1.
Proof. evaluated. Qed.

(** A submission to a full side: the message, and the two counters. *)
Lemma addOrder_full type ticker qty px m ob :
  load (orderBooks m) ticker = Some ob →
  MAX_ORDERS_PER_SIDE ≤ count (side_of type ob) →
  addOrder type ticker qty px m =
    Some (mkMarket
            (<[Z.to_nat ticker :=
                 set_side type ob
                   (set_count (side_of type ob) (wrap_int (count (side_of type ob) + 1)))]>
               (orderBooks m))
            (wrap_int (globalOrderId m + 1)),
          BookFull).
Proof.
  intros Hob Hc. pose proof (load_Some_range _ _ _ Hob) as Hr.
  unfold addOrder. rewrite Hob. simpl.
  destruct type; cbn [side_of set_side] in *; unfold add_to_side;
    rewrite decide_False by lia; simpl; by rewrite store_in_range.
Qed.


Lemma int_args_bids n : Forall int_args (bids n).
Proof. apply Forall_replicate. cbn [int_args]. zlia. Qed.


(** ** The counter at [INT_MAX] *)

Lemma run_app ops1 : ∀ ops2 m,
  run (ops1 ++ ops2) m =
    '(m1, log1) ← run ops1 m; '(m2, log2) ← run ops2 m1; Some (m2, log1 ++ log2).
Proof.
  induction ops1 as [|o ops1 IH]; intros ops2 m; cbn [run app].
  - simpl. by destruct (run ops2 m) as [[m2 log2]|].
  - destruct (step o m) as [[m1 r]|]; simpl; [|done].
    rewrite IH. destruct (run ops1 m1) as [[m2 log1]|]; simpl; [|done].
    by destruct (run ops2 m2) as [[m3 log2]|].
Qed.

Lemma run_after ops :
  is_Some (run ops initial) → ∃ log, run ops initial = Some (after ops, log).
Proof.
  unfold after. intros [[m log] H]. rewrite H. by exists log.
Qed.

Lemma wf_with_count m n : wf_market m → is_int n → wf_market (with_count m n).
Proof.
  intros Hm Hn. unfold with_count.
  assert (wf_book (book m 0)) as [Hb Hs].
  { eapply wf_market_book; [done|]. apply load_book; [done | zlia]. }
  split; cbn [orderBooks globalOrderId]; [| |done].
  - rewrite length_insert. apply Hm.
  - apply Forall_insert; [apply Hm|]. split; cbn [buy sell]; [|done].
    destruct Hb. by split.
Qed.

Lemma with_count_book m n :
  wf_market m →
  load (orderBooks (with_count m n)) 0 =
    Some (mkOrderBook (set_count (buy (book m 0)) n) (sell (book m 0))).
Proof.
  intros Hm. unfold with_count. cbn [orderBooks].
  unfold load. rewrite decide_True by lia. apply list_lookup_insert_eq.
  destruct Hm as [Hl _ _]. change (Z.to_nat 0) with 0%nat. zlia.
Qed.

Lemma with_count_count m n : wf_market m → count (buy (book (with_count m n) 0)) = n.
Proof. intros Hm. unfold book at 1. by rewrite with_count_book. Qed.

(** A market whose two counters agree is [with_count] of itself. *)
Lemma with_count_id m :
  wf_market m → globalOrderId m = count (buy (book m 0)) →
  with_count m (count (buy (book m 0))) = m.
Proof.
  intros Hm Hg. pose proof (load_book m 0 Hm ltac:(zlia)) as Hob.
  unfold with_count. rewrite <- Hg at 2.
  destruct m as [obs g]. cbn [orderBooks globalOrderId] in *. f_equal.
  apply list_insert_id.
  unfold load in Hob. rewrite decide_True in Hob by lia.
  change (Z.to_nat 0) with 0%nat in Hob. rewrite Hob. f_equal.
  by destruct (book (mkMarket obs g) 0) as [[ids qs ps acts c] s].
Qed.

(** From the capacity on, every bid is turned away and counts. *)
Lemma addOrder_with_count m n :
  wf_market m → MAX_ORDERS_PER_SIDE ≤ n → n + 1 ≤ INT_MAX →
  addOrder BUY 0 1 1%float (with_count m n) = Some (with_count m (n + 1), BookFull).
Proof.
  intros Hm Hn Hmax.
  rewrite (addOrder_full BUY 0 1 1%float _ _ (with_count_book m n Hm)) by (cbn; lia).
  f_equal. f_equal. unfold with_count.
  cbn [orderBooks globalOrderId side_of set_side buy sell set_count count
       orderId quantity price active].
  change (Z.to_nat 0) with 0%nat. rewrite list_insert_insert_eq.
  rewrite !wrap_int_id by zlia. reflexivity.
Qed.

Lemma run_with_count m k : ∀ n,
  wf_market m → MAX_ORDERS_PER_SIDE ≤ n → n + Z.of_nat k ≤ INT_MAX →
  run (bids k) (with_count m n) =
    Some (with_count m (n + Z.of_nat k),
          replicate k (Add BUY 0 1 1%float, Added BookFull)).
Proof.
  induction k as [|k IH]; intros n Hm Hn Hmax.
  - cbn [bids replicate run]. by rewrite Z.add_0_r.
  - unfold bids in *. cbn [replicate run step].
    rewrite addOrder_with_count by (done || lia). simpl.
    rewrite IH by (done || lia). simpl. do 3 f_equal. lia.
Qed.

Lemma run_bids_from m c k :
  wf_market m → globalOrderId m = c → count (buy (book m 0)) = c →
  MAX_ORDERS_PER_SIDE ≤ c → c + Z.of_nat k ≤ INT_MAX →
  run (bids k) m =
    Some (with_count m (c + Z.of_nat k),
          replicate k (Add BUY 0 1 1%float, Added BookFull)).
Proof.
  intros Hm Hg Hc Hfull Hmax. rewrite <- Hc in Hg.
  rewrite <- (with_count_id m Hm Hg) at 1. rewrite Hc. by apply run_with_count.
Qed.

Lemma run_bids_beyond m0 log0 n :
  run (bids 1000) initial = Some (m0, log0) →
  wf_market m0 → globalOrderId m0 = 1000 → count (buy (book m0 0)) = 1000 →
  (1000 ≤ n)%nat → Z.of_nat n ≤ INT_MAX →
  run (bids n) initial =
    Some (with_count m0 (Z.of_nat n),
          log0 ++ replicate (n - 1000) (Add BUY 0 1 1%float, Added BookFull)).
Proof.
  intros Hrun Hm Hg Hc Hn Hmax.
  assert (n = 1000 + (n - 1000))%nat as Hsplit by lia.
  rewrite Hsplit at 1. unfold bids in *. rewrite replicate_add, run_app, Hrun. simpl.
  fold (bids (n - 1000)).
  rewrite (run_bids_from m0 1000 (n - 1000) Hm Hg Hc) by zlia. simpl.
  do 3 f_equal. lia.
Qed.

(** Any number of bids from the capacity to [INT_MAX] leads to
    [full_bids]. *)
Lemma run_bids n :
  (1000 ≤ n)%nat → Z.of_nat n ≤ INT_MAX →
  ∃ log, run (bids n) initial = Some (full_bids (Z.of_nat n), log).
Proof.
  intros Hn Hmax.
  assert (match run (bids 1000) initial with Some _ => true | None => false end = true)
    as Hdef by evaluated.
  assert (globalOrderId (after (bids 1000)) = 1000) as Hg by evaluated.
  assert (count (buy (book (after (bids 1000)) 0)) = 1000) as Hc by evaluated.
  destruct (run_after (bids 1000)) as [log0 Hrun].
  { destruct (run (bids 1000) initial); [by eexists | discriminate Hdef]. }
  eexists.
  exact (run_bids_beyond (after (bids 1000)) log0 n Hrun
           (wf_after _ (int_args_bids _)) Hg Hc Hn Hmax).
Qed.

(** With the counter of a side at [INT_MAX], a submission is turned away
    and the counter wraps around to [INT_MIN]; the submission after that
    stores outside the arrays. *)
Lemma addOrder_at_INT_MAX type ticker qty px m ob :
  load (orderBooks m) ticker = Some ob → count (side_of type ob) = INT_MAX →
  ∃ m1 ob1,
    addOrder type ticker qty px m = Some (m1, BookFull) ∧
    load (orderBooks m1) ticker = Some ob1 ∧
    count (side_of type ob1) = INT_MIN ∧
    ∀ qty' px', addOrder type ticker qty' px' m1 = None.
Proof.
  intros Hob Hc. pose proof (load_Some_range _ _ _ Hob) as Hr.
  assert (MAX_ORDERS_PER_SIDE ≤ count (side_of type ob)) as Hfull by (rewrite Hc; zlia).
  pose proof (addOrder_full type ticker qty px m ob Hob Hfull) as Hadd.
  rewrite Hc in Hadd. change (wrap_int (INT_MAX + 1)) with INT_MIN in Hadd.
  eexists _, _. split; [exact Hadd|]. cbn [orderBooks].
  assert (load (<[Z.to_nat ticker := set_side type ob (set_count (side_of type ob) INT_MIN)]>
                  (orderBooks m)) ticker
          = Some (set_side type ob (set_count (side_of type ob) INT_MIN))) as Hob1
    by (by eapply load_store_eq, store_in_range).
  split; [exact Hob1|]. split; [by rewrite side_of_set_side|].
  intros qty' px'. unfold addOrder. cbn [orderBooks]. rewrite Hob1. simpl.
  destruct type; cbn [set_side buy sell]; by rewrite add_to_side_out_of_range.
Qed.

(** C5, after [INT_MAX] bids on ticker 0: the counter of the buy side is
    at [INT_MAX], far above the capacity; the next bid is turned away and
    leaves the counter at [INT_MIN], not one higher; and the bid after
    that is not turned away: its index [INT_MIN] is below the capacity,
    and it stores outside the arrays. *)
Lemma counter_wraps_at_INT_MAX :
  ∃ m log m1,
    run (bids (Z.to_nat INT_MAX)) initial = Some (m, log) ∧
    count (buy (book m 0)) = INT_MAX ∧
    addOrder BUY 0 1 1%float m = Some (m1, BookFull) ∧
    count (buy (book m1 0)) = INT_MIN ∧
    addOrder BUY 0 1 1%float m1 = None.
Proof.
  destruct (run_bids (Z.to_nat INT_MAX)) as [log Hrun]; [zlia | zlia |].
  rewrite Z2Nat.id in Hrun by zlia.
  assert (wf_market (full_bids INT_MAX)) as Hm.
  { apply wf_with_count; [apply wf_after, int_args_bids | zlia]. }
  assert (count (buy (book (full_bids INT_MAX) 0)) = INT_MAX) as Hc.
  { apply with_count_count, wf_after, int_args_bids. }
  pose proof (load_book _ 0 Hm ltac:(zlia)) as Hob.
  destruct (addOrder_at_INT_MAX BUY 0 1 1%float _ _ Hob Hc)
    as (m1 & ob1 & Hadd & Hob1 & Hc1 & Hnext).
  exists (full_bids INT_MAX), log, m1.
  split; [exact Hrun|]. split; [exact Hc|]. split; [exact Hadd|].
  split; [|apply Hnext]. unfold book. rewrite Hob1. exact Hc1.
Qed.

(** * The life of a slot *)

Lemma slot_le_refl i s : slot_le i s s.
Proof. intros q a Hq Ha. exists q, a. split; [done|]. split; [done|]. split; [lia | done]. Qed.

Lemma slot_le_same i s s' :
  quantity s' = quantity s → active s' = active s → slot_le i s s'.
Proof. intros Hq Ha q a. rewrite Hq, Ha. apply slot_le_refl. Qed.

Lemma slot_le_trans i s1 s2 s3 : slot_le i s1 s2 → slot_le i s2 s3 → slot_le i s1 s3.
Proof.
  intros H12 H23 q a Hq Ha.
  destruct (H12 q a Hq Ha) as (q2 & a2 & Hq2 & Ha2 & Hle2 & Hact2).
  destruct (H23 q2 a2 Hq2 Ha2) as (q3 & a3 & Hq3 & Ha3 & Hle3 & Hact3).
  exists q3, a3. split; [done|]. split; [done|]. split; [lia | auto].
Qed.

(** A submission writes no slot that was handed out before. *)
Lemma add_to_side_keeps s oid qty px s' r i :
  wf_side s → add_to_side s oid qty px = Some (s', r) → handed_out s i →
  slot_le i s s' ∧ handed_out s' i.
Proof.
  intros Hwf Hadd Hi. pose proof (wf_count_int _ Hwf) as Hc.
  destruct (add_to_side_spec _ _ _ _ _ _ Hadd)
    as [(Hlt & _ & (H1 & H2 & H3 & H4 & H5)) | (Hge & _ & ->)].
  - assert (0 ≤ count s) as Hpos by (by apply store_Some in H1 as [[? _] _]).
    destruct Hi as [Hi|Hi]; [|lia]. split.
    + intros q a Hq Ha. exists q, a.
      rewrite (load_store_ne _ _ i _ _ H2), (load_store_ne _ _ i _ _ H4) by lia.
      split; [done|]. split; [done|]. split; [lia | done].
    + left. rewrite H5, wrap_int_id by zlia. lia.
  - split; [by apply slot_le_same|]. unfold handed_out. cbn [set_count count].
    destruct Hi as [Hi|Hi]; [|zlia].
    destruct (decide (count s = INT_MAX)) as [->|Hne].
    + right. change (wrap_int (INT_MAX + 1)) with INT_MIN. zlia.
    + left. rewrite wrap_int_id by zlia. lia.
Qed.

(** A fill takes from the slot it names and touches no other. *)
Lemma filled_keeps s j tq q s' p i :
  wf_side s → eligible s j p → filled s j tq q s' → 0 < tq ≤ q →
  slot_le i s s' ∧ count s' = count s.
Proof.
  intros Hwf Hel Hf Htq. split; [|apply Hf].
  intros q0 a0 Hq0 Ha0. destruct (decide (j = i)) as [->|Hne].
  - destruct (filled_eligible _ _ _ _ _ _ Hwf Hel Hf Htq) as [Hq' Ha'].
    assert (q0 = q) as -> by (destruct Hf as (? & _); congruence).
    assert (a0 = true) as -> by (destruct Hel as (? & _); congruence).
    eexists _, _. split; [exact Hq'|]. split; [exact Ha'|]. split; [lia | done].
  - exists q0, a0.
    rewrite (filled_quantity _ _ _ _ _ i Hf), (filled_active _ _ _ _ _ i Hf).
    rewrite !decide_False by tauto. split; [done|]. split; [done|]. split; [lia | done].
Qed.

Lemma side_of_set_side_ne type type' ob s :
  type' ≠ type → side_of type' (set_side type ob s) = side_of type' ob.
Proof. by destruct type, type'. Qed.

Lemma addOrder_keeps type0 ticker0 qty px m m' r ticker ob :
  wf_market m → addOrder type0 ticker0 qty px m = Some (m', r) →
  load (orderBooks m) ticker = Some ob →
  ∃ ob', load (orderBooks m') ticker = Some ob' ∧
    ∀ type i, handed_out (side_of type ob) i →
      slot_le i (side_of type ob) (side_of type ob') ∧ handed_out (side_of type ob') i.
Proof.
  intros Hm Hadd Hob. destruct (decide (ticker = ticker0)) as [->|Hne].
  - destruct (addOrder_book _ _ _ _ _ _ _ _ Hadd Hob) as (s' & Hside & Hob' & _).
    exists (set_side type0 ob s'). split; [done|]. intros type i Hi.
    destruct (decide (type = type0)) as [->|Hty].
    + rewrite side_of_set_side. eapply add_to_side_keeps; [|done..].
      destruct (wf_market_book _ _ _ Hm Hob). by destruct type0.
    + rewrite side_of_set_side_ne by done. split; [apply slot_le_refl | done].
  - apply addOrder_spec in Hadd as (ob0 & s' & _ & _ & Hst & _).
    exists ob. rewrite (load_store_ne _ _ ticker _ _ Hst) by done.
    split; [done|]. intros type i Hi. split; [apply slot_le_refl | done].
Qed.

Lemma matchOrder_keeps ticker0 m m' o ticker ob :
  wf_market m → matchOrder ticker0 m = Some (m', o) →
  load (orderBooks m) ticker = Some ob →
  ∃ ob', load (orderBooks m') ticker = Some ob' ∧
    ∀ type i, slot_le i (side_of type ob) (side_of type ob') ∧
              count (side_of type ob') = count (side_of type ob).
Proof.
  intros Hm Hrun Hob. destruct o as [tr|].
  - apply matchOrder_trade in Hrun
      as (ob0 & ob0' & bi & bp & si & sp & Hob0 & Hob0' & _ & _ & [_ Hb] & [_ Hs] & Hex & Hst & _).
    destruct (decide (ticker = ticker0)) as [->|Hne].
    + assert (ob0 = ob) as -> by congruence.
      destruct (wf_market_book _ _ _ Hm Hob) as [Hwb Hws].
      apply execute_spec in Hex as (qb & qs & bid & sid & Hfb & Hfs & _).
      assert (0 < qb) as Hqb.
      { destruct Hb as (_ & (q & Hq & ?) & _), Hfb as (Hq' & _). congruence. }
      assert (0 < qs) as Hqs.
      { destruct Hs as (_ & (q & Hq & ?) & _), Hfs as (Hq' & _). congruence. }
      exists ob0'. split; [done|]. intros [] i; cbn [side_of].
      * eapply filled_keeps; [done | done | done | lia].
      * eapply filled_keeps; [done | done | done | lia].
    + exists ob. rewrite (load_store_ne _ _ ticker _ _ Hst) by done.
      split; [done|]. intros type i. split; [apply slot_le_refl | done].
  - apply matchOrder_spec in Hrun as (? & ? & ? & _ & _ & [(_ & ? & ? & _ & _ & _ & [=]) | (_ & -> & _)]).
    exists ob. split; [done|]. intros type i. split; [apply slot_le_refl | done].
Qed.

Lemma step_keeps o m m' r ticker ob :
  wf_market m → step o m = Some (m', r) → load (orderBooks m) ticker = Some ob →
  ∃ ob', load (orderBooks m') ticker = Some ob' ∧
    ∀ type i, handed_out (side_of type ob) i →
      slot_le i (side_of type ob) (side_of type ob') ∧ handed_out (side_of type ob') i.
Proof.
  intros Hm Hstep Hob. destruct o as [type0 ticker0 qty px | ticker0]; cbn [step] in Hstep.
  - destruct (addOrder type0 ticker0 qty px m) as [[m1 r1]|] eqn:Hadd; simpl in Hstep; [|done].
    injection Hstep as <- <-. by eapply addOrder_keeps.
  - destruct (matchOrder ticker0 m) as [[m1 r1]|] eqn:Hrun; simpl in Hstep; [|done].
    injection Hstep as <- <-.
    destruct (matchOrder_keeps _ _ _ _ _ _ Hm Hrun Hob) as (ob' & Hob' & Hk).
    exists ob'. split; [done|]. intros type i Hi. destruct (Hk type i) as [Hle Hc].
    split; [done|]. unfold handed_out in *. by rewrite Hc.
Qed.

Lemma run_keeps ops : ∀ m m' log ticker ob,
  wf_market m → Forall int_args ops → run ops m = Some (m', log) →
  load (orderBooks m) ticker = Some ob →
  ∃ ob', load (orderBooks m') ticker = Some ob' ∧
    ∀ type i, handed_out (side_of type ob) i →
      slot_le i (side_of type ob) (side_of type ob') ∧ handed_out (side_of type ob') i.
Proof.
  induction ops as [|o ops IH]; intros m m' log ticker ob Hm Hops; cbn [run].
  - intros [= <- <-] Hob. exists ob. split; [done|]. intros type i Hi.
    split; [apply slot_le_refl | done].
  - destruct (step o m) as [[m1 r]|] eqn:Hstep; simpl; [|done].
    destruct (run ops m1) as [[m2 log']|] eqn:Hrun; simpl; [|done].
    intros [= <- <-] Hob. apply Forall_cons in Hops as [Ho Hops].
    destruct (step_keeps _ _ _ _ _ _ Hm Hstep Hob) as (ob1 & Hob1 & Hk1).
    destruct (IH m1 m2 log' ticker ob1 (step_wf _ _ _ _ Hm Ho Hstep) Hops Hrun Hob1)
      as (ob2 & Hob2 & Hk2).
    exists ob2. split; [done|]. intros type i Hi.
    destruct (Hk1 type i Hi) as [Hle1 Hi1]. destruct (Hk2 type i Hi1) as [Hle2 Hi2].
    split; [by eapply slot_le_trans | done].
Qed.

(** C6. Along every sequence of [addOrder] and [matchOrder] operations on
    a well-formed market, a slot that the counter of its side has handed
    out holds, at any later point, a quantity no greater than at any
    earlier point, and once it is inactive it stays inactive. *)
Theorem slot_monotone ops1 ops2 m m1 m2 log1 log2 ticker ob type i :
  wf_market m → Forall int_args ops1 → Forall int_args ops2 →
  run ops1 m = Some (m1, log1) → run ops2 m1 = Some (m2, log2) →
  load (orderBooks m) ticker = Some ob →
  0 ≤ i < count (side_of type ob) → i < MAX_ORDERS_PER_SIDE →
  ∃ ob1 ob2 q1 a1 q2 a2,
    load (orderBooks m1) ticker = Some ob1 ∧
    load (orderBooks m2) ticker = Some ob2 ∧
    load (quantity (side_of type ob1)) i = Some q1 ∧
    load (active (side_of type ob1)) i = Some a1 ∧
    load (quantity (side_of type ob2)) i = Some q2 ∧
    load (active (side_of type ob2)) i = Some a2 ∧
    q2 ≤ q1 ∧ (a1 = false → a2 = false).
Proof.
  intros Hm Hops1 Hops2 Hrun1 Hrun2 Hob Hi Hmax.
  destruct (run_keeps _ _ _ _ _ _ Hm Hops1 Hrun1 Hob) as (ob1 & Hob1 & Hk1).
  pose proof (run_wf _ _ _ _ Hm Hops1 Hrun1) as Hm1.
  destruct (run_keeps _ _ _ _ _ _ Hm1 Hops2 Hrun2 Hob1) as (ob2 & Hob2 & Hk2).
  destruct (Hk1 type i) as [Hle1 Hi1]; [by left|].
  destruct (Hk2 type i Hi1) as [Hle2 _].
  assert (wf_side (side_of type ob)) as Hwf.
  { destruct (wf_market_book _ _ _ Hm Hob). by destruct type. }
  destruct (load_in_range (quantity (side_of type ob)) i) as [q Hq];
    [rewrite (wf_quantity _ Hwf); lia|].
  destruct (load_in_range (active (side_of type ob)) i) as [a Ha];
    [rewrite (wf_active _ Hwf); lia|].
  destruct (Hle1 q a Hq Ha) as (q1 & a1 & Hq1 & Ha1 & _).
  destruct (Hle2 q1 a1 Hq1 Ha1) as (q2 & a2 & Hq2 & Ha2 & Hle & Hact).
  by exists ob1, ob2, q1, a1, q2, a2.
Qed.

Lemma is_Some_evaluated {A} (o : option A) :
  match o with Some _ => true | None => false end = true → is_Some o.
Proof. destruct o; [by eexists | discriminate]. Qed.

Lemma run_app_Some ops1 ops2 m :
  is_Some (run (ops1 ++ ops2) m) →
  ∃ m1 log1 m2 log2, run ops1 m = Some (m1, log1) ∧ run ops2 m1 = Some (m2, log2).
Proof.
  rewrite run_app. intros [x Hx].
  destruct (run ops1 m) as [[m1 log1]|]; simpl in Hx; [|done].
  destruct (run ops2 m1) as [[m2 log2]|] eqn:H2; simpl in Hx; [|done].
  by exists m1, log1, m2, log2.
Qed.

(** After the bid of 30 at 100 and the ask of 50 at 90: a further bid, then
    two rounds of matching; slot 0 of the buy side, handed out at the
    start, only goes down. *)
Lemma slot_monotone_witness :
  let m := after crossing_orders in
  let ops1 := [Add BUY 0 5 80%float] in
  let ops2 := [Match 0; Match 0] in
  wf_market m ∧ Forall int_args ops1 ∧ Forall int_args ops2 ∧
  load (orderBooks m) 0 = Some (book m 0) ∧
  0 ≤ 0 < count (side_of BUY (book m 0)) ∧ 0 < MAX_ORDERS_PER_SIDE ∧
  ∃ m1 log1 m2 log2,
    run ops1 m = Some (m1, log1) ∧ run ops2 m1 = Some (m2, log2) ∧
    ∃ ob1 ob2 q1 a1 q2 a2,
      load (orderBooks m1) 0 = Some ob1 ∧
      load (orderBooks m2) 0 = Some ob2 ∧
      load (quantity (side_of BUY ob1)) 0 = Some q1 ∧
      load (active (side_of BUY ob1)) 0 = Some a1 ∧
      load (quantity (side_of BUY ob2)) 0 = Some q2 ∧
      load (active (side_of BUY ob2)) 0 = Some a2 ∧
      q2 ≤ q1 ∧ (a1 = false → a2 = false).
Proof.
  intros m ops1 ops2.
  assert (wf_market m) as Hm by (apply wf_after; int_ops).
  assert (Forall int_args ops1) as Hops1 by int_ops.
  assert (Forall int_args ops2) as Hops2 by int_ops.
  assert (load (orderBooks m) 0 = Some (book m 0)) as Hob
    by (apply load_book; [exact Hm | zlia]).
  assert (count (side_of BUY (book m 0)) = 1) as Hc by evaluated.
  assert (0 ≤ 0 < count (side_of BUY (book m 0))) as Hi by (rewrite Hc; lia).
  assert (0 < MAX_ORDERS_PER_SIDE) as Hmax by zlia.
  assert (match run (ops1 ++ ops2) m with Some _ => true | None => false end = true)
    as Hdef by evaluated.
  destruct (run_app_Some ops1 ops2 m (is_Some_evaluated (run (ops1 ++ ops2) m) Hdef))
    as (m1 & log1 & m2 & log2 & Hrun1 & Hrun2).
  split; [exact Hm|]. split; [exact Hops1|]. split; [exact Hops2|].
  split; [exact Hob|]. split; [exact Hi|]. split; [exact Hmax|].
  exists m1, log1, m2, log2. split; [exact Hrun1|]. split; [exact Hrun2|].
  exact (slot_monotone ops1 ops2 m m1 m2 log1 log2 0 (book m 0) BUY 0
           Hm Hops1 Hops2 Hrun1 Hrun2 Hob Hi Hmax).
Defined.

(** * The accounts of a run *)

Lemma sumZ_insert (l : list Z) (i : nat) (x y : Z) :
  l !! i = Some y → sumZ (<[i := x]> l) = sumZ l - y + x.
Proof.
  revert i. induction l as [|z l IH]; intros [|i]; simpl; try done.
  - intros [= ->]. lia.
  - intros H. rewrite (IH i H). lia.
Qed.

(** The open quantity after a write of [a] and [q] to slot [i], which held
    [a0] and [q0]. *)
Lemma open_side_update s s' i (a : bool) (q : Z) (a0 : bool) (q0 : Z) :
  load (active s) i = Some a0 → load (quantity s) i = Some q0 →
  active s' = <[Z.to_nat i := a]> (active s) →
  quantity s' = <[Z.to_nat i := q]> (quantity s) →
  open_side s' = open_side s - (if a0 then q0 else 0) + (if a then q else 0).
Proof.
  unfold load, open_side. case_decide; [|done]. intros Ha0 Hq0 -> ->.
  rewrite <- insert_zip_with. apply sumZ_insert.
  by rewrite lookup_zip_with, Ha0, Hq0.
Qed.

Lemma open_side_published s idx oid qty px s' :
  wf_side s → fresh_side s → published s idx oid qty px s' → idx = count s →
  open_side s' = open_side s + qty.
Proof.
  intros Hwf Hfresh (_ & [Hr Hq]%store_Some & _ & [Hr' Ha]%store_Some & _) ->.
  destruct (load_in_range (active s) (count s)) as [a0 Ha0]; [done|].
  destruct (load_in_range (quantity s) (count s)) as [q0 Hq0]; [done|].
  rewrite (open_side_update s s' (count s) true qty a0 q0) by done.
  destruct a0; [|lia]. by destruct (Hfresh (count s) ltac:(lia)).
Qed.

Lemma open_side_filled s j tq q s' p :
  wf_side s → eligible s j p → filled s j tq q s' → 0 < tq ≤ q →
  open_side s' = open_side s - tq.
Proof.
  intros Hwf (Ha & _ & _) (Hq & [Hr Hq']%store_Some & Hact & _) Htq.
  assert (is_int q) as Hint by exact (Forall_load _ _ _ _ (wf_quantity_int _ Hwf) Hq).
  rewrite wrap_int_id in Hq', Hact by zlia.
  destruct (decide (q - tq = 0)) as [Hz|Hz].
  - apply store_Some in Hact as [_ Hact].
    rewrite (open_side_update s s' j false (q - tq) true q) by done. lia.
  - assert (active s' = <[Z.to_nat j := true]> (active s)) as Hact'.
    { rewrite Hact. symmetry. apply list_insert_id.
      revert Ha. unfold load. by case_decide. }
    rewrite (open_side_update s s' j true (q - tq) true q) by done. lia.
Qed.

Lemma fresh_side_published s idx oid qty px s' :
  wf_side s → fresh_side s → published s idx oid qty px s' → idx = count s →
  fresh_side s'.
Proof.
  intros Hwf Hfresh (_ & _ & _ & Hst & Hc) -> i Hi.
  pose proof (proj1 (store_Some _ _ _ _) Hst) as [Hr _].
  rewrite Hc, wrap_int_id in Hi by (rewrite (wf_active _ Hwf) in Hr; zlia).
  rewrite (load_store_ne _ _ i _ _ Hst) by lia. apply Hfresh. lia.
Qed.

Lemma fresh_side_filled s j tq q s' :
  fresh_side s → filled s j tq q s' → fresh_side s'.
Proof.
  intros Hfresh Hf i Hi. pose proof Hf as (_ & _ & _ & _ & _ & Hc).
  rewrite (filled_active _ _ _ _ _ i Hf). case_decide; [done|].
  apply Hfresh. by rewrite <- Hc.
Qed.

Lemma fresh_side_full s :
  wf_side s → MAX_ORDERS_PER_SIDE ≤ count s →
  fresh_side (set_count s (wrap_int (count s + 1))).
Proof.
  intros Hwf Hfull i Hi. cbn [set_count count active] in *.
  pose proof (wf_count_int _ Hwf) as Hc.
  destruct (decide (count s = INT_MAX)) as [Heq|Hne].
  - rewrite Heq in Hi. change (wrap_int (INT_MAX + 1)) with INT_MIN in Hi. zlia.
  - rewrite wrap_int_id in Hi by zlia.
    rewrite load_out_of_range; [done|]. rewrite (wf_active _ Hwf). lia.
Qed.

Lemma add_to_side_accounts s oid qty px s' r :
  wf_side s → fresh_side s → add_to_side s oid qty px = Some (s', r) →
  open_side s' = open_side s + (if r is BookFull then 0 else qty) ∧ fresh_side s'.
Proof.
  intros Hwf Hfresh [(_ & -> & Hp) | (Hfull & -> & ->)]%add_to_side_spec.
  - split; [by eapply open_side_published | by eapply fresh_side_published].
  - split; [unfold open_side; cbn [set_count active quantity]; lia|].
    by apply fresh_side_full.
Qed.

Lemma fresh_initial : fresh initial.
Proof.
  intros ticker ob type Hob.
  assert (ob = new_OrderBook) as ->.
  { unfold load, initial in Hob. cbn [orderBooks] in Hob. case_decide; [|done].
    by apply lookup_replicate in Hob as [-> _]. }
  intros i Hi. destruct type; cbn [side_of new_OrderBook buy sell new_OrderSide active];
    unfold load; (case_decide; [|done]); by intros [? _]%lookup_replicate.
Qed.

Lemma fresh_store m ticker ob obs g :
  fresh m → (∀ type, fresh_side (side_of type ob)) →
  store (orderBooks m) ticker ob = Some obs → fresh (mkMarket obs g).
Proof.
  intros Hm Hob Hst t ob' type. cbn [orderBooks].
  rewrite (load_store _ _ t _ _ Hst). case_decide.
  - intros [= <-]. apply Hob.
  - apply Hm.
Qed.

Lemma addOrder_accounts type0 ticker0 qty px m m' r ticker ob :
  wf_market m → fresh m → addOrder type0 ticker0 qty px m = Some (m', r) →
  load (orderBooks m) ticker = Some ob →
  fresh m' ∧
  ∃ ob', load (orderBooks m') ticker = Some ob' ∧
    open_book ob' =
      open_book ob + submitted_of ticker (Add type0 ticker0 qty px, Added r)
                   - rejected_of ticker (Add type0 ticker0 qty px, Added r).
Proof.
  intros Hm Hfresh Hadd Hob.
  pose proof Hadd as (ob0 & s' & Hob0 & Hside & Hst & _)%addOrder_spec.
  pose proof (wf_market_book _ _ _ Hm Hob0) as [Hwb Hws].
  assert (wf_side (side_of type0 ob0)) as Hwf by (by destruct type0).
  destruct (add_to_side_accounts _ _ _ _ _ _ Hwf (Hfresh _ _ type0 Hob0) Hside)
    as [Hopen Hfresh'].
  split.
  - destruct m' as [obs g]. cbn [orderBooks] in Hst.
    eapply fresh_store; [done | | done].
    intros type. destruct (decide (type = type0)) as [->|Hne].
    + by rewrite side_of_set_side.
    + rewrite side_of_set_side_ne by done. by apply (Hfresh ticker0).
  - cbn [submitted_of rejected_of]. rewrite (load_store _ _ ticker _ _ Hst).
    destruct (decide (ticker0 = ticker)) as [->|Hne].
    + assert (ob0 = ob) as -> by congruence. eexists. split; [done|].
      unfold open_book. destruct type0; cbn [set_side side_of buy sell] in *;
        rewrite Hopen; destruct r; lia.
    + exists ob. split; [done|]. destruct r; lia.
Qed.

Lemma matchOrder_accounts ticker0 m m' o ticker ob :
  wf_market m → fresh m → matchOrder ticker0 m = Some (m', o) →
  load (orderBooks m) ticker = Some ob →
  fresh m' ∧ 0 ≤ traded_of ticker (Match ticker0, Matched o) ∧
  ∃ ob', load (orderBooks m') ticker = Some ob' ∧
    open_book ob' + 2 * traded_of ticker (Match ticker0, Matched o) = open_book ob.
Proof.
  intros Hm Hfresh Hrun Hob. cbn [traded_of]. destruct o as [tr|].
  - apply matchOrder_trade in Hrun
      as (ob0 & ob0' & bi & bp & si & sp & Hob0 & Hob0' & _ & _ & [_ Hb] & [_ Hs] & Hex & Hst & _).
    destruct (wf_market_book _ _ _ Hm Hob0) as [Hwb Hws].
    apply execute_spec in Hex as (qb & qs & bid & sid & Hfb & Hfs & _ & _ & ->).
    cbn [trade_quantity].
    assert (0 < qb) as Hqb.
    { destruct Hb as (_ & (q & Hq & ?) & _), Hfb as (Hq' & _). congruence. }
    assert (0 < qs) as Hqs.
    { destruct Hs as (_ & (q & Hq & ?) & _), Hfs as (Hq' & _). congruence. }
    split; [|split].
    + destruct m' as [obs g]. cbn [orderBooks] in Hst.
      eapply fresh_store; [done | | done].
      intros []; cbn [side_of]; eapply fresh_side_filled; try done.
      * apply (Hfresh ticker0 ob0 BUY Hob0).
      * apply (Hfresh ticker0 ob0 SELL Hob0).
    + case_decide; lia.
    + rewrite (load_store _ _ ticker _ _ Hst).
      destruct (decide (ticker0 = ticker)) as [->|Hne].
      * assert (ob0 = ob) as -> by congruence. eexists. split; [done|].
        unfold open_book.
        rewrite (open_side_filled _ _ _ _ _ _ Hwb Hb Hfb) by lia.
        rewrite (open_side_filled _ _ _ _ _ _ Hws Hs Hfs) by lia. lia.
      * exists ob. split; [done|]. lia.
  - apply matchOrder_spec in Hrun
      as (? & ? & ? & _ & _ & [(_ & ? & ? & _ & _ & _ & [=]) | (_ & -> & _)]).
    split; [done|]. split; [lia|]. exists ob. split; [done | lia].
Qed.

Lemma run_accounts ops : ∀ m m' log ticker ob,
  wf_market m → fresh m → Forall int_args ops → run ops m = Some (m', log) →
  load (orderBooks m) ticker = Some ob →
  0 ≤ traded ticker log ∧
  ∃ ob', load (orderBooks m') ticker = Some ob' ∧
    open_book ob' + 2 * traded ticker log =
      open_book ob + submitted ticker log - rejected ticker log.
Proof.
  induction ops as [|o ops IH]; intros m m' log ticker ob Hm Hfresh Hops; cbn [run].
  - intros [= <- <-] Hob. split; [done|]. exists ob. split; [done|].
    unfold traded, submitted, rejected. simpl. lia.
  - destruct (step o m) as [[m1 r]|] eqn:Hstep; simpl; [|done].
    destruct (run ops m1) as [[m2 log']|] eqn:Hrun; simpl; [|done].
    intros [= <- <-] Hob. apply Forall_cons in Hops as [Ho Hops].
    pose proof (step_wf _ _ _ _ Hm Ho Hstep) as Hm1.
    unfold traded, submitted, rejected. cbn [fmap list_fmap sumZ foldr].
    fold (sumZ (traded_of ticker <$> log')) (sumZ (submitted_of ticker <$> log'))
      (sumZ (rejected_of ticker <$> log')).
    fold (traded ticker log') (submitted ticker log') (rejected ticker log').
    destruct o as [type0 ticker0 qty px | ticker0]; cbn [step] in Hstep.
    + destruct (addOrder type0 ticker0 qty px m) as [[m1' r1]|] eqn:Hadd;
        simpl in Hstep; [|done].
      injection Hstep as -> <-.
      destruct (addOrder_accounts _ _ _ _ _ _ _ _ _ Hm Hfresh Hadd Hob)
        as (Hfresh1 & ob1 & Hob1 & Hopen1).
      destruct (IH m1 m2 log' ticker ob1 Hm1 Hfresh1 Hops Hrun Hob1)
        as (Hpos & ob2 & Hob2 & Hopen2).
      split; [cbn [traded_of]; lia|]. exists ob2. split; [done|].
      cbn [traded_of]. lia.
    + destruct (matchOrder ticker0 m) as [[m1' r1]|] eqn:Hmatch;
        simpl in Hstep; [|done].
      injection Hstep as -> <-.
      destruct (matchOrder_accounts _ _ _ _ _ _ Hm Hfresh Hmatch Hob)
        as (Hfresh1 & Hpos1 & ob1 & Hob1 & Hopen1).
      destruct (IH m1 m2 log' ticker ob1 Hm1 Hfresh1 Hops Hrun Hob1)
        as (Hpos & ob2 & Hob2 & Hopen2).
      split; [lia|]. exists ob2. split; [done|].
      cbn [submitted_of rejected_of]. lia.
Qed.

Lemma run_log ops : ∀ m m' log, run ops m = Some (m', log) → log.*1 = ops.
Proof.
  induction ops as [|o ops IH]; intros m m' log; cbn [run].
  - by intros [= <- <-].
  - destruct (step o m) as [[m1 r]|]; simpl; [|done].
    destruct (run ops m1) as [[m2 log']|] eqn:Hrun; simpl; [|done].
    intros [= <- <-]. cbn. f_equal. by eapply IH.
Qed.

Lemma rejected_nonneg ticker log : Forall nonneg_qty log.*1 → 0 ≤ rejected ticker log.
Proof.
  unfold rejected.
  induction log as [|[o r] log IH]; cbn [fmap list_fmap sumZ foldr fst]; [done|].
  intros [Ho Hlog]%Forall_cons. specialize (IH Hlog). unfold sumZ in IH.
  assert (0 ≤ rejected_of ticker (o, r)); [|lia].
  unfold rejected_of. destruct o; [|done]. destruct r as [[]|]; try done.
  case_decide; [apply Ho | done].
Qed.

(** C7, as the code has it. After every sequence of operations from the
    initial market, for every instrument, the quantity open on both sides
    plus twice the quantity traded equals the quantity submitted minus the
    quantity turned away by a full book: a trade takes its quantity from
    the bid and from the ask.  So, when no submitted quantity is negative,
    the quantity traded plus the quantity open is at most the quantity
    submitted, and the two are equal exactly when the quantity traded and
    the quantity turned away add up to zero. *)
Theorem quantity_accounts ops m log ticker :
  Forall int_args ops → run ops initial = Some (m, log) →
  0 ≤ ticker < NUM_TICKERS →
  open_book (book m ticker) + 2 * traded ticker log
    = submitted ticker log - rejected ticker log ∧
  0 ≤ traded ticker log ∧
  (Forall nonneg_qty ops →
   traded ticker log + open_book (book m ticker) ≤ submitted ticker log) ∧
  (traded ticker log + open_book (book m ticker) = submitted ticker log
   ↔ traded ticker log + rejected ticker log = 0).
Proof.
  intros Hops Hrun Ht.
  pose proof (load_book initial ticker wf_initial Ht) as Hob.
  destruct (run_accounts _ _ _ _ _ _ wf_initial fresh_initial Hops Hrun Hob)
    as (Hpos & ob' & Hob' & Hopen).
  assert (open_book (book initial ticker) = 0) as Hzero.
  { unfold book. rewrite Hob. simpl.
    assert (load (orderBooks initial) ticker = Some new_OrderBook) as Hnew.
    { unfold load, initial in *. cbn [orderBooks] in *. case_decide; [|done].
      apply lookup_replicate. apply lookup_replicate in Hob as [_ ?]. done. }
    rewrite Hnew in Hob. injection Hob as <-. by vm_compute. }
  assert (book m ticker = ob') as -> by (unfold book; by rewrite Hob').
  rewrite Hzero in Hopen.
  split; [lia|]. split; [done|]. split; [|lia].
  intros Hnn. rewrite <- (run_log _ _ _ _ Hrun) in Hnn.
  pose proof (rejected_nonneg ticker log Hnn). lia.
Qed.

(** The bid of 50 at 100 and the ask of 50 at 90, matched. *)
Lemma quantity_accounts_witness :
  Forall int_args full_fill ∧ 0 ≤ 0 < NUM_TICKERS ∧
  ∃ log,
    run full_fill initial = Some (after full_fill, log) ∧
    open_book (book (after full_fill) 0) + 2 * traded 0 log
      = submitted 0 log - rejected 0 log ∧
    0 ≤ traded 0 log ∧
    (Forall nonneg_qty full_fill →
     traded 0 log + open_book (book (after full_fill) 0) ≤ submitted 0 log) ∧
    (traded 0 log + open_book (book (after full_fill) 0) = submitted 0 log
     ↔ traded 0 log + rejected 0 log = 0).
Proof.
  assert (Forall int_args full_fill) as Hops by int_ops.
  assert (0 ≤ 0 < NUM_TICKERS) as Ht by zlia.
  assert (match run full_fill initial with Some _ => true | None => false end = true)
    as Hdef by evaluated.
  destruct (run_after full_fill (is_Some_evaluated (run full_fill initial) Hdef))
    as [log Hrun].
  split; [exact Hops|]. split; [exact Ht|]. exists log. split; [exact Hrun|].
  exact (quantity_accounts full_fill (after full_fill) log 0 Hops Hrun Ht).
Defined.

(** C7, as the claim states it, fails on the bid of 50 at 100 and the ask
    of 50 at 90, matched: no submission is turned away, 100 is submitted,
    50 is traded and nothing is open, so the two sides of the claimed
    equality are 50 and 100. *)
Lemma full_fill_counts_once :
  snd <$> run full_fill initial
    = Some [(Add BUY 0 50 100%float, Added (Stored 0));
            (Add SELL 0 50 90%float, Added (Stored 0));
            (Match 0, Matched (Some (mkTrade 0 50 90%float 0 1)))] ∧
  from_option (λ r, rejected 0 r.2) 0 (run full_fill initial) = 0 ∧
  from_option (λ r, submitted 0 r.2) 0 (run full_fill initial) = 100 ∧
  from_option (λ r, traded 0 r.2) 0 (run full_fill initial) = 50 ∧
  open_book (book (after full_fill) 0) = 0.
Proof. evaluated. Qed.

(** * The publication of an order *)

Lemma store_slot_loads {A} (a : list A) idx v :
  0 ≤ idx < Z.of_nat (length a) →
  ∃ a', store a idx v = Some a' ∧ load a' idx = Some v ∧ length a' = length a.
Proof.
  intros Hr. exists (<[Z.to_nat idx := v]> a).
  pose proof (store_in_range a idx v Hr) as Hst.
  split; [done|]. split; [by eapply load_store_eq | by eapply store_length].
Qed.

(** The orders in which the four stores of a publication may be seen: the
    store to [quantity] and the store to [active] are [seq_cst], so the
    order id is seen before the quantity and the store to [active] after
    the three others; the plain store to [price] is free among the first
    three. *)
Lemma visibility_orders_publish idx oid qty px :
  visibility_orders (publish idx oid qty px) =
    [ [StOrderId idx oid; StQuantity idx qty seq_cst; StPrice idx px;
       StActive idx true seq_cst];
      [StOrderId idx oid; StPrice idx px; StQuantity idx qty seq_cst;
       StActive idx true seq_cst];
      [StPrice idx px; StOrderId idx oid; StQuantity idx qty seq_cst;
       StActive idx true seq_cst] ].
Proof. reflexivity. Qed.

(** C9. A successful submission reserves slot [idx] and publishes the
    order in it: when [addOrder] is done the slot is active and holds the
    order id, the quantity and the price of the submission.  The store of
    [true] to [active] is the last of the four stores and its memory order
    ([seq_cst]) is at least [release].  So in every order in which another
    thread may see the four stores, program order among them, the slot is
    not active until the order id, the quantity and the price are all
    seen: at every point, a reader that finds the slot active finds the
    order id, the quantity and the price of the submission in it. *)
Theorem publish_active_last s oid qty px :
  wf_side s → 0 ≤ count s < MAX_ORDERS_PER_SIDE →
  load (active s) (count s) = Some false →
  let idx := count s in
  let s1 := set_count s (wrap_int (idx + 1)) in
  ∃ s',
    add_to_side s oid qty px = Some (s', Stored idx) ∧
    slot s' idx = Some (oid, qty, px, true) ∧
    (∀ v o, StActive idx v o ∈ publish idx oid qty px →
            v = true ∧ at_least_release o = true) ∧
    publish idx oid qty px ∈ visibility_orders (publish idx oid qty px) ∧
    ∀ vis, vis ∈ visibility_orders (publish idx oid qty px) →
      ∀ k, ∃ sk,
        do_stores s1 (take k vis) = Some sk ∧
        ((k < 4)%nat → load (active sk) idx = Some false) ∧
        ((4 ≤ k)%nat → sk = s') ∧
        (load (active sk) idx = Some true → slot sk idx = Some (oid, qty, px, true)).
Proof.
  intros Hwf Hc Hfalse idx s1. subst idx.
  assert (0 ≤ count s < Z.of_nat (length (orderId s))) as H1
    by (by rewrite (wf_orderId _ Hwf)).
  assert (0 ≤ count s < Z.of_nat (length (quantity s))) as H2
    by (by rewrite (wf_quantity _ Hwf)).
  assert (0 ≤ count s < Z.of_nat (length (price s))) as H3
    by (by rewrite (wf_price _ Hwf)).
  assert (0 ≤ count s < Z.of_nat (length (active s))) as H4
    by (by rewrite (wf_active _ Hwf)).
  destruct (store_slot_loads (orderId s) (count s) oid H1) as (a1 & Hs1 & Hl1 & _).
  destruct (store_slot_loads (quantity s) (count s) qty H2) as (a2 & Hs2 & Hl2 & _).
  destruct (store_slot_loads (price s) (count s) px H3) as (a3 & Hs3 & Hl3 & _).
  destruct (store_slot_loads (active s) (count s) true H4) as (a4 & Hs4 & Hl4 & _).
  assert (∀ sts,
    do_stores s1 sts =
      do_stores (mkOrderSide (orderId s) (quantity s) (price s) (active s)
                   (wrap_int (count s + 1))) sts) as Hs1' by done.
  exists (mkOrderSide a1 a2 a3 a4 (wrap_int (count s + 1))).
  assert (slot (mkOrderSide a1 a2 a3 a4 (wrap_int (count s + 1))) (count s)
          = Some (oid, qty, px, true)) as Hslot.
  { unfold slot. cbn [orderId quantity price active]. by rewrite Hl1, Hl2, Hl3, Hl4. }
  split; [|split; [exact Hslot|split; [|split]]].
  - unfold add_to_side. rewrite decide_True by lia. fold s1. rewrite Hs1'.
    unfold publish. cbn [do_stores do_store].
    stored Hs1. stored Hs2. stored Hs3. stored Hs4. done.
  - intros v o. unfold publish. rewrite !elem_of_cons, elem_of_nil.
    intros [[=] | [[=] | [[=] | [[= -> ->] | []]]]]. done.
  - rewrite visibility_orders_publish. apply list_elem_of_here.
  - intros vis. rewrite visibility_orders_publish, !elem_of_cons, elem_of_nil.
    intros [-> | [-> | [-> | []]]]; intros k; rewrite Hs1';
      (destruct (decide (4 ≤ k)%nat) as [Hk|Hk];
       [ rewrite take_ge by (cbn [length]; lia);
         cbn [do_stores do_store];
         repeat first [stored Hs1 | stored Hs2 | stored Hs3 | stored Hs4];
         eexists; split; [reflexivity|]; split; [lia|]; split; [done|];
         intros _; exact Hslot
       | assert (k = 0 ∨ k = 1 ∨ k = 2 ∨ k = 3)%nat as [-> | [-> | [-> | ->]]] by lia;
         cbn [take do_stores do_store];
         repeat first [stored Hs1 | stored Hs2 | stored Hs3];
         eexists; (split; [reflexivity|]);
         cbn [orderId quantity price active set_orderId set_quantity set_price set_active];
         (split; [intros _; exact Hfalse|]); (split; [lia|]);
         rewrite Hfalse; discriminate ]).
Qed.

(** The first submission to a new side. *)
Lemma publish_active_last_witness :
  wf_side new_OrderSide ∧ 0 ≤ count new_OrderSide < MAX_ORDERS_PER_SIDE ∧
  load (active new_OrderSide) (count new_OrderSide) = Some false ∧
  let idx := count new_OrderSide in
  let s1 := set_count new_OrderSide (wrap_int (idx + 1)) in
  ∃ s',
    add_to_side new_OrderSide 7 50 100%float = Some (s', Stored idx) ∧
    slot s' idx = Some (7, 50, 100%float, true) ∧
    (∀ v o, StActive idx v o ∈ publish idx 7 50 100%float →
            v = true ∧ at_least_release o = true) ∧
    publish idx 7 50 100%float ∈ visibility_orders (publish idx 7 50 100%float) ∧
    ∀ vis, vis ∈ visibility_orders (publish idx 7 50 100%float) →
      ∀ k, ∃ sk,
        do_stores s1 (take k vis) = Some sk ∧
        ((k < 4)%nat → load (active sk) idx = Some false) ∧
        ((4 ≤ k)%nat → sk = s') ∧
        (load (active sk) idx = Some true →
         slot sk idx = Some (7, 50, 100%float, true)).
Proof.
  assert (0 ≤ count new_OrderSide < MAX_ORDERS_PER_SIDE) as Hc
    by (cbn [new_OrderSide count]; zlia).
  assert (load (active new_OrderSide) (count new_OrderSide) = Some false) as Hf
    by evaluated.
  split; [exact wf_new_OrderSide|]. split; [exact Hc|]. split; [exact Hf|].
  exact (publish_active_last new_OrderSide 7 50 100%float wf_new_OrderSide Hc Hf).
Defined.

(** The memory order of the store to [active] is what keeps it last: with
    a [relaxed] store in its place, the store may be seen first, and a
    reader then finds slot 0 of a new side active with nothing of the
    order in it. *)
Lemma relaxed_store_to_active_overtakes :
  let sts := [StOrderId 0 7; StQuantity 0 50 seq_cst; StPrice 0 100%float;
              StActive 0 true relaxed] in
  let vis := [StActive 0 true relaxed; StOrderId 0 7; StQuantity 0 50 seq_cst;
              StPrice 0 100%float] in
  vis ∈ visibility_orders sts ∧
  (do_stores new_OrderSide (take 1 vis) ≫= λ sk, slot sk 0)
    = Some (0, 0, 0%float, true).
Proof.
  intros sts vis. split; [|evaluated].
  assert (visibility_orders sts !! 9%nat = Some vis) as Hvis by reflexivity.
  by eapply list_elem_of_lookup_2.
Qed.

(** * The edges of [matchOrder] and [addOrder] *)

(** [matchOrder] is [match_book] on the book of its ticker. *)
Lemma matchOrder_match_book ticker m :
  matchOrder ticker m =
    ob ← load (orderBooks m) ticker;
    '(ob', o) ← match_book ticker ob;
    obs ← store (orderBooks m) ticker ob';
    Some (mkMarket obs (globalOrderId m), o).
Proof.
  unfold matchOrder, match_book.
  destruct (load (orderBooks m) ticker) as [ob|] eqn:Hob; simpl; [|done].
  destruct (select ob) as [[b s]|]; simpl; [|done].
  case_decide.
  - destruct (execute ticker ob b.1 s.1 s.2) as [[ob' t]|]; simpl; [|done]. done.
  - simpl. rewrite (store_same _ _ _ Hob). simpl. by destruct m.
Qed.

(** X1. A trade never goes through a limit: the bid selected for a trade is
    priced at or above the price of the trade, which is the price of the
    selected ask; both prices are numbers, the bid above -1.0 and the ask
    below 1e9. *)
Theorem matchOrder_within_limits ticker m m' tr :
  matchOrder ticker m = Some (m', Some tr) →
  ∃ ob bi bp si sp,
    load (orderBooks m) ticker = Some ob ∧
    select ob = Some ((bi, bp), (si, sp)) ∧
    load (price (buy ob)) bi = Some bp ∧
    load (price (sell ob)) si = Some sp ∧
    trade_price tr = sp ∧
    PrimFloat.leb (trade_price tr) bp = true ∧
    PrimFloat.ltb (-1) bp = true ∧ PrimFloat.ltb sp 1e9 = true.
Proof.
  intros (ob & ob' & bi & bp & si & sp & Hob & _ & Hsel & (Hbi & Hsi & Hle) &
          [_ Hb] & [_ Hs] & Hex & _)%matchOrder_trade.
  apply execute_spec in Hex as (qb & qs & bid & sid & _ & _ & _ & _ & ->).
  pose proof (select_spec _ _ _ Hsel) as [Hsb Hss].
  exists ob, bi, bp, si, sp. cbn [trade_price fst snd] in *.
  split; [done|]. split; [done|]. split; [apply Hb|]. split; [apply Hs|].
  split; [done|]. split; [done|]. split.
  - exact (scan_side_selected_beats buy_better _ _ _ _ _ Hsb Hbi).
  - exact (scan_side_selected_beats sell_better _ _ _ _ _ Hss Hsi).
Qed.

(** The bid of 30 at 100 against the ask of 50 at 90. *)
Lemma matchOrder_within_limits_witness :
  ∃ m' tr,
    matchOrder 0 (after crossing_orders) = Some (m', Some tr) ∧
    ∃ ob bi bp si sp,
      load (orderBooks (after crossing_orders)) 0 = Some ob ∧
      select ob = Some ((bi, bp), (si, sp)) ∧
      load (price (buy ob)) bi = Some bp ∧
      load (price (sell ob)) si = Some sp ∧
      trade_price tr = sp ∧
      PrimFloat.leb (trade_price tr) bp = true ∧
      PrimFloat.ltb (-1) bp = true ∧ PrimFloat.ltb sp 1e9 = true.
Proof.
  assert (match matchOrder 0 (after crossing_orders) ≫= snd with
          | Some _ => true | None => false end = true) as Hrun by evaluated.
  destruct (matchOrder 0 (after crossing_orders)) as [[m' [tr|]]|] eqn:Hm;
    [|discriminate Hrun..].
  exists m', tr. split; [reflexivity|].
  exact (matchOrder_within_limits 0 _ m' tr Hm).
Defined.

(** X2. A trade writes the quantity and the active flag of the two selected
    slots and nothing else: the order ids, the prices and the counters of
    the book, every other slot of the two sides, every other book and the
    order id counter are as before. *)
Theorem matchOrder_frame ticker m m' tr :
  matchOrder ticker m = Some (m', Some tr) →
  ∃ ob ob' bi bp si sp,
    load (orderBooks m) ticker = Some ob ∧
    load (orderBooks m') ticker = Some ob' ∧
    select ob = Some ((bi, bp), (si, sp)) ∧
    (∀ type, orderId (side_of type ob') = orderId (side_of type ob) ∧
             price (side_of type ob') = price (side_of type ob) ∧
             count (side_of type ob') = count (side_of type ob)) ∧
    (∀ j, j ≠ bi →
       load (quantity (buy ob')) j = load (quantity (buy ob)) j ∧
       load (active (buy ob')) j = load (active (buy ob)) j) ∧
    (∀ j, j ≠ si →
       load (quantity (sell ob')) j = load (quantity (sell ob)) j ∧
       load (active (sell ob')) j = load (active (sell ob)) j) ∧
    (∀ t, t ≠ ticker → load (orderBooks m') t = load (orderBooks m) t) ∧
    globalOrderId m' = globalOrderId m.
Proof.
  intros (ob & ob' & bi & bp & si & sp & Hob & Hob' & Hsel & _ & _ & _ & Hex & Hst & Hg)
    %matchOrder_trade.
  apply execute_spec in Hex as (qb & qs & bid & sid & Hfb & Hfs & _).
  exists ob, ob', bi, bp, si, sp.
  split; [done|]. split; [done|]. split; [done|]. split; [|split; [|split; [|split]]].
  - intros []; cbn [side_of].
    + destruct Hfb as (_ & _ & _ & ? & ? & ?). done.
    + destruct Hfs as (_ & _ & _ & ? & ? & ?). done.
  - intros j Hj.
    rewrite (filled_quantity _ _ _ _ _ j Hfb), (filled_active _ _ _ _ _ j Hfb).
    by rewrite !decide_False by (intros ?; intuition congruence).
  - intros j Hj.
    rewrite (filled_quantity _ _ _ _ _ j Hfs), (filled_active _ _ _ _ _ j Hfs).
    by rewrite !decide_False by (intros ?; intuition congruence).
  - intros t Ht. by eapply load_store_ne.
  - done.
Qed.

(** The bid of 30 at 100 against the ask of 50 at 90. *)
Lemma matchOrder_frame_witness :
  ∃ m' tr,
    matchOrder 0 (after crossing_orders) = Some (m', Some tr) ∧
    ∃ ob ob' bi bp si sp,
      load (orderBooks (after crossing_orders)) 0 = Some ob ∧
      load (orderBooks m') 0 = Some ob' ∧
      select ob = Some ((bi, bp), (si, sp)) ∧
      (∀ type, orderId (side_of type ob') = orderId (side_of type ob) ∧
               price (side_of type ob') = price (side_of type ob) ∧
               count (side_of type ob') = count (side_of type ob)) ∧
      (∀ j, j ≠ bi →
         load (quantity (buy ob')) j = load (quantity (buy ob)) j ∧
         load (active (buy ob')) j = load (active (buy ob)) j) ∧
      (∀ j, j ≠ si →
         load (quantity (sell ob')) j = load (quantity (sell ob)) j ∧
         load (active (sell ob')) j = load (active (sell ob)) j) ∧
      (∀ t, t ≠ 0 → load (orderBooks m') t = load (orderBooks (after crossing_orders)) t) ∧
      globalOrderId m' = globalOrderId (after crossing_orders).
Proof.
  assert (match matchOrder 0 (after crossing_orders) ≫= snd with
          | Some _ => true | None => false end = true) as Hrun by evaluated.
  destruct (matchOrder 0 (after crossing_orders)) as [[m' [tr|]]|] eqn:Hm;
    [|discriminate Hrun..].
  exists m', tr. split; [reflexivity|].
  exact (matchOrder_frame 0 _ m' tr Hm).
Defined.

(** * [matchOrder] book by book *)

Lemma book_load m ticker ob : load (orderBooks m) ticker = Some ob → book m ticker = ob.
Proof. unfold book. by intros ->. Qed.

Lemma book_others m m' u :
  load (orderBooks m') u = load (orderBooks m) u → book m' u = book m u.
Proof. unfold book. by intros ->. Qed.

(** What [matchOrder] does to the books. *)
Lemma matchOrder_books ticker m m' o :
  matchOrder ticker m = Some (m', o) →
  0 ≤ ticker < Z.of_nat (length (orderBooks m)) ∧
  load (orderBooks m) ticker = Some (book m ticker) ∧
  load (orderBooks m') ticker = Some (book m' ticker) ∧
  match_book ticker (book m ticker) = Some (book m' ticker, o) ∧
  (∀ u, u ≠ ticker → load (orderBooks m') u = load (orderBooks m) u) ∧
  globalOrderId m' = globalOrderId m ∧
  orderBooks m' = <[Z.to_nat ticker := book m' ticker]> (orderBooks m).
Proof.
  rewrite matchOrder_match_book.
  destruct (load (orderBooks m) ticker) as [ob|] eqn:Hob; simpl; [|done].
  destruct (match_book ticker ob) as [[ob' o']|] eqn:Hmb; simpl; [|done].
  destruct (store (orderBooks m) ticker ob') as [obs|] eqn:Hst; simpl; [|done].
  intros [= <- <-]. cbn [orderBooks globalOrderId].
  pose proof (load_store_eq _ _ _ _ Hst) as Hob'.
  rewrite (book_load _ _ _ Hob).
  assert (book (mkMarket obs (globalOrderId m)) ticker = ob') as -> by by apply book_load.
  split; [by eapply load_Some_range|]. split; [done|]. split; [done|]. split; [done|].
  split; [|split; [done|]].
  - intros u Hu. by eapply load_store_ne.
  - by apply store_Some in Hst as [_ <-].
Qed.

Lemma matchOrder_of_book ticker m ob' o :
  0 ≤ ticker < Z.of_nat (length (orderBooks m)) →
  match_book ticker (book m ticker) = Some (ob', o) →
  matchOrder ticker m =
    Some (mkMarket (<[Z.to_nat ticker := ob']> (orderBooks m)) (globalOrderId m), o).
Proof.
  intros Ht Hmb. rewrite matchOrder_match_book.
  destruct (load_in_range (orderBooks m) ticker Ht) as [ob Hob].
  rewrite Hob. simpl. rewrite (book_load _ _ _ Hob) in Hmb. rewrite Hmb. simpl.
  by rewrite store_in_range.
Qed.

Lemma matchOrder_undefined_book ticker m :
  match_book ticker (book m ticker) = None → matchOrder ticker m = None.
Proof.
  intros Hmb. rewrite matchOrder_match_book.
  destruct (load (orderBooks m) ticker) as [ob|] eqn:Hob; simpl; [|done].
  rewrite (book_load _ _ _ Hob) in Hmb. by rewrite Hmb.
Qed.

(** ** The quantity that can still trade *)

Lemma sumZ_nonneg (l : list Z) : Forall (λ x, 0 ≤ x) l → 0 ≤ sumZ l.
Proof. induction 1; simpl; lia. Qed.

Lemma live_side_nonneg s : 0 ≤ live_side s.
Proof.
  unfold live_side. apply sumZ_nonneg.
  generalize (quantity s). induction (active s) as [|a l IH]; intros [|q qs]; simpl;
    try constructor; [destruct a; lia | apply IH].
Qed.

Lemma live_side_update s s' i (a : bool) (q : Z) (a0 : bool) (q0 : Z) :
  load (active s) i = Some a0 → load (quantity s) i = Some q0 →
  active s' = <[Z.to_nat i := a]> (active s) →
  quantity s' = <[Z.to_nat i := q]> (quantity s) →
  live_side s' =
    live_side s - (if a0 then Z.max q0 0 else 0) + (if a then Z.max q 0 else 0).
Proof.
  unfold load, live_side. case_decide; [|done]. intros Ha0 Hq0 -> ->.
  rewrite <- insert_zip_with. apply sumZ_insert.
  by rewrite lookup_zip_with, Ha0, Hq0.
Qed.

(** A fill takes the traded quantity out of what can still trade. *)
Lemma live_side_filled s j tq q s' p :
  wf_side s → eligible s j p → filled s j tq q s' → 0 < tq ≤ q →
  live_side s' = live_side s - tq.
Proof.
  intros Hwf (Ha & _ & _) (Hq & [Hr Hq']%store_Some & Hact & _) Htq.
  assert (is_int q) as Hint by exact (Forall_load _ _ _ _ (wf_quantity_int _ Hwf) Hq).
  rewrite wrap_int_id in Hq', Hact by zlia.
  destruct (decide (q - tq = 0)) as [Hz|Hz].
  - apply store_Some in Hact as [_ Hact].
    rewrite (live_side_update s s' j false (q - tq) true q) by done. lia.
  - assert (active s' = <[Z.to_nat j := true]> (active s)) as Hact'.
    { rewrite Hact. symmetry. apply list_insert_id.
      revert Ha. unfold load. by case_decide. }
    rewrite (live_side_update s s' j true (q - tq) true q) by done. lia.
Qed.

(** What [match_book] does to a book. *)
Lemma match_book_spec ticker ob ob' o :
  wf_book ob → match_book ticker ob = Some (ob', o) →
  wf_book ob' ∧
  (∀ type, count (side_of type ob') = count (side_of type ob)) ∧
  match o with
  | None => ob' = ob
  | Some tr =>
      trade_ticker tr = ticker ∧ 0 < trade_quantity tr ∧
      live_side (buy ob') = live_side (buy ob) - trade_quantity tr ∧
      live_side (sell ob') = live_side (sell ob) - trade_quantity tr
  end.
Proof.
  intros Hwf. unfold match_book.
  destruct (select ob) as [[b s]|] eqn:Hsel; simpl; [|done].
  case_decide as Hc.
  - destruct (execute ticker ob b.1 s.1 s.2) as [[ob1 t]|] eqn:Hex; simpl; [|done].
    intros [= <- <-]. destruct Hc as (Hb & Hs & _).
    apply select_indices in Hsel as [Hbi Hsi].
    destruct (Hbi Hb) as [_ Heb]. destruct (Hsi Hs) as [_ Hes].
    pose proof (execute_wf _ _ _ _ _ _ _ Hwf Hex) as Hwf'.
    apply execute_spec in Hex as (qb & qs & bid & sid & Hfb & Hfs & _ & _ & ->).
    destruct Hwf as [Hwb Hws]. cbn [trade_ticker trade_quantity].
    assert (0 < qb) as Hqb.
    { destruct Heb as (_ & (q & Hq & ?) & _), Hfb as (Hq' & _). congruence. }
    assert (0 < qs) as Hqs.
    { destruct Hes as (_ & (q & Hq & ?) & _), Hfs as (Hq' & _). congruence. }
    split; [done|]. split.
    + intros []; cbn [side_of]; [apply Hfb | apply Hfs].
    + split; [done|]. split; [lia|]. split.
      * apply (live_side_filled _ _ _ _ _ _ Hwb Heb Hfb). lia.
      * apply (live_side_filled _ _ _ _ _ _ Hws Hes Hfs). lia.
  - by intros [= <- <-].
Qed.

Lemma match_book_ticker ticker ob ob' tr :
  match_book ticker ob = Some (ob', Some tr) → trade_ticker tr = ticker.
Proof.
  unfold match_book.
  destruct (select ob) as [[b s]|]; simpl; [|done].
  case_decide; [|done].
  destruct (execute ticker ob b.1 s.1 s.2) as [[ob1 t]|] eqn:Hex; simpl; [|done].
  intros [= <- <-].
  by apply execute_spec in Hex as (qb & qs & bid & sid & _ & _ & _ & _ & ->).
Qed.

Lemma match_book_quiet ticker ob ob' :
  match_book ticker ob = Some (ob', None) → ob' = ob.
Proof.
  unfold match_book.
  destruct (select ob) as [[b s]|]; simpl; [|done].
  case_decide; [|by intros [= <-]].
  by destruct (execute ticker ob b.1 s.1 s.2) as [[ob1 t]|].
Qed.

(** [match_book] is defined exactly when its two scans stay inside the
    arrays. *)
Lemma match_book_defined ticker ob :
  wf_book ob →
  (is_Some (match_book ticker ob) ↔
   count (buy ob) ≤ MAX_ORDERS_PER_SIDE ∧ count (sell ob) ≤ MAX_ORDERS_PER_SIDE).
Proof.
  intros Hwf. split.
  - intros [r Hr].
    destruct (decide (count (buy ob) ≤ MAX_ORDERS_PER_SIDE ∧
                      count (sell ob) ≤ MAX_ORDERS_PER_SIDE)) as [|Hn]; [done|].
    unfold match_book in Hr. rewrite select_out_of_range in Hr; [done | done | lia].
  - intros [Hb Hs]. unfold match_book.
    destruct (select_in_range ob Hwf Hb Hs) as [[b s] Hsel]. rewrite Hsel. simpl.
    case_decide as Hc; [|done].
    destruct Hc as (Hbi & Hsi & _).
    apply select_indices in Hsel as [Hb' Hs'].
    destruct (Hb' Hbi) as [? _]. destruct (Hs' Hsi) as [? _].
    destruct (execute_in_range ticker ob b.1 s.1 s.2 Hwf) as [[ob' tr] ->]; [lia | lia |].
    done.
Qed.

(** X3. On a well-formed market, [matchOrder] stays inside the arrays
    exactly when the ticker is one of the [NUM_TICKERS] and both counters
    of its book are at most [MAX_ORDERS_PER_SIDE]: its loops run to the
    counter, not to the capacity, so a side that has turned an order away
    is read beyond its last slot. *)
Theorem matchOrder_defined ticker m :
  wf_market m →
  (is_Some (matchOrder ticker m) ↔
   0 ≤ ticker < NUM_TICKERS ∧
   count (buy (book m ticker)) ≤ MAX_ORDERS_PER_SIDE ∧
   count (sell (book m ticker)) ≤ MAX_ORDERS_PER_SIDE).
Proof.
  intros Hm. pose proof (wf_orderBooks _ Hm) as Hlen. split.
  - intros [[m' o] Hrun].
    apply matchOrder_books in Hrun as (Ht & Hob & _ & Hmb & _).
    split; [lia|].
    apply (match_book_defined ticker); [by eapply wf_market_book | by eexists].
  - intros (Ht & Hc).
    pose proof (load_book m ticker Hm Ht) as Hob.
    apply (match_book_defined ticker) in Hc as [[ob' o] Hmb]; [|by eapply wf_market_book].
    assert (0 ≤ ticker < Z.of_nat (length (orderBooks m))) as Hr by lia.
    rewrite (matchOrder_of_book _ _ _ _ Hr Hmb). by eexists.
Qed.

(** After 1001 bids on ticker 0, the last of them turned away, the counter
    of the buy side is at 1001 and [matchOrder] reads beyond the arrays. *)
Lemma matchOrder_defined_witness :
  wf_market (after one_bid_too_many) ∧
  count (buy (book (after one_bid_too_many) 0)) = 1001 ∧
  matchOrder 0 (after one_bid_too_many) = None.
Proof.
  assert (wf_market (after one_bid_too_many)) as Hm by apply wf_after, int_args_bids.
  assert (count (buy (book (after one_bid_too_many) 0)) = 1001) as Hc by evaluated.
  split; [exact Hm|]. split; [exact Hc|].
  destruct (matchOrder 0 (after one_bid_too_many)) as [r|] eqn:Hrun; [|reflexivity].
  exfalso.
  destruct (proj1 (matchOrder_defined 0 (after one_bid_too_many) Hm)) as (_ & Hb & _).
  - rewrite Hrun. by eexists.
  - rewrite Hc in Hb. zlia.
Defined.

(** X4. On a well-formed market, [addOrder] stays inside the arrays
    exactly when the ticker is one of the [NUM_TICKERS] and the counter of
    the side is not negative: it checks neither the ticker nor the lower
    bound of the index that [fetch_add] returns. *)
Theorem addOrder_defined type ticker qty px m :
  wf_market m →
  (is_Some (addOrder type ticker qty px m) ↔
   0 ≤ ticker < NUM_TICKERS ∧ 0 ≤ count (side_of type (book m ticker))).
Proof.
  intros Hm. pose proof (wf_orderBooks _ Hm) as Hlen. split.
  - intros [[m' r] (ob & s' & Hob & Hadd & _)%addOrder_spec].
    pose proof (load_Some_range _ _ _ Hob) as Hr. split; [lia|].
    rewrite (book_load _ _ _ Hob).
    destruct (decide (0 ≤ count (side_of type ob))) as [|Hn]; [done|].
    rewrite add_to_side_out_of_range in Hadd; [done | lia].
  - intros [Ht Hc]. pose proof (load_book m ticker Hm Ht) as Hob.
    by eapply addOrder_in_range.
Qed.

(** A submission for ticker 1024 writes beyond [orderBooks]. *)
Lemma addOrder_defined_witness :
  wf_market initial ∧ addOrder BUY 1024 1 1%float initial = None.
Proof.
  split; [exact wf_initial|].
  destruct (addOrder BUY 1024 1 1%float initial) as [r|] eqn:Hrun; [|reflexivity].
  exfalso.
  destruct (proj1 (addOrder_defined BUY 1024 1 1%float initial wf_initial)) as [Ht _].
  - rewrite Hrun. by eexists.
  - zlia.
Defined.

(** X5. Once [addOrder] has turned an order away from a side, with the
    counter of the side below [INT_MAX], the next [matchOrder] on that
    ticker reads beyond the arrays: the counter has gone past the
    capacity, and the scan of [matchOrder] runs to the counter. *)
Theorem matchOrder_after_book_full type ticker qty px m m' :
  wf_market m → addOrder type ticker qty px m = Some (m', BookFull) →
  count (side_of type (book m ticker)) < INT_MAX →
  MAX_ORDERS_PER_SIDE < count (side_of type (book m' ticker)) ∧
  matchOrder ticker m' = None.
Proof.
  intros Hm Hadd Hc.
  destruct (addOrder_spec _ _ _ _ _ _ _ Hadd) as (ob & s0 & Hob & _).
  rewrite (book_load _ _ _ Hob) in Hc.
  destruct (addOrder_book _ _ _ _ _ _ _ _ Hadd Hob) as (s' & Hs' & Hob' & _).
  apply add_to_side_spec in Hs' as [(_ & [=] & _) | (Hfull & _ & ->)].
  pose proof (wf_market_book _ _ _ Hm Hob) as [Hb Hs].
  assert (is_int (count (side_of type ob))) as Hint
    by (destruct type; cbn [side_of]; [apply Hb | apply Hs]).
  assert (wf_book (set_side type ob
                    (set_count (side_of type ob) (wrap_int (count (side_of type ob) + 1)))))
    as Hwf'.
  { destruct type; cbn [set_side side_of]; split; cbn [buy sell];
      done || by apply set_count_wf. }
  rewrite wrap_int_id in Hob', Hwf' by zlia.
  rewrite (book_load _ _ _ Hob'), side_of_set_side. cbn [set_count count].
  split; [lia|].
  apply matchOrder_undefined_book. rewrite (book_load _ _ _ Hob').
  unfold match_book. rewrite (select_out_of_range _ Hwf'); [done|].
  destruct type; cbn [set_side side_of buy sell set_count count] in *; [left | right]; lia.
Qed.

(** The bid after 1000 bids on ticker 0 is turned away, and [matchOrder]
    on ticker 0 then reads beyond the arrays. *)
Lemma matchOrder_after_book_full_witness :
  ∃ m',
    wf_market (after (bids 1000)) ∧
    addOrder BUY 0 1 1%float (after (bids 1000)) = Some (m', BookFull) ∧
    count (side_of BUY (book (after (bids 1000)) 0)) < INT_MAX ∧
    MAX_ORDERS_PER_SIDE < count (side_of BUY (book m' 0)) ∧
    matchOrder 0 m' = None.
Proof.
  assert (wf_market (after (bids 1000))) as Hm by apply wf_after, int_args_bids.
  assert (count (side_of BUY (book (after (bids 1000)) 0)) = 1000) as Hc by evaluated.
  assert (load (orderBooks (after (bids 1000))) 0 = Some (book (after (bids 1000)) 0))
    as Hob by (apply load_book; [exact Hm | zlia]).
  assert (MAX_ORDERS_PER_SIDE ≤ count (side_of BUY (book (after (bids 1000)) 0)))
    as Hfull by (rewrite Hc; zlia).
  assert (count (side_of BUY (book (after (bids 1000)) 0)) < INT_MAX)
    as Hmax by (rewrite Hc; zlia).
  pose proof (addOrder_full BUY 0 1 1%float _ _ Hob Hfull) as Hadd.
  eexists. split; [exact Hm|]. split; [exact Hadd|]. split; [exact Hmax|].
  exact (matchOrder_after_book_full BUY 0 1 1%float _ _ Hm Hadd Hmax).
Defined.

(** * One cycle of [matchOrdersContinuously] *)

Lemma filter_ticker_other (u : Z) (P : Z → Prop) (ts : list Trade) :
  Forall (λ tr, P (trade_ticker tr)) ts → ¬ P u →
  filter (λ tr, trade_ticker tr = u) ts = [].
Proof.
  intros Hts Hu. induction Hts as [|tr ts Htr _ IH]; [done|].
  rewrite filter_cons_False; [done|]. intros Heq. by rewrite Heq in Htr.
Qed.

Lemma filter_option_list (u t : Z) (o : option Trade) :
  (∀ tr, o = Some tr → trade_ticker tr = t) →
  filter (λ tr, trade_ticker tr = u) (option_list o) =
    if decide (u = t) then option_list o else [].
Proof.
  intros Ho. destruct o as [tr|]; simpl; [|by case_decide].
  pose proof (Ho tr eq_refl) as Htr.
  case_decide; [rewrite filter_cons_True by congruence
               | rewrite filter_cons_False by congruence]; done.
Qed.

Lemma sweep_from_spec n : ∀ t m m' ts,
  sweep_from n t m = Some (m', ts) →
  globalOrderId m' = globalOrderId m ∧
  (∀ u, ¬ (t ≤ u < t + Z.of_nat n) → load (orderBooks m') u = load (orderBooks m) u) ∧
  (∀ u, t ≤ u < t + Z.of_nat n →
     ∃ o, match_book u (book m u) = Some (book m' u, o) ∧
          filter (λ tr, trade_ticker tr = u) ts = option_list o) ∧
  Forall (λ tr, t ≤ trade_ticker tr < t + Z.of_nat n) ts ∧
  StronglySorted Z.lt (trade_ticker <$> ts).
Proof.
  induction n as [|n IH]; intros t m m' ts; cbn [sweep_from].
  - intros [= <- <-]. split; [done|]. split; [done|]. split; [intros; lia|].
    split; constructor.
  - destruct (matchOrder t m) as [[m1 o]|] eqn:Hm1; simpl; [|done].
    destruct (sweep_from n (t + 1) m1) as [[m2 ts']|] eqn:Hm2; simpl; [|done].
    intros [= <- <-].
    apply matchOrder_books in Hm1 as (_ & _ & _ & Hmb & Hothers & Hg & _).
    destruct (IH _ _ _ _ Hm2) as (Hg' & Hout & Hin & Hts & Hsorted).
    assert (∀ tr, o = Some tr → trade_ticker tr = t) as Hot.
    { intros tr ->. by eapply match_book_ticker. }
    split; [congruence|]. split; [|split; [|split]].
    + intros u Hu. rewrite Hout by lia. apply Hothers. lia.
    + intros u Hu. rewrite filter_app, (filter_option_list u t o Hot).
      destruct (decide (u = t)) as [->|Hne].
      * exists o. rewrite (book_others m1 m2 t) by (apply Hout; lia).
        split; [done|].
        rewrite (filter_ticker_other t (λ x, t + 1 ≤ x < t + 1 + Z.of_nat n) ts' Hts)
          by lia.
        by rewrite app_nil_r.
      * destruct (Hin u ltac:(lia)) as (o' & Hmb' & Hf).
        exists o'. rewrite <- (book_others m m1 u) by (apply Hothers; lia).
        done.
    + apply Forall_app. split.
      * destruct o as [tr|]; simpl; constructor; [|done]. rewrite (Hot tr eq_refl). lia.
      * eapply Forall_impl; [exact Hts|]. simpl. intros; lia.
    + rewrite fmap_app. destruct o as [tr|]; simpl; [|done].
      constructor; [done|]. rewrite (Hot tr eq_refl).
      apply Forall_fmap. eapply Forall_impl; [exact Hts|]. simpl. intros; lia.
Qed.

Lemma sweep_from_defined n : ∀ t m,
  wf_market m → 0 ≤ t → t + Z.of_nat n ≤ NUM_TICKERS →
  (∀ u, t ≤ u < t + Z.of_nat n →
     count (buy (book m u)) ≤ MAX_ORDERS_PER_SIDE ∧
     count (sell (book m u)) ≤ MAX_ORDERS_PER_SIDE) →
  is_Some (sweep_from n t m).
Proof.
  induction n as [|n IH]; intros t m Hm Ht Hn Hc; cbn [sweep_from]; [done|].
  pose proof (load_book m t Hm ltac:(lia)) as Hob.
  destruct (proj2 (match_book_defined t (book m t) (wf_market_book _ _ _ Hm Hob)))
    as [[ob' o] Hmb]; [apply Hc; lia|].
  assert (0 ≤ t < Z.of_nat (length (orderBooks m))) as Hr
    by (rewrite (wf_orderBooks _ Hm); lia).
  pose proof (matchOrder_of_book _ _ _ _ Hr Hmb) as Hrun. rewrite Hrun. simpl.
  pose proof (matchOrder_wf _ _ _ _ Hm Hrun) as Hm1.
  apply matchOrder_books in Hrun as (_ & _ & _ & _ & Hothers & _).
  destruct (IH (t + 1) _ Hm1) as [[m2 ts] ->]; [lia | lia | | done].
  intros u Hu. rewrite (book_others m _ u) by (apply Hothers; lia). apply Hc. lia.
Qed.

(** X6. On a well-formed market, one cycle of the matcher stays inside the
    arrays exactly when every counter of every book is at most
    [MAX_ORDERS_PER_SIDE]: one side that has turned an order away is
    enough for the cycle to read beyond the arrays. *)
Theorem sweep_defined m :
  wf_market m →
  (is_Some (sweep m) ↔
   ∀ ticker, 0 ≤ ticker < NUM_TICKERS →
     count (buy (book m ticker)) ≤ MAX_ORDERS_PER_SIDE ∧
     count (sell (book m ticker)) ≤ MAX_ORDERS_PER_SIDE).
Proof.
  intros Hm. unfold sweep. split.
  - intros [[m' ts] Hrun] t Ht.
    apply sweep_from_spec in Hrun as (_ & _ & Hin & _).
    destruct (Hin t) as (o & Hmb & _); [zlia|].
    apply (match_book_defined t); [|by eexists].
    eapply wf_market_book; [done|]. by apply load_book.
  - intros Hc. apply sweep_from_defined; [done | lia | zlia |].
    intros u Hu. apply Hc. zlia.
Qed.

(** The cycle is defined after the bid of 30 at 100 and the ask of 50 at
    90, and undefined after 1001 bids on ticker 0. *)
Lemma sweep_defined_witness :
  wf_market (after crossing_orders) ∧ is_Some (sweep (after crossing_orders)) ∧
  wf_market (after one_bid_too_many) ∧ sweep (after one_bid_too_many) = None.
Proof.
  assert (wf_market (after crossing_orders)) as Hm by (apply wf_after; int_ops).
  assert (wf_market (after one_bid_too_many)) as Hm' by apply wf_after, int_args_bids.
  assert (count (buy (book (after one_bid_too_many) 0)) = 1001) as Hc by evaluated.
  split; [exact Hm|]. split; [|split; [exact Hm'|]].
  - apply is_Some_evaluated. evaluated.
  - destruct (sweep (after one_bid_too_many)) as [r|] eqn:Hrun; [|reflexivity].
    exfalso.
    destruct (proj1 (sweep_defined (after one_bid_too_many) Hm') (ex_intro _ r Hrun) 0)
      as [Hb _]; [zlia|].
    rewrite Hc in Hb. zlia.
Defined.

(** X7. One cycle of the matcher does to the book of each ticker what a
    single call of [matchOrder] for that ticker does on the market of the
    start of the cycle, and prints for that ticker the trade of that
    call, if any: the calls of a cycle do not interfere. *)
Theorem sweep_per_ticker m m' ts ticker :
  wf_market m → sweep m = Some (m', ts) → 0 ≤ ticker < NUM_TICKERS →
  ∃ m1 o,
    matchOrder ticker m = Some (m1, o) ∧
    book m' ticker = book m1 ticker ∧
    filter (λ tr, trade_ticker tr = ticker) ts = option_list o.
Proof.
  intros Hm Hrun Ht. unfold sweep in Hrun.
  apply sweep_from_spec in Hrun as (_ & _ & Hin & _).
  destruct (Hin ticker) as (o & Hmb & Hf); [zlia|].
  assert (0 ≤ ticker < Z.of_nat (length (orderBooks m))) as Hr
    by (rewrite (wf_orderBooks _ Hm); lia).
  pose proof (matchOrder_of_book _ _ _ _ Hr Hmb) as Hone.
  eexists _, o. split; [exact Hone|]. split; [|done].
  symmetry. apply book_load. cbn [orderBooks].
  eapply load_store_eq, store_in_range. lia.
Qed.

(** The cycle after the bid of 30 at 100 and the ask of 50 at 90 on ticker
    0. *)
Lemma sweep_per_ticker_witness :
  ∃ m' ts,
    wf_market (after crossing_orders) ∧
    sweep (after crossing_orders) = Some (m', ts) ∧ 0 ≤ 0 < NUM_TICKERS ∧
    ∃ m1 o,
      matchOrder 0 (after crossing_orders) = Some (m1, o) ∧
      book m' 0 = book m1 0 ∧
      filter (λ tr, trade_ticker tr = 0) ts = option_list o.
Proof.
  assert (wf_market (after crossing_orders)) as Hm by (apply wf_after; int_ops).
  assert (is_Some (sweep (after crossing_orders))) as [[m' ts] Hrun]
    by (apply is_Some_evaluated; evaluated).
  assert (0 ≤ 0 < NUM_TICKERS) as Ht by zlia.
  exists m', ts. split; [exact Hm|]. split; [exact Hrun|]. split; [exact Ht|].
  exact (sweep_per_ticker _ m' ts 0 Hm Hrun Ht).
Defined.

(** X8. The trades of one cycle are printed in strictly ascending order of
    ticker, each for one of the [NUM_TICKERS]: a cycle executes at most
    one trade per ticker, however many orders cross. *)
Theorem sweep_trades_ascending m m' ts :
  sweep m = Some (m', ts) →
  StronglySorted Z.lt (trade_ticker <$> ts) ∧
  Forall (λ tr, 0 ≤ trade_ticker tr < NUM_TICKERS) ts ∧
  ∀ ticker, (length (filter (λ tr, trade_ticker tr = ticker) ts) ≤ 1)%nat.
Proof.
  intros Hrun. unfold sweep in Hrun.
  apply sweep_from_spec in Hrun as (_ & _ & Hin & Hts & Hsorted).
  split; [done|]. split.
  - eapply Forall_impl; [exact Hts|]. simpl. intros. zlia.
  - intros t. destruct (decide (0 ≤ t < 0 + Z.of_nat (Z.to_nat NUM_TICKERS))) as [Ht|Ht].
    + destruct (Hin t Ht) as (o & _ & ->). destruct o; simpl; lia.
    + rewrite (filter_ticker_other t (λ x, 0 ≤ x < 0 + Z.of_nat (Z.to_nat NUM_TICKERS))
                 ts Hts Ht). simpl. lia.
Qed.

(** Two bids and two asks that cross on ticker 0: one trade in the
    cycle. *)
Lemma sweep_trades_ascending_witness :
  ∃ m' ts,
    sweep (after tied_orders) = Some (m', ts) ∧
    StronglySorted Z.lt (trade_ticker <$> ts) ∧
    Forall (λ tr, 0 ≤ trade_ticker tr < NUM_TICKERS) ts ∧
    ∀ ticker, (length (filter (λ tr, trade_ticker tr = ticker) ts) ≤ 1)%nat.
Proof.
  assert (is_Some (sweep (after tied_orders))) as [[m' ts] Hrun]
    by (apply is_Some_evaluated; evaluated).
  exists m', ts. split; [exact Hrun|].
  exact (sweep_trades_ascending _ m' ts Hrun).
Defined.

(** * The cycles of [matchOrdersContinuously] *)

Lemma sumZ_fmap_insert {A} (f : A → Z) (l : list A) (i : nat) (x y : A) :
  l !! i = Some y → sumZ (f <$> <[i := x]> l) = sumZ (f <$> l) - f y + f x.
Proof.
  intros Hy. rewrite list_fmap_insert. apply sumZ_insert.
  by rewrite list_lookup_fmap, Hy.
Qed.

Lemma live_nonneg m : 0 ≤ live m.
Proof.
  unfold live. apply sumZ_nonneg, Forall_fmap, Forall_forall.
  intros ob _. apply live_side_nonneg.
Qed.

(** A call of [matchOrder] takes the quantity of its trade out of what can
    still trade, and changes nothing when it does not trade. *)
Lemma matchOrder_live ticker m m' o :
  wf_market m → matchOrder ticker m = Some (m', o) →
  live m' = live m - from_option trade_quantity 0 o ∧
  (∀ tr, o = Some tr → 0 < trade_quantity tr) ∧
  (o = None → m' = m).
Proof.
  intros Hm Hrun.
  destruct (matchOrder_books _ _ _ _ Hrun) as (Ht & Hob & _ & Hmb & _ & Hg & Hobs).
  destruct (match_book_spec _ _ _ _ (wf_market_book _ _ _ Hm Hob) Hmb) as (_ & _ & Ho).
  assert (orderBooks m !! Z.to_nat ticker = Some (book m ticker)) as Hl.
  { revert Hob. unfold load. by case_decide. }
  unfold live. rewrite Hobs, (sumZ_fmap_insert _ _ _ _ _ Hl).
  destruct o as [tr|]; simpl.
  - destruct Ho as (_ & Hq & Hb & _). split; [lia|]. split; [by intros ? [= <-] | done].
  - split; [rewrite Ho; lia|]. split; [done|]. intros _.
    destruct m as [obs g], m' as [obs' g']. cbn [orderBooks globalOrderId] in *.
    subst g'. f_equal. rewrite Hobs, Ho. by apply list_insert_id.
Qed.

Lemma sweep_from_live n : ∀ t m m' ts,
  wf_market m → sweep_from n t m = Some (m', ts) →
  wf_market m' ∧
  live m' = live m - sumZ (trade_quantity <$> ts) ∧
  Forall (λ tr, 0 < trade_quantity tr) ts ∧
  (ts = [] → m' = m).
Proof.
  induction n as [|n IH]; intros t m m' ts Hm; cbn [sweep_from].
  - intros [= <- <-]. split; [done|]. split; [simpl; lia|]. split; [constructor | done].
  - destruct (matchOrder t m) as [[m1 o]|] eqn:Hm1; simpl; [|done].
    destruct (sweep_from n (t + 1) m1) as [[m2 ts']|] eqn:Hm2; simpl; [|done].
    intros [= <- <-].
    pose proof (matchOrder_wf _ _ _ _ Hm Hm1) as Hwf1.
    destruct (matchOrder_live _ _ _ _ Hm Hm1) as (Hl1 & Hq1 & Hn1).
    destruct (IH _ _ _ _ Hwf1 Hm2) as (Hwf2 & Hl2 & Hq2 & Hn2).
    split; [done|]. split; [|split].
    + rewrite fmap_app. unfold sumZ in *. rewrite foldr_app.
      destruct o as [tr|]; simpl in *; lia.
    + apply Forall_app. split; [|done].
      destruct o as [tr|]; simpl; constructor; [by apply Hq1 | done].
    + intros [Ho ->]%app_eq_nil. destruct o; [done|]. rewrite Hn2, Hn1; done.
Qed.

Lemma sumZ_positive (l : list Z) : Forall (λ x, 0 < x) l → Z.of_nat (length l) ≤ sumZ l.
Proof. induction 1; simpl; lia. Qed.

(** After a cycle without a trade, every cycle is without a trade. *)
Lemma matchOrdersContinuously_quiet n m :
  sweep m = Some (m, []) →
  matchOrdersContinuously n m = Some (m, replicate n []).
Proof.
  intros Hq. induction n as [|n IH]; cbn [matchOrdersContinuously replicate]; [done|].
  rewrite Hq. simpl. by rewrite IH.
Qed.

Lemma matchOrdersContinuously_length n : ∀ m m' tss,
  matchOrdersContinuously n m = Some (m', tss) → length tss = n.
Proof.
  induction n as [|n IH]; intros m m' tss; cbn [matchOrdersContinuously].
  - by intros [= <- <-].
  - destruct (sweep m) as [[m1 ts]|]; simpl; [|done].
    destruct (matchOrdersContinuously n m1) as [[m2 tss']|] eqn:Hrun; simpl; [|done].
    intros [= <- <-]. simpl. f_equal. by eapply IH.
Qed.

(** X9. Left alone, the matcher goes quiet: of any number of cycles on a
    well-formed market, the cycles that print a trade come first, they are
    at most as many as the quantity of the active bids of the market, and
    every cycle after them prints nothing and leaves the market as it
    is. *)
Theorem matchOrdersContinuously_goes_quiet n : ∀ m m' tss,
  wf_market m → matchOrdersContinuously n m = Some (m', tss) →
  ∃ k : nat,
    (k ≤ n)%nat ∧ Z.of_nat k ≤ live m ∧
    Forall (λ ts, ts ≠ []) (take k tss) ∧
    drop k tss = replicate (n - k) [] ∧
    matchOrdersContinuously k m = Some (m', take k tss).
Proof.
  induction n as [|n IH]; intros m m' tss Hm; cbn [matchOrdersContinuously].
  - intros [= <- <-]. exists 0%nat. pose proof (live_nonneg m).
    split; [lia|]. split; [lia|]. split; [constructor|]. done.
  - destruct (sweep m) as [[m1 ts]|] eqn:Hsw; simpl; [|done].
    destruct (matchOrdersContinuously n m1) as [[m2 tss']|] eqn:Hrun; simpl; [|done].
    intros [= <- <-].
    destruct (sweep_from_live _ _ _ _ _ Hm Hsw) as (Hm1 & Hl & Hq & Hn).
    destruct ts as [|tr ts].
    + rewrite (Hn eq_refl) in *.
      rewrite (matchOrdersContinuously_quiet n m Hsw) in Hrun.
      injection Hrun as <- <-.
      exists 0%nat. pose proof (live_nonneg m).
      split; [lia|]. split; [lia|]. split; [constructor|]. done.
    + destruct (IH _ _ _ Hm1 Hrun) as (k & Hk & Hlive & Hbusy & Hrest & Hpre).
      exists (S k). pose proof (sumZ_positive _ (proj2 (Forall_fmap _ _ _) Hq)) as Hsum.
      rewrite length_fmap in Hsum. cbn [length] in Hsum.
      split; [lia|]. split; [lia|]. cbn [take drop matchOrdersContinuously].
      split; [by constructor|]. split; [done|].
      rewrite Hsw. simpl. by rewrite Hpre.
Qed.

(** Ten cycles after the bid of 30 at 100 and the ask of 50 at 90: the
    first cycle trades and the other nine are quiet. *)
Lemma matchOrdersContinuously_goes_quiet_witness :
  ∃ m' tss,
    wf_market (after crossing_orders) ∧
    matchOrdersContinuously 10 (after crossing_orders) = Some (m', tss) ∧
    ∃ k : nat,
      (k ≤ 10)%nat ∧ Z.of_nat k ≤ live (after crossing_orders) ∧
      Forall (λ ts, ts ≠ []) (take k tss) ∧
      drop k tss = replicate (10 - k) [] ∧
      matchOrdersContinuously k (after crossing_orders) = Some (m', take k tss).
Proof.
  assert (wf_market (after crossing_orders)) as Hm by (apply wf_after; int_ops).
  assert (is_Some (matchOrdersContinuously 10 (after crossing_orders)))
    as [[m' tss] Hrun] by (apply is_Some_evaluated; evaluated).
  exists m', tss. split; [exact Hm|]. split; [exact Hrun|].
  exact (matchOrdersContinuously_goes_quiet 10 _ m' tss Hm Hrun).
Defined.

Lemma volume_app ticker ts1 ts2 :
  volume ticker (ts1 ++ ts2) = volume ticker ts1 + volume ticker ts2.
Proof.
  unfold volume, sumZ. rewrite filter_app, fmap_app, foldr_app.
  generalize (trade_quantity <$> filter (λ tr, trade_ticker tr = ticker) ts1).
  intros l. induction l as [|x l IH]; simpl; lia.
Qed.

(** What one cycle does to the book of one ticker. *)
Lemma sweep_conserves m m' ts ticker :
  wf_market m → sweep m = Some (m', ts) → 0 ≤ ticker < NUM_TICKERS →
  0 ≤ volume ticker ts ∧
  live_side (buy (book m' ticker)) = live_side (buy (book m ticker)) - volume ticker ts ∧
  live_side (sell (book m' ticker)) = live_side (sell (book m ticker)) - volume ticker ts ∧
  (∀ type, count (side_of type (book m' ticker)) = count (side_of type (book m ticker))).
Proof.
  intros Hm Hrun Ht. unfold sweep in Hrun.
  apply sweep_from_spec in Hrun as (_ & _ & Hin & _).
  destruct (Hin ticker) as (o & Hmb & Hf); [zlia|].
  pose proof (wf_market_book _ _ _ Hm (load_book m ticker Hm Ht)) as Hwf.
  destruct (match_book_spec _ _ _ _ Hwf Hmb) as (_ & Hc & Ho).
  unfold volume. rewrite Hf.
  destruct o as [tr|]; simpl.
  - destruct Ho as (_ & ? & ? & ?). split; [lia|]. split; [lia|]. split; [lia | done].
  - rewrite Ho. split; [lia|]. split; [lia|]. split; [lia | done].
Qed.

(** X10. Over any number of cycles on a well-formed market, the quantity
    traded at a ticker is what leaves the active bids and what leaves the
    active asks of its book, so the matcher never trades more at a ticker
    than either side held; it changes no counter and takes no order
    id. *)
Theorem matchOrdersContinuously_conserves n : ∀ m m' tss ticker,
  wf_market m → matchOrdersContinuously n m = Some (m', tss) →
  0 ≤ ticker < NUM_TICKERS →
  live_side (buy (book m' ticker))
    = live_side (buy (book m ticker)) - volume ticker (concat tss) ∧
  live_side (sell (book m' ticker))
    = live_side (sell (book m ticker)) - volume ticker (concat tss) ∧
  0 ≤ volume ticker (concat tss)
    ≤ Z.min (live_side (buy (book m ticker))) (live_side (sell (book m ticker))) ∧
  (∀ type, count (side_of type (book m' ticker)) = count (side_of type (book m ticker))) ∧
  globalOrderId m' = globalOrderId m.
Proof.
  assert (∀ n m m' tss ticker,
    wf_market m → matchOrdersContinuously n m = Some (m', tss) →
    0 ≤ ticker < NUM_TICKERS →
    0 ≤ volume ticker (concat tss) ∧
    live_side (buy (book m' ticker))
      = live_side (buy (book m ticker)) - volume ticker (concat tss) ∧
    live_side (sell (book m' ticker))
      = live_side (sell (book m ticker)) - volume ticker (concat tss) ∧
    (∀ type, count (side_of type (book m' ticker)) = count (side_of type (book m ticker))) ∧
    globalOrderId m' = globalOrderId m) as Hall.
  { clear n. induction n as [|n IH]; intros m m' tss ticker Hm;
      cbn [matchOrdersContinuously].
    - intros [= <- <-] _. cbn [concat]. unfold volume. simpl.
      split; [lia|]. split; [lia|]. split; [lia | done].
    - destruct (sweep m) as [[m1 ts]|] eqn:Hsw; simpl; [|done].
      destruct (matchOrdersContinuously n m1) as [[m2 tss']|] eqn:Hrun; simpl; [|done].
      intros [= <- <-] Ht. cbn [concat]. rewrite volume_app.
      destruct (sweep_from_live _ _ _ _ _ Hm Hsw) as (Hm1 & _).
      destruct (sweep_conserves _ _ _ _ Hm Hsw Ht) as (Hv1 & Hb1 & Hs1 & Hc1).
      destruct (IH _ _ _ _ Hm1 Hrun Ht) as (Hv2 & Hb2 & Hs2 & Hc2 & Hg2).
      split; [lia|]. split; [lia|]. split; [lia|]. split.
      + intros type. by rewrite Hc2, Hc1.
      + rewrite Hg2. by apply sweep_from_spec in Hsw as [? _]. }
  intros m m' tss ticker Hm Hrun Ht.
  destruct (Hall n m m' tss ticker Hm Hrun Ht) as (Hv & Hb & Hs & Hc & Hg).
  pose proof (live_side_nonneg (buy (book m' ticker))).
  pose proof (live_side_nonneg (sell (book m' ticker))).
  split; [done|]. split; [done|]. split; [lia|]. done.
Qed.

(** Three cycles after two bids of 5 and 7 at 100 and two asks of 5 and 7
    at 90 on ticker 0. *)
Lemma matchOrdersContinuously_conserves_witness :
  ∃ m' tss,
    wf_market (after tied_orders) ∧
    matchOrdersContinuously 3 (after tied_orders) = Some (m', tss) ∧
    0 ≤ 0 < NUM_TICKERS ∧
    live_side (buy (book m' 0))
      = live_side (buy (book (after tied_orders) 0)) - volume 0 (concat tss) ∧
    live_side (sell (book m' 0))
      = live_side (sell (book (after tied_orders) 0)) - volume 0 (concat tss) ∧
    0 ≤ volume 0 (concat tss)
      ≤ Z.min (live_side (buy (book (after tied_orders) 0)))
              (live_side (sell (book (after tied_orders) 0))) ∧
    (∀ type, count (side_of type (book m' 0))
             = count (side_of type (book (after tied_orders) 0))) ∧
    globalOrderId m' = globalOrderId (after tied_orders).
Proof.
  assert (wf_market (after tied_orders)) as Hm by (apply wf_after; int_ops).
  assert (is_Some (matchOrdersContinuously 3 (after tied_orders)))
    as [[m' tss] Hrun] by (apply is_Some_evaluated; evaluated).
  assert (0 ≤ 0 < NUM_TICKERS) as Ht by zlia.
  exists m', tss. split; [exact Hm|]. split; [exact Hrun|]. split; [exact Ht|].
  exact (matchOrdersContinuously_conserves 3 _ m' tss 0 Hm Hrun Ht).
Defined.

(** * Calls on different tickers *)

(** [matchOrder] and [addOrder] in one piece. *)
Lemma matchOrder_eq ticker m :
  matchOrder ticker m =
    if decide (0 ≤ ticker < Z.of_nat (length (orderBooks m))) then
      '(ob', o) ← match_book ticker (book m ticker);
      Some (mkMarket (<[Z.to_nat ticker := ob']> (orderBooks m)) (globalOrderId m), o)
    else None.
Proof.
  case_decide as Hr.
  - destruct (match_book ticker (book m ticker)) as [[ob' o]|] eqn:Hmb; simpl.
    + by apply matchOrder_of_book.
    + by apply matchOrder_undefined_book.
  - by rewrite matchOrder_match_book, load_out_of_range.
Qed.

Lemma addOrder_eq type ticker qty px m :
  addOrder type ticker qty px m =
    if decide (0 ≤ ticker < Z.of_nat (length (orderBooks m))) then
      '(s, r) ← add_to_side (side_of type (book m ticker)) (globalOrderId m) qty px;
      Some (mkMarket (<[Z.to_nat ticker := set_side type (book m ticker) s]> (orderBooks m))
                     (wrap_int (globalOrderId m + 1)), r)
    else None.
Proof.
  unfold addOrder. case_decide as Hr.
  - destruct (load_in_range (orderBooks m) ticker Hr) as [ob Hob].
    rewrite Hob, (book_load _ _ _ Hob). simpl.
    destruct type; cbn [side_of set_side];
      (destruct (add_to_side _ _ _ _) as [[s r]|]; simpl; [|done]);
      by rewrite store_in_range.
  - by rewrite load_out_of_range.
Qed.

Lemma book_insert_ne m t u ob g :
  t ≠ u → 0 ≤ t → book (mkMarket (<[Z.to_nat t := ob]> (orderBooks m)) g) u = book m u.
Proof.
  intros Hne Ht. unfold book, load. cbn [orderBooks]. case_decide; [|done].
  rewrite list_lookup_insert_ne by lia. done.
Qed.

(** X11. Two calls of [matchOrder] for different tickers commute: in
    either order they leave the same market and find the same two trades,
    and either order reads beyond the arrays when the other does. *)
Theorem matchOrder_commute t1 t2 m :
  t1 ≠ t2 →
  match_then_match t1 t2 m
    = (λ r : Market * option Trade * option Trade, (r.1.1, r.2, r.1.2))
        <$> match_then_match t2 t1 m.
Proof.
  intros Hne. unfold match_then_match.
  rewrite (matchOrder_eq t1 m), (matchOrder_eq t2 m).
  destruct (decide (0 ≤ t1 < Z.of_nat (length (orderBooks m)))) as [H1|H1];
    destruct (decide (0 ≤ t2 < Z.of_nat (length (orderBooks m)))) as [H2|H2].
  - destruct (match_book t1 (book m t1)) as [[ob1 o1]|] eqn:Hmb1;
      destruct (match_book t2 (book m t2)) as [[ob2 o2]|] eqn:Hmb2; simpl;
      rewrite ?matchOrder_eq; cbn [orderBooks globalOrderId];
      rewrite ?length_insert, ?decide_True by done;
      rewrite ?book_insert_ne by (done || lia);
      rewrite ?Hmb1, ?Hmb2; simpl; try done.
    by rewrite list_insert_insert_ne by lia.
  - destruct (match_book t1 (book m t1)) as [[ob1 o1]|]; simpl; [|done].
    rewrite matchOrder_eq. cbn [orderBooks]. rewrite length_insert.
    by rewrite decide_False.
  - destruct (match_book t2 (book m t2)) as [[ob2 o2]|]; simpl; [|done].
    rewrite matchOrder_eq. cbn [orderBooks]. rewrite length_insert.
    by rewrite decide_False.
  - done.
Qed.

(** Tickers 0 and 1 after the bid of 30 at 100 and the ask of 50 at 90 on
    ticker 0. *)
Lemma matchOrder_commute_witness :
  0 ≠ 1 ∧
  match_then_match 0 1 (after crossing_orders)
    = (λ r : Market * option Trade * option Trade, (r.1.1, r.2, r.1.2))
        <$> match_then_match 1 0 (after crossing_orders).
Proof.
  assert (0 ≠ 1) as Hne by lia.
  split; [exact Hne|]. exact (matchOrder_commute 0 1 (after crossing_orders) Hne).
Defined.

(** X12. A submission for one ticker and a call of [matchOrder] for
    another commute: in either order they leave the same market, the
    submission gets the same slot and order id, and the call finds the
    same trade. *)
Theorem addOrder_matchOrder_commute type t1 qty px t2 m :
  t1 ≠ t2 →
  add_then_match type t1 qty px t2 m = match_then_add type t1 qty px t2 m.
Proof.
  intros Hne. unfold add_then_match, match_then_add.
  rewrite (addOrder_eq type t1 qty px m), (matchOrder_eq t2 m).
  destruct (decide (0 ≤ t1 < Z.of_nat (length (orderBooks m)))) as [H1|H1];
    destruct (decide (0 ≤ t2 < Z.of_nat (length (orderBooks m)))) as [H2|H2].
  - destruct (add_to_side (side_of type (book m t1)) (globalOrderId m) qty px)
      as [[s r]|] eqn:Hadd;
      destruct (match_book t2 (book m t2)) as [[ob2 o2]|] eqn:Hmb2; simpl;
      rewrite ?matchOrder_eq, ?addOrder_eq; cbn [orderBooks globalOrderId];
      rewrite ?length_insert, ?decide_True by done;
      rewrite ?book_insert_ne by (done || lia);
      rewrite ?Hadd, ?Hmb2; simpl; try done.
    by rewrite list_insert_insert_ne by lia.
  - destruct (add_to_side (side_of type (book m t1)) (globalOrderId m) qty px)
      as [[s r]|]; simpl; [|done].
    rewrite matchOrder_eq. cbn [orderBooks]. rewrite length_insert.
    by rewrite decide_False.
  - destruct (match_book t2 (book m t2)) as [[ob2 o2]|]; simpl; [|done].
    rewrite addOrder_eq. cbn [orderBooks]. rewrite length_insert.
    by rewrite decide_False.
  - done.
Qed.

(** An ask on ticker 1 and a call for ticker 0, after the bid of 30 at 100
    and the ask of 50 at 90 on ticker 0. *)
Lemma addOrder_matchOrder_commute_witness :
  1 ≠ 0 ∧
  add_then_match SELL 1 5 20%float 0 (after crossing_orders)
    = match_then_add SELL 1 5 20%float 0 (after crossing_orders).
Proof.
  assert (1 ≠ 0) as Hne by lia.
  split; [exact Hne|].
  exact (addOrder_matchOrder_commute SELL 1 5 20%float 0 (after crossing_orders) Hne).
Defined.

(** * The prices of successive trades *)

Lemma book_insert_eq m t ob g :
  0 ≤ t < Z.of_nat (length (orderBooks m)) →
  book (mkMarket (<[Z.to_nat t := ob]> (orderBooks m)) g) t = ob.
Proof.
  intros Ht. apply book_load. cbn [orderBooks]. by eapply load_store_eq, store_in_range.
Qed.

(** A fill makes no slot eligible. *)
Lemma filled_eligible_back s i p0 tq q s' j p :
  eligible s i p0 → filled s i tq q s' → eligible s' j p → eligible s j p.
Proof.
  intros (Ha0 & Hq0 & Hp0) Hf (Ha & (q' & Hq & Hpos) & Hp).
  destruct Hf as (Hq1 & Hst & Hact & Hid & Hpr & Hc).
  rewrite Hpr in Hp.
  destruct (decide (i = j)) as [->|Hne].
  - split; [done|]. split; [done|]. done.
  - split; [|split; [|done]].
    + destruct (decide (wrap_int (q - tq) = 0)).
      * by rewrite (load_store_ne _ _ j _ _ Hact) in Ha.
      * by rewrite Hact in Ha.
    + exists q'. split; [|done]. by rewrite (load_store_ne _ _ j _ _ Hst) in Hq.
Qed.

(** The trade of [match_book]. *)
Lemma match_book_trade ticker ob ob' tr :
  match_book ticker ob = Some (ob', Some tr) →
  ∃ bi bp si sp qb qs,
    select ob = Some ((bi, bp), (si, sp)) ∧
    (0 ≤ bi < count (buy ob) ∧ eligible (buy ob) bi bp) ∧
    (0 ≤ si < count (sell ob) ∧ eligible (sell ob) si sp) ∧
    filled (buy ob) bi (Z.min qb qs) qb (buy ob') ∧
    filled (sell ob) si (Z.min qb qs) qs (sell ob') ∧
    trade_ticker tr = ticker ∧ trade_price tr = sp.
Proof.
  unfold match_book.
  destruct (select ob) as [[[bi bp] [si sp]]|] eqn:Hsel; simpl; [|done].
  case_decide as Hc; [|done].
  destruct (execute ticker ob bi si sp) as [[ob1 t]|] eqn:Hex; simpl; [|done].
  intros [= <- <-]. destruct Hc as (Hb & Hs & _).
  destruct (select_indices _ _ _ Hsel) as [Hbi Hsi].
  apply execute_spec in Hex as (qb & qs & bid & sid & Hfb & Hfs & _ & _ & ->).
  exists bi, bp, si, sp, qb, qs. split; [done|].
  split; [by apply Hbi|]. split; [by apply Hsi|]. done.
Qed.

(** [match_book] makes no ask eligible, and after a trade no eligible ask
    is priced below the price of the trade. *)
Lemma match_book_asks ticker ob ob' o :
  match_book ticker ob = Some (ob', o) →
  (∀ lb, asks_from lb (sell ob) → asks_from lb (sell ob')) ∧
  (∀ tr, o = Some tr →
     Prim2SF (trade_price tr) ≠ S754_nan ∧
     asks_from (trade_price tr) (sell ob') ∧
     ∀ lb, Prim2SF lb ≠ S754_nan → asks_from lb (sell ob) →
           PrimFloat.leb lb (trade_price tr) = true).
Proof.
  intros Hmb. destruct o as [tr|].
  - destruct (match_book_trade _ _ _ _ Hmb)
      as (bi & bp & si & sp & qb & qs & Hsel & _ & [Hsi Hes] & _ & Hfs & _ & Hp).
    pose proof (select_spec _ _ _ Hsel) as [_ Hss].
    destruct (scan_side_spec sell_better _ _ _ _ _ Hss) as (Hsel' & Hbest & _).
    assert (PrimFloat.ltb sp 1e9 = true) as Hlt.
    { destruct Hsel' as [[-> _] | (_ & _ & H)]; [lia | exact H]. }
    assert (count (sell ob') = count (sell ob)) as Hc by apply Hfs.
    assert (∀ j p, eligible (sell ob') j p → eligible (sell ob) j p) as Hback.
    { intros j p. by eapply filled_eligible_back. }
    split; [|intros ? [= <-]; rewrite Hp; split; [|split]].
    + intros lb Hlb j p Hj Hel. rewrite Hc in Hj. by eapply Hlb, Hback.
    + by apply FloatOrder.ltb_number in Hlt as [? _].
    + intros j p Hj Hel. rewrite Hc in Hj. by eapply (Hbest j p Hj), Hback.
    + intros lb Hn Hlb. apply FloatOrder.not_ltb_leb; [|done|by eapply Hlb].
      by apply FloatOrder.ltb_number in Hlt as [? _].
  - apply match_book_quiet in Hmb as ->. split; [done|]. by intros ? [=].
Qed.

Lemma step_asks o m m1 r ticker :
  no_ask ticker o → step o m = Some (m1, r) →
  (∀ lb, asks_from lb (sell (book m ticker)) → asks_from lb (sell (book m1 ticker))) ∧
  (∀ tr, r = Matched (Some tr) → trade_ticker tr = ticker →
     Prim2SF (trade_price tr) ≠ S754_nan ∧
     asks_from (trade_price tr) (sell (book m1 ticker)) ∧
     ∀ lb, Prim2SF lb ≠ S754_nan → asks_from lb (sell (book m ticker)) →
           PrimFloat.leb lb (trade_price tr) = true).
Proof.
  intros Ho. destruct o as [type t0 qty px | t0]; cbn [step].
  - rewrite addOrder_eq. case_decide as Hr; [|done].
    destruct (add_to_side _ _ _ _) as [[s r']|]; simpl; [|done].
    intros [= <- <-]. split; [|by intros ? [=]].
    destruct (decide (t0 = ticker)) as [->|Hne].
    + rewrite book_insert_eq by done.
      destruct type; cbn [set_side sell]; [done|]. by cbn [no_ask] in Ho.
    + rewrite book_insert_ne by (done || lia). done.
  - destruct (matchOrder t0 m) as [[m' o]|] eqn:Hrun; simpl; [|done].
    intros [= <- <-].
    apply matchOrder_books in Hrun as (_ & _ & _ & Hmb & Hothers & _).
    destruct (decide (t0 = ticker)) as [->|Hne].
    + destruct (match_book_asks _ _ _ _ Hmb) as [H1 H2].
      split; [done|]. intros tr [= ->] _. by apply H2.
    + rewrite (book_others m m' ticker) by (by apply Hothers).
      split; [done|]. intros tr [= ->] Ht. exfalso. apply Hne.
      by rewrite <- (match_book_ticker _ _ _ _ Hmb).
Qed.

Lemma prices_at_cons ticker o r log :
  prices_at ticker ((o, r) :: log) =
    match r with
    | Matched (Some tr) =>
        if decide (trade_ticker tr = ticker) then trade_price tr :: prices_at ticker log
        else prices_at ticker log
    | _ => prices_at ticker log
    end.
Proof.
  unfold prices_at, trades_of. cbn [omap list_omap snd].
  destruct r as [r|[tr|]]; try done.
  case_decide; [by rewrite filter_cons_True | by rewrite filter_cons_False].
Qed.

Lemma run_asks ops ticker : ∀ m m' log,
  Forall (no_ask ticker) ops → run ops m = Some (m', log) →
  StronglySorted (λ p q, PrimFloat.leb p q = true) (prices_at ticker log) ∧
  ∀ lb, Prim2SF lb ≠ S754_nan → asks_from lb (sell (book m ticker)) →
        Forall (λ p, PrimFloat.leb lb p = true) (prices_at ticker log).
Proof.
  induction ops as [|o ops IH]; intros m m' log Hops; cbn [run].
  - intros [= <- <-]. split; [constructor|]. intros. constructor.
  - destruct (step o m) as [[m1 r]|] eqn:Hstep; simpl; [|done].
    destruct (run ops m1) as [[m2 log']|] eqn:Hrun; simpl; [|done].
    intros [= <- <-]. apply Forall_cons in Hops as [Ho Hops].
    destruct (step_asks _ _ _ _ ticker Ho Hstep) as [Hkeep Htrade].
    destruct (IH _ _ _ Hops Hrun) as [Hsorted Hfrom].
    rewrite prices_at_cons.
    destruct r as [r|[tr|]]; [by eauto | | by eauto].
    case_decide as Ht; [|by eauto].
    destruct (Htrade tr eq_refl Ht) as (Hn & Hafter & Hle).
    split.
    + constructor; [done|]. by apply Hfrom.
    + intros lb Hlb Hasks. constructor; [by apply Hle|]. by apply Hfrom, Hkeep.
Qed.

(** X13. As long as no ask is submitted for a ticker, the trades of that
    ticker execute at prices that never go down, whatever else is
    submitted and matched in between: the asks of a book are taken from
    the lowest price up. *)
Theorem ask_prices_ascend ops ticker m m' log :
  Forall (no_ask ticker) ops → run ops m = Some (m', log) →
  StronglySorted (λ p q, PrimFloat.leb p q = true) (prices_at ticker log).
Proof. intros Hops Hrun. by apply (run_asks ops ticker m m' log). Qed.

(** The bid of 10 at 100 against asks of 5 at 95 and of 5 at 90: the ask
    at 90 trades first, the ask at 95 after a further bid. *)
Lemma ask_prices_ascend_witness :
  let ops := [Match 0; Add BUY 0 1 99%float; Match 0] in
  ∃ m' log,
    Forall (no_ask 0) ops ∧ run ops (after ladder) = Some (m', log) ∧
    prices_at 0 log = [90%float; 95%float] ∧
    StronglySorted (λ p q, PrimFloat.leb p q = true) (prices_at 0 log).
Proof.
  intros ops.
  assert (Forall (no_ask 0) ops) as Hops by (repeat constructor).
  assert (is_Some (run ops (after ladder))) as [[m' log] Hrun]
    by (apply is_Some_evaluated; evaluated).
  assert (from_option (λ r, prices_at 0 r.2) [] (run ops (after ladder))
          = [90%float; 95%float]) as Hp by evaluated.
  exists m', log. split; [exact Hops|]. split; [exact Hrun|]. split.
  - revert Hp. rewrite Hrun. exact id.
  - exact (ask_prices_ascend ops 0 _ m' log Hops Hrun).
Defined.

(** * Order ids *)

Lemma book_initial t : book initial t = new_OrderBook.
Proof.
  unfold book, load, initial. cbn [orderBooks]. case_decide; [|done].
  destruct (replicate _ _ !! _) as [ob|] eqn:Hob; [|done].
  by apply lookup_replicate in Hob as [-> _].
Qed.

Lemma ids_ok_initial : ids_ok initial.
Proof.
  assert (∀ t type i, id_of initial t type i = None) as Hnone.
  { intros t type i. unfold id_of. rewrite book_initial.
    rewrite decide_False; [done|]. destruct type; cbn; lia. }
  split.
  - intros t type. rewrite book_initial. destruct type; cbn; lia.
  - intros t type i id. by rewrite Hnone.
  - intros t type i t' type' i' id. by rewrite Hnone.
Qed.

(** [match_book] writes no order id, no price and no counter. *)
Lemma match_book_frame ticker ob ob' o :
  match_book ticker ob = Some (ob', o) →
  ∀ type, orderId (side_of type ob') = orderId (side_of type ob) ∧
          price (side_of type ob') = price (side_of type ob) ∧
          count (side_of type ob') = count (side_of type ob).
Proof.
  intros Hmb. destruct o as [tr|].
  - destruct (match_book_trade _ _ _ _ Hmb)
      as (bi & bp & si & sp & qb & qs & _ & _ & _ & Hfb & Hfs & _).
    intros []; cbn [side_of].
    + destruct Hfb as (_ & _ & _ & ? & ? & ?). done.
    + destruct Hfs as (_ & _ & _ & ? & ? & ?). done.
  - by apply match_book_quiet in Hmb as ->.
Qed.

Lemma matchOrder_frame_books ticker m m' o :
  matchOrder ticker m = Some (m', o) →
  ∀ t type, orderId (side_of type (book m' t)) = orderId (side_of type (book m t)) ∧
            price (side_of type (book m' t)) = price (side_of type (book m t)) ∧
            count (side_of type (book m' t)) = count (side_of type (book m t)).
Proof.
  intros (_ & _ & _ & Hmb & Hothers & _)%matchOrder_books t type.
  destruct (decide (t = ticker)) as [->|Hne].
  - by apply (match_book_frame _ _ _ _ Hmb).
  - by rewrite (book_others m m' t) by (by apply Hothers).
Qed.

Lemma matchOrder_ids ticker m m' o :
  matchOrder ticker m = Some (m', o) →
  globalOrderId m' = globalOrderId m ∧
  ∀ t type i, id_of m' t type i = id_of m t type i.
Proof.
  intros Hrun. split; [by apply matchOrder_books in Hrun as (_ & _ & _ & _ & _ & ? & _)|].
  intros t type i. unfold id_of.
  destruct (matchOrder_frame_books _ _ _ _ Hrun t type) as (-> & _ & ->). done.
Qed.

(** What a submission does to the counters and to the order ids. *)
Lemma addOrder_ids type0 t0 qty px m m' r :
  wf_market m → 0 ≤ count (side_of type0 (book m t0)) < INT_MAX →
  addOrder type0 t0 qty px m = Some (m', r) →
  globalOrderId m' = wrap_int (globalOrderId m + 1) ∧
  (∀ t type,
     count (side_of type (book m' t)) =
       count (side_of type (book m t)) + (if decide (t = t0 ∧ type = type0) then 1 else 0)) ∧
  (∀ t type i,
     id_of m' t type i =
       if decide (t = t0 ∧ type = type0 ∧
                  i = count (side_of type0 (book m t0)) ∧ i < MAX_ORDERS_PER_SIDE)
       then Some (globalOrderId m) else id_of m t type i).
Proof.
  intros Hm Hc. rewrite addOrder_eq. case_decide as Hr; [|done].
  destruct (add_to_side _ _ _ _) as [[s' r']|] eqn:Hadd; simpl; [|done].
  intros [= <- <-]. cbn [globalOrderId]. split; [done|].
  assert (∀ t type, t ≠ t0 ∨ type ≠ type0 →
    side_of type (book (mkMarket (<[Z.to_nat t0 := set_side type0 (book m t0) s']>
                                    (orderBooks m)) (wrap_int (globalOrderId m + 1))) t)
    = side_of type (book m t)) as Hother.
  { intros t type Hne. destruct (decide (t = t0)) as [->|Ht].
    - rewrite book_insert_eq by done. apply side_of_set_side_ne.
      by destruct Hne.
    - by rewrite book_insert_ne by (done || lia). }
  assert (side_of type0 (book (mkMarket (<[Z.to_nat t0 := set_side type0 (book m t0) s']>
                                    (orderBooks m)) (wrap_int (globalOrderId m + 1))) t0)
          = s') as Hsame.
  { rewrite book_insert_eq by done. apply side_of_set_side. }
  set (s := side_of type0 (book m t0)) in *.
  assert (count s' = count s + 1 ∧
          ∀ i, (if decide (0 ≤ i < count s' ∧ i < MAX_ORDERS_PER_SIDE)
                then load (orderId s') i else None) =
               if decide (i = count s ∧ i < MAX_ORDERS_PER_SIDE)
               then Some (globalOrderId m)
               else if decide (0 ≤ i < count s ∧ i < MAX_ORDERS_PER_SIDE)
                    then load (orderId s) i else None) as [Hcount Hids].
  { apply add_to_side_spec in Hadd as [(Hlt & _ & (H1 & _ & _ & _ & H5)) | (Hge & _ & ->)].
    - rewrite wrap_int_id in H5 by zlia. split; [done|]. intros i. rewrite H5.
      destruct (decide (i = count s ∧ i < MAX_ORDERS_PER_SIDE)) as [[-> _]|Hn].
      + rewrite decide_True by lia. by eapply load_store_eq.
      + rewrite (load_store_ne _ _ i _ _ H1) by lia.
        destruct (decide (0 ≤ i < count s ∧ i < MAX_ORDERS_PER_SIDE)).
        * by rewrite decide_True by lia.
        * by rewrite decide_False by lia.
    - cbn [set_count count orderId]. rewrite wrap_int_id by zlia. split; [done|].
      intros i. rewrite (decide_False (P := i = count s ∧ _)) by lia.
      destruct (decide (0 ≤ i < count s ∧ i < MAX_ORDERS_PER_SIDE)).
      + by rewrite decide_True by lia.
      + by rewrite decide_False by lia. }
  split.
  - intros t type. case_decide as Heq.
    + destruct Heq as [-> ->]. by rewrite Hsame.
    + rewrite Hother; [lia|]. destruct (decide (t = t0)); [right | left]; tauto.
  - intros t type i. unfold id_of.
    destruct (decide (t = t0 ∧ type = type0)) as [[-> ->]|Hne].
    + rewrite Hsame. fold s. rewrite Hids.
      destruct (decide (i = count s ∧ i < MAX_ORDERS_PER_SIDE)) as [Hy|Hn].
      * rewrite (decide_True (P := t0 = t0 ∧ _)); [done | tauto].
      * rewrite (decide_False (P := t0 = t0 ∧ _)); [done | tauto].
    + rewrite Hother by (destruct (decide (t = t0)); [right | left]; tauto).
      rewrite (decide_False (P := t = t0 ∧ _)); [done | tauto].
Qed.

Lemma addOrder_ids_ok type0 t0 qty px m m' r :
  wf_market m → ids_ok m → globalOrderId m < INT_MAX →
  addOrder type0 t0 qty px m = Some (m', r) →
  globalOrderId m' = globalOrderId m + 1 ∧ ids_ok m'.
Proof.
  intros Hm Hok Hg Hadd.
  pose proof (ids_counts _ Hok t0 type0) as Hc0.
  assert (0 ≤ count (side_of type0 (book m t0)) < INT_MAX) as Hc by lia.
  destruct (addOrder_ids _ _ _ _ _ _ _ Hm Hc Hadd) as (Hg' & Hcounts & Hids).
  rewrite wrap_int_id in Hg' by zlia. split; [done|]. split.
  - intros t type. rewrite Hcounts, Hg'. pose proof (ids_counts _ Hok t type).
    case_decide as Heq; [destruct Heq as [-> ->]|]; lia.
  - intros t type i id. rewrite Hids, Hg'. case_decide.
    + intros [= <-]. lia.
    + intros H'%(ids_bounded _ Hok). lia.
  - intros t type i t' type' i' id. rewrite !Hids.
    case_decide as H1; case_decide as H2.
    + intros _ _. destruct H1 as (-> & -> & -> & _), H2 as (-> & -> & -> & _). done.
    + intros [= <-] H'%(ids_bounded _ Hok). lia.
    + intros H'%(ids_bounded _ Hok) [= <-]. lia.
    + apply (ids_distinct _ Hok).
Qed.

Lemma matchOrder_ids_ok ticker m m' o :
  ids_ok m → matchOrder ticker m = Some (m', o) → ids_ok m'.
Proof.
  intros Hok Hrun. destruct (matchOrder_ids _ _ _ _ Hrun) as [Hg Hids].
  pose proof (matchOrder_frame_books _ _ _ _ Hrun) as Hframe. split.
  - intros t type. destruct (Hframe t type) as (_ & _ & ->). rewrite Hg.
    apply (ids_counts _ Hok).
  - intros t type i id. rewrite Hids, Hg. apply (ids_bounded _ Hok).
  - intros t type i t' type' i' id. rewrite !Hids. apply (ids_distinct _ Hok).
Qed.

(** The two orders of a trade are in slots that were handed out. *)
Lemma matchOrder_trade_ids ticker m m' tr :
  wf_market m → matchOrder ticker m = Some (m', Some tr) →
  ∃ bi si,
    id_of m ticker BUY bi = Some (trade_buyId tr) ∧
    id_of m ticker SELL si = Some (trade_sellId tr).
Proof.
  intros Hm (ob & ob' & bi & bp & si & sp & Hob & _ & _ & _ & [Hbi _] & [Hsi _] & Hex & _)
    %matchOrder_trade.
  destruct (wf_market_book _ _ _ Hm Hob) as [Hwb Hws].
  apply execute_spec in Hex as (qb & qs & bid & sid & _ & _ & Hbid & Hsid & ->).
  pose proof (load_Some_range _ _ _ Hbid) as Hrb. rewrite (wf_orderId _ Hwb) in Hrb.
  pose proof (load_Some_range _ _ _ Hsid) as Hrs. rewrite (wf_orderId _ Hws) in Hrs.
  exists bi, si. unfold id_of. rewrite (book_load _ _ _ Hob). cbn [side_of trade_buyId trade_sellId].
  by rewrite !decide_True by lia.
Qed.

Lemma adds_cons o ops :
  adds (o :: ops) = (match o with Add _ _ _ _ => 1 | Match _ => 0 end) + adds ops.
Proof. done. Qed.

Lemma adds_nonneg ops : 0 ≤ adds ops.
Proof. induction ops as [|[] ops IH]; rewrite ?adds_cons; [done | lia | lia]. Qed.

Lemma run_ids ops : ∀ m m' log,
  wf_market m → ids_ok m → Forall int_args ops →
  globalOrderId m + adds ops ≤ INT_MAX →
  run ops m = Some (m', log) →
  globalOrderId m' = globalOrderId m + adds ops ∧ ids_ok m' ∧
  Forall (λ tr, trade_buyId tr ≠ trade_sellId tr ∧
                0 ≤ trade_buyId tr < globalOrderId m' ∧
                0 ≤ trade_sellId tr < globalOrderId m') (trades_of log).
Proof.
  induction ops as [|o ops IH]; intros m m' log Hm Hok Hops Hmax; cbn [run].
  - intros [= <- <-]. split; [unfold adds; simpl; lia|]. split; [done | constructor].
  - destruct (step o m) as [[m1 r]|] eqn:Hstep; simpl; [|done].
    destruct (run ops m1) as [[m2 log']|] eqn:Hrun; simpl; [|done].
    intros [= <- <-]. apply Forall_cons in Hops as [Ho Hops].
    pose proof (step_wf _ _ _ _ Hm Ho Hstep) as Hm1.
    pose proof (adds_nonneg ops) as Hn. rewrite adds_cons in Hmax |- *.
    destruct o as [type t0 qty px | t0]; cbn [step] in Hstep.
    + destruct (addOrder type t0 qty px m) as [[m1' r1]|] eqn:Hadd; simpl in Hstep; [|done].
      injection Hstep as -> <-.
      assert (globalOrderId m < INT_MAX) as Hlt by lia.
      destruct (addOrder_ids_ok _ _ _ _ _ _ _ Hm Hok Hlt Hadd) as [Hg1 Hok1].
      assert (globalOrderId m1 + adds ops ≤ INT_MAX) as Hmax1 by lia.
      destruct (IH _ _ _ Hm1 Hok1 Hops Hmax1 Hrun) as (Hg2 & Hok2 & Htr).
      split; [lia|]. split; [done|]. exact Htr.
    + destruct (matchOrder t0 m) as [[m1' o]|] eqn:Hmatch; simpl in Hstep; [|done].
      injection Hstep as -> <-.
      destruct (matchOrder_ids _ _ _ _ Hmatch) as [Hg1 _].
      pose proof (matchOrder_ids_ok _ _ _ _ Hok Hmatch) as Hok1.
      assert (globalOrderId m1 + adds ops ≤ INT_MAX) as Hmax1 by lia.
      destruct (IH _ _ _ Hm1 Hok1 Hops Hmax1 Hrun) as (Hg2 & Hok2 & Htr).
      split; [lia|]. split; [done|].
      unfold trades_of. cbn [omap list_omap snd]. destruct o as [tr|]; [|exact Htr].
      constructor; [|exact Htr].
      destruct (matchOrder_trade_ids _ _ _ _ Hm Hmatch) as (bi & si & Hb & Hs).
      pose proof (ids_bounded _ Hok _ _ _ _ Hb). pose proof (ids_bounded _ Hok _ _ _ _ Hs).
      split; [|lia]. intros Heq. rewrite Heq in Hb.
      by destruct (ids_distinct _ Hok _ _ _ _ _ _ _ Hb Hs) as (_ & ? & _).
Qed.

(** X14. Order ids are unique: after any sequence of operations from the
    initial market with at most [INT_MAX] submissions, the order id
    counter is the number of submissions, every slot handed out holds an
    order id below it, and no two slots handed out, of whatever tickers
    and sides, hold the same order id. *)
Theorem order_ids_unique ops m log :
  Forall int_args ops → adds ops ≤ INT_MAX → run ops initial = Some (m, log) →
  globalOrderId m = adds ops ∧
  (∀ t type i id, id_of m t type i = Some id → 0 ≤ id < adds ops) ∧
  (∀ t type i t' type' i' id,
     id_of m t type i = Some id → id_of m t' type' i' = Some id →
     t = t' ∧ type = type' ∧ i = i').
Proof.
  intros Hops Hmax Hrun.
  destruct (run_ids ops initial m log wf_initial ids_ok_initial Hops) as (Hg & Hok & _);
    [exact Hmax | exact Hrun |].
  change (globalOrderId initial) with 0 in Hg. rewrite Z.add_0_l in Hg.
  split; [done|]. split.
  - intros t type i id Hid. rewrite <- Hg. by eapply ids_bounded.
  - apply Hok.
Qed.

(** Two bids and two asks on ticker 0. *)
Lemma order_ids_unique_witness :
  ∃ log,
    Forall int_args tied_orders ∧ adds tied_orders ≤ INT_MAX ∧
    run tied_orders initial = Some (after tied_orders, log) ∧
    globalOrderId (after tied_orders) = adds tied_orders ∧
    (∀ t type i id,
       id_of (after tied_orders) t type i = Some id → 0 ≤ id < adds tied_orders) ∧
    (∀ t type i t' type' i' id,
       id_of (after tied_orders) t type i = Some id →
       id_of (after tied_orders) t' type' i' = Some id →
       t = t' ∧ type = type' ∧ i = i').
Proof.
  assert (Forall int_args tied_orders) as Hops by int_ops.
  assert (adds tied_orders ≤ INT_MAX) as Hmax by (by vm_compute).
  destruct (run_after tied_orders) as [log Hrun]; [apply is_Some_evaluated; evaluated|].
  exists log. split; [exact Hops|]. split; [exact Hmax|]. split; [exact Hrun|].
  exact (order_ids_unique tied_orders _ log Hops Hmax Hrun).
Defined.

(** X15. In any sequence of operations from the initial market with at
    most [INT_MAX] submissions, every trade is between two different
    orders, and both order ids were given out by the order id counter. *)
Theorem trade_between_two_orders ops m log :
  Forall int_args ops → adds ops ≤ INT_MAX → run ops initial = Some (m, log) →
  Forall (λ tr, trade_buyId tr ≠ trade_sellId tr ∧
                0 ≤ trade_buyId tr < adds ops ∧ 0 ≤ trade_sellId tr < adds ops)
         (trades_of log).
Proof.
  intros Hops Hmax Hrun.
  destruct (run_ids ops initial m log wf_initial ids_ok_initial Hops) as (Hg & _ & Htr);
    [exact Hmax | exact Hrun |].
  change (globalOrderId initial) with 0 in Hg. rewrite Z.add_0_l in Hg.
  by rewrite Hg in Htr.
Qed.

(** A bid of 50 at 100 and an ask of 50 at 90 on ticker 0, matched. *)
Lemma trade_between_two_orders_witness :
  ∃ log,
    Forall int_args full_fill ∧ adds full_fill ≤ INT_MAX ∧
    run full_fill initial = Some (after full_fill, log) ∧
    Forall (λ tr, trade_buyId tr ≠ trade_sellId tr ∧
                  0 ≤ trade_buyId tr < adds full_fill ∧
                  0 ≤ trade_sellId tr < adds full_fill)
           (trades_of log).
Proof.
  assert (Forall int_args full_fill) as Hops by int_ops.
  assert (adds full_fill ≤ INT_MAX) as Hmax by (by vm_compute).
  destruct (run_after full_fill) as [log Hrun]; [apply is_Some_evaluated; evaluated|].
  exists log. split; [exact Hops|]. split; [exact Hmax|]. split; [exact Hrun|].
  exact (trade_between_two_orders full_fill _ log Hops Hmax Hrun).
Defined.

(** ** The order of a slot *)

Lemma add_to_side_fixed s oid qty px s' r i :
  wf_side s → add_to_side s oid qty px = Some (s', r) → handed_out s i →
  load (orderId s') i = load (orderId s) i ∧ load (price s') i = load (price s) i ∧
  handed_out s' i.
Proof.
  intros Hwf Hadd Hi.
  destruct (add_to_side_keeps _ _ _ _ _ _ i Hwf Hadd Hi) as [_ Hi'].
  split; [|split; [|done]];
    destruct (add_to_side_spec _ _ _ _ _ _ Hadd)
      as [(Hlt & _ & (H1 & H2 & H3 & H4 & H5)) | (Hge & _ & ->)]; try done.
  - assert (0 ≤ count s) as Hpos by (by apply store_Some in H1 as [[? _] _]).
    destruct Hi as [Hi|Hi]; [|lia]. apply (load_store_ne _ _ i _ _ H1). lia.
  - assert (0 ≤ count s) as Hpos by (by apply store_Some in H1 as [[? _] _]).
    destruct Hi as [Hi|Hi]; [|lia]. apply (load_store_ne _ _ i _ _ H3). lia.
Qed.

Lemma step_fixed o m m1 r ticker type i :
  wf_market m → step o m = Some (m1, r) →
  handed_out (side_of type (book m ticker)) i →
  load (orderId (side_of type (book m1 ticker))) i
    = load (orderId (side_of type (book m ticker))) i ∧
  load (price (side_of type (book m1 ticker))) i
    = load (price (side_of type (book m ticker))) i ∧
  handed_out (side_of type (book m1 ticker)) i.
Proof.
  intros Hm Hstep Hi. destruct o as [type0 t0 qty px | t0]; cbn [step] in Hstep.
  - rewrite addOrder_eq in Hstep. case_decide as Hr; [|done].
    destruct (add_to_side _ _ _ _) as [[s' r']|] eqn:Hadd; simpl in Hstep; [|done].
    injection Hstep as <- <-.
    destruct (decide (ticker = t0)) as [->|Hne].
    + rewrite book_insert_eq by done.
      destruct (decide (type = type0)) as [->|Hty].
      * rewrite side_of_set_side. eapply add_to_side_fixed; [|done|done].
        destruct (load_in_range (orderBooks m) t0 Hr) as [ob Hob].
        rewrite (book_load _ _ _ Hob).
        destruct (wf_market_book _ _ _ Hm Hob). by destruct type0.
      * by rewrite side_of_set_side_ne.
    + by rewrite book_insert_ne by (done || lia).
  - destruct (matchOrder t0 m) as [[m1' o]|] eqn:Hmatch; simpl in Hstep; [|done].
    injection Hstep as <- <-.
    destruct (matchOrder_frame_books _ _ _ _ Hmatch ticker type) as (Hid & Hp & Hc).
    unfold handed_out. by rewrite Hid, Hp, Hc.
Qed.

Lemma run_fixed ops ticker type i : ∀ m m' log,
  wf_market m → Forall int_args ops → run ops m = Some (m', log) →
  handed_out (side_of type (book m ticker)) i →
  load (orderId (side_of type (book m' ticker))) i
    = load (orderId (side_of type (book m ticker))) i ∧
  load (price (side_of type (book m' ticker))) i
    = load (price (side_of type (book m ticker))) i.
Proof.
  induction ops as [|o ops IH]; intros m m' log Hm Hops; cbn [run].
  - by intros [= <- <-].
  - destruct (step o m) as [[m1 r]|] eqn:Hstep; simpl; [|done].
    destruct (run ops m1) as [[m2 log']|] eqn:Hrun; simpl; [|done].
    intros [= <- <-] Hi. apply Forall_cons in Hops as [Ho Hops].
    destruct (step_fixed _ _ _ _ _ _ _ Hm Hstep Hi) as (Hid & Hp & Hi1).
    destruct (IH _ _ _ (step_wf _ _ _ _ Hm Ho Hstep) Hops Hrun Hi1) as [Hid' Hp'].
    split; congruence.
Qed.

(** X16. A slot is never given to another order: once the counter of a
    side has handed out a slot, the order id and the price in the slot
    stay what they are through every later submission and every later
    call of [matchOrder]. *)
Theorem slot_never_reused ops m m' log ticker type i :
  wf_market m → Forall int_args ops → run ops m = Some (m', log) →
  0 ≤ i < count (side_of type (book m ticker)) →
  load (orderId (side_of type (book m' ticker))) i
    = load (orderId (side_of type (book m ticker))) i ∧
  load (price (side_of type (book m' ticker))) i
    = load (price (side_of type (book m ticker))) i.
Proof.
  intros Hm Hops Hrun Hi. eapply run_fixed; [done | done | done |]. by left.
Qed.

(** Slot 0 of the buy side of ticker 0, the bid of 30 at 100, through a
    further bid, a trade and a further ask. *)
Lemma slot_never_reused_witness :
  let m := after crossing_orders in
  let ops := [Add BUY 0 5 80%float; Match 0; Add SELL 0 1 70%float; Match 0] in
  ∃ m' log,
    wf_market m ∧ Forall int_args ops ∧ run ops m = Some (m', log) ∧
    0 ≤ 0 < count (side_of BUY (book m 0)) ∧
    load (orderId (side_of BUY (book m 0))) 0 = Some 0 ∧
    load (price (side_of BUY (book m 0))) 0 = Some 100%float ∧
    load (orderId (side_of BUY (book m' 0))) 0 = load (orderId (side_of BUY (book m 0))) 0 ∧
    load (price (side_of BUY (book m' 0))) 0 = load (price (side_of BUY (book m 0))) 0.
Proof.
  intros m ops.
  assert (wf_market m) as Hm by (apply wf_after; int_ops).
  assert (Forall int_args ops) as Hops by int_ops.
  assert (is_Some (run ops m)) as [[m' log] Hrun] by (apply is_Some_evaluated; evaluated).
  assert (count (side_of BUY (book m 0)) = 1) as Hc by evaluated.
  assert (0 ≤ 0 < count (side_of BUY (book m 0))) as Hi by (rewrite Hc; lia).
  exists m', log. split; [exact Hm|]. split; [exact Hops|]. split; [exact Hrun|].
  split; [exact Hi|]. split; [evaluated|]. split; [evaluated|].
  exact (slot_never_reused ops m m' log 0 BUY 0 Hm Hops Hrun Hi).
Defined.

(** * The order source and the threads of [main] *)

Lemma ltb_leb_trans x y z :
  PrimFloat.ltb x y = true → PrimFloat.leb y z = true → PrimFloat.ltb x z = true.
Proof.
  rewrite !FloatOrder.ltb_compare, FloatOrder.leb_compare. intros H [H2|H2].
  - by eapply FloatOrder.SFcompare_trans.
  - by rewrite <- (FloatOrder.SFcompare_eq_r _ _ _ H2).
Qed.

Lemma leb_ltb_trans x y z :
  PrimFloat.leb x y = true → PrimFloat.ltb y z = true → PrimFloat.ltb x z = true.
Proof.
  rewrite !FloatOrder.ltb_compare, FloatOrder.leb_compare. intros [H1|H1] H.
  - by eapply FloatOrder.SFcompare_trans.
  - by rewrite (FloatOrder.SFcompare_eq_l _ _ _ H1).
Qed.

Lemma generated_int_args o : generated o → int_args o.
Proof. destruct o; cbn [generated int_args]; zlia. Qed.

Lemma drawn_generated d : drawn d → generated (submit d).
Proof. intros (? & ? & ? & ? & _). by cbn [submit generated]. Qed.

(** ** Prices inside the sentinels *)

Lemma priced_initial : priced initial.
Proof.
  intros t type i p Hi. rewrite book_initial in Hi. destruct type; cbn in Hi; lia.
Qed.

Lemma add_to_side_priced s oid qty px s' r i p :
  wf_side s → add_to_side s oid qty px = Some (s', r) →
  0 ≤ i < count s' → eligible s' i p →
  (i = count s ∧ p = px) ∨ (0 ≤ i < count s ∧ eligible s i p).
Proof.
  intros Hwf Hadd Hi (Ha & (q & Hq & Hpos) & Hp).
  pose proof (wf_count_int _ Hwf) as Hint.
  destruct (add_to_side_spec _ _ _ _ _ _ Hadd)
    as [(Hlt & _ & (H1 & H2 & H3 & H4 & H5)) | (Hge & _ & ->)].
  - assert (0 ≤ count s) as Hpos' by (by apply store_Some in H1 as [[? _] _]).
    rewrite H5, wrap_int_id in Hi by zlia.
    destruct (decide (i = count s)) as [->|Hne].
    + left. split; [done|]. rewrite (load_store_eq _ _ _ _ H3) in Hp. congruence.
    + right. split; [lia|].
      rewrite (load_store_ne _ _ i _ _ H4) in Ha by lia.
      rewrite (load_store_ne _ _ i _ _ H2) in Hq by lia.
      rewrite (load_store_ne _ _ i _ _ H3) in Hp by lia.
      split; [done|]. split; [by exists q | done].
  - cbn [set_count active quantity price count] in *. right.
    pose proof (load_Some_range _ _ _ Ha) as Hr. rewrite (wf_active _ Hwf) in Hr.
    split; [lia|]. split; [done|]. split; [by exists q | done].
Qed.

Lemma step_priced o m m1 r :
  wf_market m → generated o → priced m → step o m = Some (m1, r) → priced m1.
Proof.
  intros Hm Ho Hp Hstep. destruct o as [type0 t0 qty px | t0]; cbn [step] in Hstep.
  - rewrite addOrder_eq in Hstep. case_decide as Hr; [|done].
    destruct (add_to_side _ _ _ _) as [[s' r']|] eqn:Hadd; simpl in Hstep; [|done].
    injection Hstep as <- <-. intros t type i p.
    destruct (decide (t = t0)) as [->|Hne].
    + rewrite book_insert_eq by done.
      destruct (decide (type = type0)) as [->|Hty].
      * rewrite side_of_set_side. intros Hi Hel.
        assert (wf_side (side_of type0 (book m t0))) as Hwf.
        { destruct (load_in_range (orderBooks m) t0 Hr) as [ob Hob].
          rewrite (book_load _ _ _ Hob).
          destruct (wf_market_book _ _ _ Hm Hob). by destruct type0. }
        destruct (add_to_side_priced _ _ _ _ _ _ _ _ Hwf Hadd Hi Hel)
          as [[_ ->] | [Hi' Hel']].
        -- apply Ho.
        -- by apply (Hp t0 type0 i p).
      * rewrite side_of_set_side_ne by done. apply Hp.
    + rewrite book_insert_ne by (done || lia). apply Hp.
  - destruct (matchOrder t0 m) as [[m1' o]|] eqn:Hmatch; simpl in Hstep; [|done].
    injection Hstep as <- <-. intros t type i p.
    destruct (matchOrder_books _ _ _ _ Hmatch) as (_ & _ & _ & Hmb & Hothers & _).
    destruct (decide (t = t0)) as [->|Hne].
    + destruct (match_book_frame _ _ _ _ Hmb type) as (_ & _ & ->).
      intros Hi Hel. apply (Hp t0 type i p Hi).
      destruct o as [tr|]; [|by apply match_book_quiet in Hmb as <-].
      destruct (match_book_trade _ _ _ _ Hmb)
        as (bi & bp & si & sp & qb & qs & _ & [_ Heb] & [_ Hes] & Hfb & Hfs & _).
      destruct type; cbn [side_of] in *; by eapply filled_eligible_back.
    + rewrite (book_others m m1' t) by (by apply Hothers). apply Hp.
Qed.

Lemma run_priced ops : ∀ m m' log,
  wf_market m → Forall generated ops → priced m → run ops m = Some (m', log) →
  wf_market m' ∧ priced m'.
Proof.
  induction ops as [|o ops IH]; intros m m' log Hm Hops Hp; cbn [run].
  - by intros [= <- <-].
  - destruct (step o m) as [[m1 r]|] eqn:Hstep; simpl; [|done].
    destruct (run ops m1) as [[m2 log']|] eqn:Hrun; simpl; [|done].
    intros [= <- <-]. apply Forall_cons in Hops as [Ho Hops].
    eapply IH; [|done| |done].
    + eapply step_wf; [done | by apply generated_int_args | done].
    + by eapply step_priced.
Qed.

(** When every considered order is priced inside the sentinels,
    [match_book] trades exactly when a bid and an ask cross. *)
Lemma match_book_crossing ticker ob ob' o :
  (∀ type i p, 0 ≤ i < count (side_of type ob) → eligible (side_of type ob) i p →
     PrimFloat.leb 10 p = true ∧ PrimFloat.leb p 1000 = true) →
  match_book ticker ob = Some (ob', o) →
  (is_Some o ↔
   ∃ jb pb js ps,
     (0 ≤ jb < count (buy ob) ∧ eligible (buy ob) jb pb) ∧
     (0 ≤ js < count (sell ob) ∧ eligible (sell ob) js ps) ∧
     PrimFloat.leb ps pb = true).
Proof.
  intros Hp Hmb. split.
  - intros [tr ->].
    destruct (match_book_trade _ _ _ _ Hmb)
      as (bi & bp & si & sp & qb & qs & Hsel & Hb & Hs & _).
    exists bi, bp, si, sp. split; [done|]. split; [done|].
    revert Hmb. unfold match_book. rewrite Hsel. simpl.
    case_decide as Hc; [|done]. intros _. apply Hc.
  - intros (jb & pb & js & ps & [Hjb Hpb] & [Hjs Hps] & Hle).
    destruct o as [tr|]; [by eexists|]. exfalso.
    revert Hmb. unfold match_book.
    destruct (select ob) as [[[bi bp] [si sp]]|] eqn:Hsel; simpl; [|done].
    case_decide as Hc; [by destruct (execute _ _ _ _ _) as [[] |]|]. intros _.
    apply Hc. clear Hc.
    pose proof (select_spec _ _ _ Hsel) as [Hsb Hss].
    destruct (scan_side_first_best buy_better _ _ _ _ Hsb) as [Hb1 Hb2].
    destruct (scan_side_first_best sell_better _ _ _ _ Hss) as [Hs1 Hs2].
    destruct (Hp BUY jb pb Hjb Hpb) as [Hb10 _].
    destruct (Hp SELL js ps Hjs Hps) as [_ Hs1000].
    assert (PrimFloat.ltb (-1) pb = true) as Hbb
      by (eapply ltb_leb_trans; [|exact Hb10]; by vm_compute).
    assert (PrimFloat.ltb ps 1e9 = true) as Hsb'
      by (eapply leb_ltb_trans; [exact Hs1000|]; by vm_compute).
    assert (bi ≠ -1) as Hbi by (apply Hb1; by exists jb, pb).
    assert (si ≠ -1) as Hsi by (apply Hs1; by exists js, ps).
    split; [done|]. split; [done|]. cbn [fst snd].
    destruct (Hb2 Hbi) as (_ & _ & Hbest). destruct (Hs2 Hsi) as (_ & _ & Hsbest).
    destruct (Hbest jb pb Hjb Hpb) as [Hb3 _]. destruct (Hsbest js ps Hjs Hps) as [Hs3 _].
    pose proof (scan_side_selected_beats buy_better _ _ _ _ _ Hsb Hbi) as Hb4.
    pose proof (scan_side_selected_beats sell_better _ _ _ _ _ Hss Hsi) as Hs4.
    unfold buy_better, sell_better in *.
    apply (FloatOrder.leb_trans sp ps); [|apply (FloatOrder.leb_trans ps pb); [done|]].
    + apply FloatOrder.not_ltb_leb; [| |done].
      * by apply FloatOrder.ltb_number in Hsb' as [? _].
      * by apply FloatOrder.ltb_number in Hs4 as [? _].
    + apply FloatOrder.not_ltb_leb; [| |done].
      * by apply FloatOrder.ltb_number in Hb4 as [_ ?].
      * by apply FloatOrder.ltb_number in Hbb as [_ ?].
Qed.

(** X17. On the orders of the program itself the sentinels of the scans
    play no part: after any sequence of submissions drawn by
    [addOrdersRandomly] and of calls of [matchOrder], a call of
    [matchOrder] on a book whose counters are within the capacity trades
    exactly when some active bid of positive quantity is priced at or
    above some active ask of positive quantity. *)
Theorem generated_orders_cross ops m log ticker :
  Forall generated ops → run ops initial = Some (m, log) →
  0 ≤ ticker < NUM_TICKERS →
  count (buy (book m ticker)) ≤ MAX_ORDERS_PER_SIDE →
  count (sell (book m ticker)) ≤ MAX_ORDERS_PER_SIDE →
  ∃ m' o,
    matchOrder ticker m = Some (m', o) ∧
    (is_Some o ↔
     ∃ jb pb js ps,
       (0 ≤ jb < count (buy (book m ticker)) ∧ eligible (buy (book m ticker)) jb pb) ∧
       (0 ≤ js < count (sell (book m ticker)) ∧ eligible (sell (book m ticker)) js ps) ∧
       PrimFloat.leb ps pb = true).
Proof.
  intros Hops Hrun Ht Hcb Hcs.
  destruct (run_priced ops initial m log wf_initial Hops priced_initial Hrun) as [Hm Hp].
  pose proof (load_book m ticker Hm Ht) as Hob.
  destruct (matchOrder_in_range ticker m _ Hm Hob Hcb Hcs) as [[m' o] Hmatch].
  exists m', o. split; [done|].
  apply matchOrder_books in Hmatch as (_ & _ & _ & Hmb & _).
  apply (match_book_crossing ticker _ _ _ (Hp ticker) Hmb).
Qed.

(** The bid of 10 at 100 against asks of 5 at 95 and of 5 at 90. *)
Lemma generated_orders_cross_witness :
  ∃ log,
    Forall generated ladder ∧ run ladder initial = Some (after ladder, log) ∧
    0 ≤ 0 < NUM_TICKERS ∧
    count (buy (book (after ladder) 0)) ≤ MAX_ORDERS_PER_SIDE ∧
    count (sell (book (after ladder) 0)) ≤ MAX_ORDERS_PER_SIDE ∧
    ∃ m' o,
      matchOrder 0 (after ladder) = Some (m', o) ∧
      (is_Some o ↔
       ∃ jb pb js ps,
         (0 ≤ jb < count (buy (book (after ladder) 0)) ∧
          eligible (buy (book (after ladder) 0)) jb pb) ∧
         (0 ≤ js < count (sell (book (after ladder) 0)) ∧
          eligible (sell (book (after ladder) 0)) js ps) ∧
         PrimFloat.leb ps pb = true).
Proof.
  assert (Forall generated ladder) as Hops.
  { repeat (constructor; [cbn [generated]; repeat split; (zlia || by vm_compute)|]).
    constructor. }
  destruct (run_after ladder) as [log Hrun]; [apply is_Some_evaluated; evaluated|].
  assert (0 ≤ 0 < NUM_TICKERS) as Ht by zlia.
  assert (count (buy (book (after ladder) 0)) = 1) as Hcb by evaluated.
  assert (count (sell (book (after ladder) 0)) = 2) as Hcs by evaluated.
  assert (count (buy (book (after ladder) 0)) ≤ MAX_ORDERS_PER_SIDE) as Hb
    by (rewrite Hcb; zlia).
  assert (count (sell (book (after ladder) 0)) ≤ MAX_ORDERS_PER_SIDE) as Hs
    by (rewrite Hcs; zlia).
  exists log. split; [exact Hops|]. split; [exact Hrun|]. split; [exact Ht|].
  split; [exact Hb|]. split; [exact Hs|].
  exact (generated_orders_cross ladder _ log 0 Hops Hrun Ht Hb Hs).
Defined.

(** ** [addOrdersRandomly] *)

Lemma wrap_int_add a b : wrap_int (wrap_int a + b) = wrap_int (a + b).
Proof.
  unfold wrap_int. f_equal.
  replace ((a + 2 ^ 31) `mod` 2 ^ 32 - 2 ^ 31 + b + 2 ^ 31)
    with ((a + 2 ^ 31) `mod` 2 ^ 32 + b) by lia.
  rewrite Zplus_mod_idemp_l. f_equal. lia.
Qed.

Lemma adds_to_cons ticker type o ops :
  adds_to ticker type (o :: ops) =
    (match o with
     | Add ty t _ _ => if decide (t = ticker ∧ ty = type) then 1 else 0
     | Match _ => 0
     end) + adds_to ticker type ops.
Proof. done. Qed.

Lemma adds_to_nonneg ticker type ops : 0 ≤ adds_to ticker type ops.
Proof.
  induction ops as [|[] ops IH]; rewrite ?adds_to_cons; [done | case_decide; lia | lia].
Qed.

(** [addOrdersRandomly] is the run of its submissions. *)
Lemma addOrdersRandomly_run draws : ∀ m,
  run (submit <$> draws) m =
    (λ r : Market * list AddResult, (r.1, zip (submit <$> draws) (Added <$> r.2)))
      <$> addOrdersRandomly draws m.
Proof.
  induction draws as [|d draws IH]; intros m; cbn [fmap list_fmap run addOrdersRandomly].
  - done.
  - cbn [submit step].
    destruct (addOrder _ _ _ _ m) as [[m1 r]|]; simpl; [|done].
    change (list_fmap _ _ submit draws) with (submit <$> draws).
    rewrite IH. by destruct (addOrdersRandomly draws m1) as [[m2 rs]|].
Qed.

(** X18. One adder thread on its own: from a well-formed market whose
    counters are not negative and cannot reach [INT_MAX] within the call,
    [addOrdersRandomly] stays inside the arrays whatever it draws, reports
    on every draw, takes one order id per draw, and raises the counter of
    each side by the number of draws for it, stored or turned away. *)
Theorem addOrdersRandomly_submits draws : ∀ m,
  wf_market m → Forall drawn draws →
  (∀ t type, 0 ≤ count (side_of type (book m t)) ≤ INT_MAX - Z.of_nat (length draws)) →
  ∃ m' rs,
    addOrdersRandomly draws m = Some (m', rs) ∧
    length rs = length draws ∧
    wf_market m' ∧
    globalOrderId m' = wrap_int (globalOrderId m + Z.of_nat (length draws)) ∧
    ∀ t type,
      count (side_of type (book m' t))
        = count (side_of type (book m t)) + adds_to t type (submit <$> draws).
Proof.
  induction draws as [|d draws IH]; intros m Hm Hd Hc; cbn [addOrdersRandomly].
  - exists m, []. split; [done|]. split; [done|]. split; [done|]. split.
    + cbn [length]. rewrite Z.add_0_r. symmetry. apply wrap_int_id, Hm.
    + intros t type. unfold adds_to. simpl. lia.
  - apply Forall_cons in Hd as [Hd Hds]. cbn [length] in Hc.
    pose proof Hd as (Ht & Hq & _).
    set (type0 := order_type (draw_type d)) in *.
    pose proof (load_book m (draw_ticker d) Hm ltac:(lia)) as Hob.
    pose proof (Hc (draw_ticker d) type0) as Hc0.
    destruct (addOrder_in_range type0 (draw_ticker d) (draw_quantity d) (draw_price d)
                m _ Hm Hob ltac:(lia)) as [[m1 r] Hadd].
    rewrite Hadd. simpl.
    assert (is_int (draw_quantity d)) as Hint by zlia.
    pose proof (addOrder_wf _ _ _ _ _ _ _ Hm Hint Hadd) as Hm1.
    assert (0 ≤ count (side_of type0 (book m (draw_ticker d))) < INT_MAX) as Hc0' by lia.
    destruct (addOrder_ids _ _ _ _ _ _ _ Hm Hc0' Hadd) as (Hg1 & Hc1 & _).
    destruct (IH m1 Hm1 Hds) as (m2 & rs & -> & Hlen & Hm2 & Hg2 & Hc2).
    { intros t type. rewrite Hc1. pose proof (Hc t type). case_decide; lia. }
    simpl. exists m2, (r :: rs). split; [done|]. split; [cbn [length]; by rewrite Hlen|].
    split; [done|]. split.
    + rewrite Hg2, Hg1, wrap_int_add. f_equal. lia.
    + intros t type. rewrite Hc2, Hc1. cbn [fmap list_fmap].
      change (list_fmap _ _ submit draws) with (submit <$> draws).
      rewrite adds_to_cons. cbn [submit]. fold type0.
      repeat case_decide; try lia; exfalso;
          match goal with H : ¬ _ |- _ => apply H end; intuition congruence.
Qed.

(** Four draws on the initial market. *)
Lemma addOrdersRandomly_submits_witness :
  wf_market initial ∧ Forall drawn sample_draws ∧
  (∀ t type,
     0 ≤ count (side_of type (book initial t)) ≤ INT_MAX - Z.of_nat (length sample_draws)) ∧
  snd <$> addOrdersRandomly sample_draws initial
    = Some [Stored 0; Stored 0; Stored 0; Stored 0] ∧
  ∃ m' rs,
    addOrdersRandomly sample_draws initial = Some (m', rs) ∧
    length rs = length sample_draws ∧
    wf_market m' ∧
    globalOrderId m' = wrap_int (globalOrderId initial + Z.of_nat (length sample_draws)) ∧
    ∀ t type,
      count (side_of type (book m' t))
        = count (side_of type (book initial t)) + adds_to t type (submit <$> sample_draws).
Proof.
  assert (Forall drawn sample_draws) as Hd.
  { repeat (constructor; [unfold drawn; cbn; repeat split; (zlia || by vm_compute)|]).
    constructor. }
  assert (∀ t type,
    0 ≤ count (side_of type (book initial t)) ≤ INT_MAX - Z.of_nat (length sample_draws))
    as Hc.
  { intros t type. rewrite book_initial. destruct type; cbn; zlia. }
  split; [exact wf_initial|]. split; [exact Hd|]. split; [exact Hc|]. split; [evaluated|].
  exact (addOrdersRandomly_submits sample_draws initial wf_initial Hd Hc).
Defined.

(** ** The threads of [main] within the capacity *)

Lemma run_generated ops : ∀ m,
  wf_market m → Forall generated ops →
  (∀ t type, 0 ≤ count (side_of type (book m t)) ∧
             count (side_of type (book m t)) + adds_to t type ops ≤ MAX_ORDERS_PER_SIDE) →
  ∃ m' log,
    run ops m = Some (m', log) ∧ all_stored log ∧
    ∀ t type,
      count (side_of type (book m' t)) = count (side_of type (book m t)) + adds_to t type ops.
Proof.
  induction ops as [|o ops IH]; intros m Hm Hops Hc; cbn [run].
  - exists m, []. split; [done|]. split; [constructor|].
    intros t type. unfold adds_to. simpl. lia.
  - apply Forall_cons in Hops as [Ho Hops].
    destruct o as [type0 t0 qty px | t0]; cbn [step generated] in *.
    + destruct Ho as (Ht & Hq & _).
      pose proof (load_book m t0 Hm ltac:(lia)) as Hob.
      pose proof (Hc t0 type0) as Hc0. rewrite adds_to_cons in Hc0.
      rewrite decide_True in Hc0 by done.
      pose proof (adds_to_nonneg t0 type0 ops) as Hn.
      destruct (addOrder_in_range type0 t0 qty px m _ Hm Hob ltac:(lia)) as [[m1 r] Hadd].
      rewrite Hadd. simpl.
      assert (is_int qty) as Hint by zlia.
      pose proof (addOrder_wf _ _ _ _ _ _ _ Hm Hint Hadd) as Hm1.
      assert (0 ≤ count (side_of type0 (book m t0)) < INT_MAX) as Hc0' by zlia.
      destruct (addOrder_ids _ _ _ _ _ _ _ Hm Hc0' Hadd) as (_ & Hc1 & _).
      assert (r ≠ BookFull) as Hr.
      { intros ->. destruct (addOrder_spec _ _ _ _ _ _ _ Hadd) as (ob & s' & Hob' & Hs' & _).
        rewrite Hob in Hob'. injection Hob' as <-.
        apply add_to_side_spec in Hs' as [(_ & [=] & _) | (Hfull & _)]. lia. }
      destruct (IH m1 Hm1 Hops) as (m2 & log & -> & Hlog & Hc2).
      { intros t type. rewrite Hc1. pose proof (Hc t type) as Hct.
        rewrite adds_to_cons in Hct.
        repeat case_decide; try lia; exfalso;
          match goal with H : ¬ _ |- _ => apply H end; intuition congruence. }
      simpl. eexists _, _. split; [done|]. split.
      * constructor; [|done]. cbn. by destruct r.
      * intros t type. rewrite Hc2, Hc1, adds_to_cons.
        repeat case_decide; try lia; exfalso;
          match goal with H : ¬ _ |- _ => apply H end; intuition congruence.
    + pose proof (load_book m t0 Hm Ho) as Hob.
      destruct (matchOrder_in_range t0 m _ Hm Hob) as [[m1 o] Hmatch].
      { pose proof (Hc t0 BUY) as [? ?]. pose proof (adds_to_nonneg t0 BUY (Match t0 :: ops)).
        cbn [side_of] in *. lia. }
      { pose proof (Hc t0 SELL) as [? ?]. pose proof (adds_to_nonneg t0 SELL (Match t0 :: ops)).
        cbn [side_of] in *. lia. }
      rewrite Hmatch. simpl.
      pose proof (matchOrder_wf _ _ _ _ Hm Hmatch) as Hm1.
      pose proof (matchOrder_frame_books _ _ _ _ Hmatch) as Hframe.
      destruct (IH m1 Hm1 Hops) as (m2 & log & -> & Hlog & Hc2).
      { intros t type. destruct (Hframe t type) as (_ & _ & ->).
        pose proof (Hc t type) as Hct. rewrite adds_to_cons in Hct. lia. }
      simpl. eexists _, _. split; [done|]. split.
      * constructor; [done | done].
      * intros t type. rewrite Hc2, adds_to_cons.
        destruct (Hframe t type) as (_ & _ & ->). lia.
Qed.

(** X19. As long as no side of any ticker is sent more than
    [MAX_ORDERS_PER_SIDE] orders, the threads of [main] stay inside the
    arrays in every interleaving: every submission is stored, every call
    of [matchOrder] is defined, and the counter of each side is the number
    of orders sent to it. *)
Theorem within_capacity ops :
  Forall generated ops →
  (∀ t type, adds_to t type ops ≤ MAX_ORDERS_PER_SIDE) →
  ∃ m log,
    run ops initial = Some (m, log) ∧ all_stored log ∧
    ∀ t type, count (side_of type (book m t)) = adds_to t type ops.
Proof.
  intros Hops Hc.
  destruct (run_generated ops initial wf_initial Hops) as (m & log & Hrun & Hlog & Hcount).
  - intros t type. rewrite book_initial.
    assert (count (side_of type new_OrderBook) = 0) as -> by (by destruct type).
    pose proof (Hc t type). lia.
  - exists m, log. split; [done|]. split; [done|].
    intros t type. rewrite Hcount, book_initial.
    assert (count (side_of type new_OrderBook) = 0) as -> by (by destruct type). lia.
Qed.

(** The bid of 10 at 100 against asks of 5 at 95 and of 5 at 90, and two
    calls of [matchOrder]. *)
Lemma within_capacity_witness :
  let ops := ladder ++ [Match 0; Match 0] in
  Forall generated ops ∧
  (∀ t type, adds_to t type ops ≤ MAX_ORDERS_PER_SIDE) ∧
  ∃ m log,
    run ops initial = Some (m, log) ∧ all_stored log ∧
    ∀ t type, count (side_of type (book m t)) = adds_to t type ops.
Proof.
  intros ops.
  assert (Forall generated ops) as Hops.
  { repeat (constructor; [cbn [generated]; repeat split; (zlia || by vm_compute)|]).
    constructor. }
  assert (∀ t type, adds_to t type ops ≤ MAX_ORDERS_PER_SIDE) as Hc.
  { intros t type. unfold ops, ladder. cbn [app]. rewrite !adds_to_cons.
    change (adds_to t type []) with 0. repeat case_decide; zlia. }
  split; [exact Hops|]. split; [exact Hc|].
  exact (within_capacity ops Hops Hc).
Defined.

(** X20. A quiet cycle leaves an uncrossed market: after any sequence of
    generated submissions and calls of [matchOrder], when one cycle of the
    matcher prints no trade, no book holds an active bid of positive
    quantity priced at or above an active ask of positive quantity. *)
Theorem quiet_cycle_uncrossed ops m log m' ticker jb pb js ps :
  Forall generated ops → run ops initial = Some (m, log) →
  sweep m = Some (m', []) →
  0 ≤ ticker < NUM_TICKERS →
  0 ≤ jb < count (buy (book m ticker)) → eligible (buy (book m ticker)) jb pb →
  0 ≤ js < count (sell (book m ticker)) → eligible (sell (book m ticker)) js ps →
  PrimFloat.leb ps pb = false.
Proof.
  intros Hops Hrun Hsw Ht Hjb Hpb Hjs Hps.
  destruct (run_priced ops initial m log wf_initial Hops priced_initial Hrun) as [Hm Hp].
  unfold sweep in Hsw. apply sweep_from_spec in Hsw as (_ & _ & Hin & _).
  destruct (Hin ticker) as (o & Hmb & Hf); [zlia|].
  destruct o as [tr|]; [done|].
  destruct (PrimFloat.leb ps pb) eqn:Hle; [|done].
  destruct (proj2 (match_book_crossing ticker _ _ _ (Hp ticker) Hmb)) as [? [=]].
  by exists jb, pb, js, ps.
Qed.

(** A bid at 80 under an ask at 90 on ticker 0: the cycle is quiet. *)
Lemma quiet_cycle_uncrossed_witness :
  let ops := [Add BUY 0 5 80%float; Add SELL 0 5 90%float] in
  ∃ log m',
    Forall generated ops ∧ run ops initial = Some (after ops, log) ∧
    sweep (after ops) = Some (m', []) ∧
    0 ≤ 0 < NUM_TICKERS ∧
    0 ≤ 0 < count (buy (book (after ops) 0)) ∧
    eligible (buy (book (after ops) 0)) 0 80%float ∧
    0 ≤ 0 < count (sell (book (after ops) 0)) ∧
    eligible (sell (book (after ops) 0)) 0 90%float ∧
    PrimFloat.leb 90 80 = false.
Proof.
  intros ops.
  assert (Forall generated ops) as Hops.
  { repeat (constructor; [cbn [generated]; repeat split; (zlia || by vm_compute)|]).
    constructor. }
  destruct (run_after ops) as [log Hrun]; [apply is_Some_evaluated; evaluated|].
  assert (is_Some (sweep (after ops))) as [[m' ts] Hsw]
    by (apply is_Some_evaluated; evaluated).
  assert (from_option snd [] (sweep (after ops)) = []) as Hts by evaluated.
  rewrite Hsw in Hts. cbn [from_option snd] in Hts. subst ts.
  assert (0 ≤ 0 < NUM_TICKERS) as Ht by zlia.
  assert (count (buy (book (after ops) 0)) = 1) as Hcb by evaluated.
  assert (count (sell (book (after ops) 0)) = 1) as Hcs by evaluated.
  assert (0 ≤ 0 < count (buy (book (after ops) 0))) as Hjb by (rewrite Hcb; lia).
  assert (0 ≤ 0 < count (sell (book (after ops) 0))) as Hjs by (rewrite Hcs; lia).
  assert (eligible (buy (book (after ops) 0)) 0 80%float) as Hpb by eligible_with 5.
  assert (eligible (sell (book (after ops) 0)) 0 90%float) as Hps by eligible_with 5.
  exists log, m'. split; [exact Hops|]. split; [exact Hrun|]. split; [exact Hsw|].
  split; [exact Ht|]. split; [exact Hjb|]. split; [exact Hpb|]. split; [exact Hjs|].
  split; [exact Hps|].
  exact (quiet_cycle_uncrossed ops _ log m' 0 0 80%float 0 90%float
           Hops Hrun Hsw Ht Hjb Hpb Hjs Hps).
Defined.
(** * The scenarios of the specification *)

Example scenario_full_fill :
  (λ '(ob, log), (slot (buy ob) 0, slot (sell ob) 0, log)) <$>
    book0 (run [Add BUY 0 50 100%float; Add SELL 0 50 90%float; Match 0; Match 0] initial)
  = Some (Some (0, 0, 100%float, false), Some (1, 0, 90%float, false),
          [Added (Stored 0); Added (Stored 0);
           Matched (Some (mkTrade 0 50 90%float 0 1)); Matched None]).
Proof. vm_compute. reflexivity. Qed.

Example scenario_partial_fill :
  (λ '(ob, log), (slot (buy ob) 0, slot (sell ob) 0, log)) <$>
    book0 (run [Add BUY 0 30 100%float; Add SELL 0 50 90%float; Match 0] initial)
  = Some (Some (0, 0, 100%float, false), Some (1, 20, 90%float, true),
          [Added (Stored 0); Added (Stored 0);
           Matched (Some (mkTrade 0 30 90%float 0 1))]).
Proof. vm_compute. reflexivity. Qed.

Example scenario_no_cross :
  (λ '(ob, log), log) <$>
    book0 (run [Add BUY 0 5 10%float; Add SELL 0 5 20%float; Match 0; Match 0] initial)
  = Some [Added (Stored 0); Added (Stored 0); Matched None; Matched None].
Proof. vm_compute. reflexivity. Qed.

